(** * node-sqs: the SQS consumption engine of [lib/sqs.js]

    The revision modelled is the one that supports more than 10 concurrent
    jobs (v0.2.0: [_mainLoop], [_longPollsRequired], [_longPollsInFlight]).

    A shallow embedding of the [Sqs] class (constructor, [init],
    [createJob], [startFetch], [_mainLoop], [_receiveMessages],
    [_processMessages], [_invokeMethod], [_completeJob], [purge],
    [dispose]) and of the factory of [index.js], together with the
    event loop that drives the instance, the properties of the
    specification that are about it, and further properties of the code.

    Modelling conventions.
    - A JavaScript number that holds an integer is a [Z]; [%] is [Z.rem]
      and [/] on an exact multiple is [Z.quot].  [null] is [None].  The
      factory of [index.js] is modelled on every number, [NaN] and the
      infinities included, and on a URL on which [url.parse] throws; the
      instance that the runs follow has an integer limit and a URL that
      [url.parse] accepts.
    - The instance is a record with one field per property that the
      constructor assigns.  The four methods that [dispose] overwrites with
      own properties are slots holding either the prototype's function or
      the inert replacement.  A promise chain keeps the functions it was
      built with: [.then(this._processMessages)], [.map(this._invokeMethod)]
      and [.finally(this._mainLoop)] read the slot when the chain is
      built, not when the callback runs.
    - Promises are modelled by what is outstanding: a table of long-poll
      workers, a table of orchestration passes whose [.map] has not settled,
      a table of items whose handler or delete call is pending, and the
      queue of [.map] fan-outs whose mapper has yet to be run.
    - Bluebird starts the mapper of [.map(this._receiveMessages)] from its
      own queue: never from inside the call that built the chain, and in
      the order in which the chains were built.  So [_mainLoop] returns
      before [_receiveMessages] has run, and a turn that the queue starts
      runs it until it is empty.
    - When an operation settles (a receive call, the promise of a handler,
      a delete call), the callbacks that wait for it run one after the
      other, down to the [.catch] and [.finally(this._mainLoop)] of the
      pass when the worker settles its pass; the fan-out that [_mainLoop]
      queues waits for the queue.  Several operations can settle before the
      queue runs.
    - [.map] calls its mapper on the elements in order.  It stops at the
      first call that returns an already rejected promise, and rejects; it
      rejects with the first rejection of a promise that a call returned;
      it fulfils when all calls have been made and their promises have
      fulfilled.
    - The handler is a black box: it is called and either throws, or
      returns and its promise settles later.  It does not call back into
      the instance before it returns.
    - Everything the program does to the outside (logger calls, backend
      requests, handler invocations) is appended to a trace.
    - Runs start from an instance on which [init()] has completed, as the
      README requires: the promisified client methods are installed and
      no method ever removes them. *)

From stdpp Require Import gmap strings list.
From Stdlib Require Import ZArith Lia Ascii.

Open Scope Z_scope.

(** ** JavaScript values *)

(** What a method slot of the instance holds. *)
Inductive Impl := Proto | Inert.

(** An error object, with the fields the code reads. *)
Record Err := mkErr {
  ownError : bool;
  noStack : bool;
  message : string;
  stack : string }.

(** The value a promise is rejected with (or that is thrown). *)
Inductive Reason := Undefined | Thrown (e : Err).

Definition Error_ (msg : string) : Reason :=
  Thrown (mkErr false false msg msg).

Definition TypeError (msg : string) : Reason :=
  Thrown (mkErr false false msg msg).

Definition ownErr (msg : string) : Reason :=
  Thrown (mkErr true false msg msg).

(** How a promise settles: [None] is fulfilment. *)
Definition Settled := option Reason.

(** A raw SQS message: the two properties of a job item that are read. *)
Record RawMessage := mkMsg { Body : string; ReceiptHandle : string }.

Record ReceiveParams := mkReceive {
  rp_QueueUrl : option string;
  MaxNumberOfMessages : option Z;
  WaitTimeSeconds : Z }.

Record DeleteParams := mkDelete {
  dp_QueueUrl : option string;
  dp_ReceiptHandle : string }.

Record SendParams := mkSend {
  MessageBody : string;
  sp_QueueUrl : option string;
  DelaySeconds : Z }.

Inductive Level := Info | Warn | Error.

(** An argument of a logger call. *)
Inductive LogArg :=
| LStr (s : string)
| LOpt (s : option string)
| LNum (n : Z)
| LItem (m : RawMessage)
| LReason (r : Reason).

(** What the backend answers to a receive request: a failure, or a
    response whose [Messages] property is an array or is absent. *)
Inductive ReceiveResult :=
| RecvFailed (r : Reason)
| RecvData (Messages : option (list RawMessage)).

Section Repo.

(** The payload type, the caller's handler functions and logger objects are
    opaque; [JSON.parse], [JSON.stringify] and [url.parse(..).pathname]
    belong to the platform. *)
Context {Json Handler Logger : Type}.
Variable JSON_parse : string -> option Json.
Variable JSON_stringify : Json -> string.
Variable url_pathname : string -> option string.

(** [url.parse] may throw on a string: [url_parse_throws u] is the value
    it throws on [u], if it does. *)
Variable url_parse_throws : string -> option Reason.

(** What a handler does when it is called: [handler_throws iid h d] is the
    value that [h] throws when it is called with [d] for the item numbered
    [iid], if it throws; otherwise it returns, and its promise settles
    later.  Every item has a number of its own, so the calls of one handler
    need not behave alike. *)
Variable handler_throws : nat -> Handler -> Json -> option Reason.

(** ** The instance *)

Record Opts := mkOpts {
  sqsUrl : string;
  opt_concurrentOpsLimit : Z;
  logger : Logger }.

Record Sqs := mkSqs {
  sqs : bool;
  _heartbeatTime : Z;
  _heartbeatInterval : option nat;
  log : option Logger;
  _method : option Handler;
  concurrentOpsLimit : option Z;
  _longPollsRequired : Z;
  _longPollsInFlight : Z;
  url : option string;
  pathname : option string;
  _isDisposed : bool;
  slot_startFetch : Impl;
  slot_processMessages : Impl;
  slot_invokeMethod : Impl;
  slot_mainLoop : Impl }.

Definition errMessage : string :=
  "You can only define multiples of 10 beyond 10 concurrent operations limit".

(** The constructor, [new Sqs(opts)], on options of the right types with an
    integer limit and a queue URL on which [url.parse] returns: it throws
    or returns the instance.  The factory exported by [index.js], which
    checks the types and calls the constructor on whatever passes, is
    [sqsLib] below. *)
Definition new_Sqs (opts : Opts) : Reason + Sqs :=
  let limit := opt_concurrentOpsLimit opts in
  let build polsRequired :=
    inr (mkSqs false 10000 None (Some (logger opts)) None (Some limit)
           polsRequired 0 (Some (sqsUrl opts)) (url_pathname (sqsUrl opts))
           false Proto Proto Proto Proto) in
  if 10 <? limit then
    if negb (Z.rem limit 10 =? 0) then inl (Error_ errMessage)
    else build (Z.quot limit 10)
  else build 1.

(** [init()], as far as the instance goes: the client handle is stored. *)
Definition init (s : Sqs) : Sqs :=
  mkSqs true (_heartbeatTime s) (_heartbeatInterval s) (log s) (_method s)
    (concurrentOpsLimit s) (_longPollsRequired s) (_longPollsInFlight s)
    (url s) (pathname s) (_isDisposed s) (slot_startFetch s)
    (slot_processMessages s) (slot_invokeMethod s) (slot_mainLoop s).


Definition with_inFlight (n : Z) (s : Sqs) : Sqs :=
  mkSqs (sqs s) (_heartbeatTime s) (_heartbeatInterval s) (log s) (_method s)
    (concurrentOpsLimit s) (_longPollsRequired s) n
    (url s) (pathname s) (_isDisposed s) (slot_startFetch s)
    (slot_processMessages s) (slot_invokeMethod s) (slot_mainLoop s).

Definition with_method (m : option Handler) (s : Sqs) : Sqs :=
  mkSqs (sqs s) (_heartbeatTime s) (_heartbeatInterval s) (log s) m
    (concurrentOpsLimit s) (_longPollsRequired s) (_longPollsInFlight s)
    (url s) (pathname s) (_isDisposed s) (slot_startFetch s)
    (slot_processMessages s) (slot_invokeMethod s) (slot_mainLoop s).

Definition with_interval (t : option nat) (s : Sqs) : Sqs :=
  mkSqs (sqs s) (_heartbeatTime s) t (log s) (_method s)
    (concurrentOpsLimit s) (_longPollsRequired s) (_longPollsInFlight s)
    (url s) (pathname s) (_isDisposed s) (slot_startFetch s)
    (slot_processMessages s) (slot_invokeMethod s) (slot_mainLoop s).

(** The assignments of [dispose]: the flag, the four inert own properties
    and the fields set to [null].  [_longPollsRequired],
    [_longPollsInFlight] and [_heartbeatTime] are left as they are. *)
Definition disposed (s : Sqs) : Sqs :=
  mkSqs false (_heartbeatTime s) None None None
    None (_longPollsRequired s) (_longPollsInFlight s)
    None None true Inert Inert Inert Inert.

(** ** What the program does to the outside *)

Inductive Event :=
| EvLog (lg : Logger) (lvl : Level) (args : list LogArg)
| EvMainLoop (invokeLongPolls : Z)
| EvReceive (wid : nat) (p : ReceiveParams)
| EvItem (iid : nat) (jobItem : RawMessage)
| EvInvoke (iid : nat) (h : Handler) (data : Json)
| EvHandlerSettled (iid : nat) (o : Settled)
| EvDelete (iid : nat) (p : DeleteParams)
| EvSend (p : SendParams)
| EvDisposed.

(** [EvLog] is a call of a logger method, [EvReceive], [EvDelete] and
    [EvSend] are calls of [receiveMessage], [deleteMessage] and
    [sendMessage], [EvInvoke] is a call of the handler.  The others only
    mark a point of the run: the prototype's [_mainLoop] was entered and
    computed this deficit, the prototype's [_invokeMethod] was entered on
    this job item, the call of the handler for an item came to its end (the
    handler threw, or the promise it returned settled), [dispose] went past
    its guard.  Workers and items are numbered as they are
    created. *)

(** ** The event loop's state *)

(** A [.map(this._receiveMessages)] of [_mainLoop] whose mapper has not run
    yet: the length of the array and the function given to [.finally]. *)
Record Fanout := mkFanout { fo_count : nat; fo_finally : Impl }.

(** An orchestration pass whose [.map] promise is pending. *)
Record Pass := mkPass { p_remaining : nat; p_finally : Impl }.

(** A long-poll worker: its receive call is outstanding (with the functions
    given to [.then] and [.map] when the chain was built), or its
    [.map(this._invokeMethod)] awaits that many items. *)
Inductive WorkerSt :=
| Polling (pm im : Impl)
| Mapping (remaining : nat).

Record Worker := mkWorker { w_pass : nat; w_st : WorkerSt }.

Inductive ItemSt := AwaitHandler | AwaitDelete.

Record Item := mkItem { i_worker : nat; i_msg : RawMessage; i_st : ItemSt }.

(** The state of the event loop: the instance, the armed timers with the
    function each one calls, Bluebird's queue ([fanouts]), the tables of
    what is outstanding, the counters that number timers, passes, workers
    and items, and the trace. *)
Record World := mkWorld {
  inst : Sqs;
  intervals : gmap nat Impl;
  fanouts : list Fanout;
  passes : gmap nat Pass;
  workers : gmap nat Worker;
  items : gmap nat Item;
  next_timer : nat;
  next_pass : nat;
  next_worker : nat;
  next_item : nat;
  trace : list Event }.

Definition set_inst (s : Sqs) (w : World) : World :=
  mkWorld s (intervals w) (fanouts w) (passes w) (workers w) (items w)
    (next_timer w) (next_pass w) (next_worker w) (next_item w) (trace w).

Definition set_fanouts (f : list Fanout) (w : World) : World :=
  mkWorld (inst w) (intervals w) f (passes w) (workers w) (items w)
    (next_timer w) (next_pass w) (next_worker w) (next_item w) (trace w).

Definition set_passes (p : gmap nat Pass) (w : World) : World :=
  mkWorld (inst w) (intervals w) (fanouts w) p (workers w) (items w)
    (next_timer w) (next_pass w) (next_worker w) (next_item w) (trace w).

Definition set_workers (k : gmap nat Worker) (w : World) : World :=
  mkWorld (inst w) (intervals w) (fanouts w) (passes w) k (items w)
    (next_timer w) (next_pass w) (next_worker w) (next_item w) (trace w).

Definition set_items (i : gmap nat Item) (w : World) : World :=
  mkWorld (inst w) (intervals w) (fanouts w) (passes w) (workers w) i
    (next_timer w) (next_pass w) (next_worker w) (next_item w) (trace w).

Definition emit (e : Event) (w : World) : World :=
  mkWorld (inst w) (intervals w) (fanouts w) (passes w) (workers w) (items w)
    (next_timer w) (next_pass w) (next_worker w) (next_item w)
    (trace w ++ [e]).

(** [this.log.<lvl>(args)]: a [TypeError] ([None]) when [this.log] is null. *)
Definition log_call (lvl : Level) (args : list LogArg) (w : World)
  : option World :=
  match log (inst w) with
  | Some lg => Some (emit (EvLog lg lvl args) w)
  | None => None
  end.

Definition null_log : Reason :=
  TypeError "Cannot read property of null".

(** ** Orchestration *)

(** [Sqs.prototype._mainLoop].  The promise chain is built here, so
    [this._mainLoop] in [.finally(this._mainLoop)] is read now; the mapper
    runs later, from the queue. *)
Definition _mainLoop (w : World) : World :=
  let s := inst w in
  let invokeLongPolls := _longPollsRequired s - _longPollsInFlight s in
  let w := emit (EvMainLoop invokeLongPolls) w in
  if invokeLongPolls <=? 0 then w
  else set_fanouts
         (fanouts w ++ [mkFanout (Z.to_nat invokeLongPolls) (slot_mainLoop s)])
         w.

Definition call_mainLoop (f : Impl) (w : World) : World :=
  match f with Proto => _mainLoop w | Inert => w end.

(** [maxMessages] of [_receiveMessages]; [null < 10] holds in JavaScript. *)
Definition maxMessages (limit : option Z) : option Z :=
  match limit with
  | Some l => if l <? 10 then Some l else Some 10
  | None => None
  end.

(** [Sqs.prototype._receiveMessages], up to the point where the receive
    call is outstanding; [pid] is the pass whose [.map] called it. *)
Definition _receiveMessages (pid : nat) (w : World) : World :=
  let s := inst w in
  let params := mkReceive (url s) (maxMessages (concurrentOpsLimit s)) 10 in
  let wid := next_worker w in
  mkWorld (with_inFlight (_longPollsInFlight s + 1) s)
    (intervals w) (fanouts w) (passes w)
    (<[wid := mkWorker pid
                (Polling (slot_processMessages s) (slot_invokeMethod s))]>
       (workers w))
    (items w) (next_timer w) (next_pass w) (S wid) (next_item w)
    (trace w ++ [EvReceive wid params]).

(** The mapper of one pass runs: once per element of [new Array(n)]. *)
Definition run_fanout (fo : Fanout) (w : World) : World :=
  let pid := next_pass w in
  let w1 :=
    mkWorld (inst w) (intervals w) (fanouts w)
      (<[pid := mkPass (fo_count fo) (fo_finally fo)]> (passes w))
      (workers w) (items w) (next_timer w) (S pid) (next_worker w)
      (next_item w) (trace w) in
  Nat.iter (fo_count fo) (_receiveMessages pid) w1.

(** Bluebird's queue runs the pending fan-outs, oldest first. *)
Definition drain (w : World) : World :=
  fold_left (fun acc fo => run_fanout fo acc) (fanouts w) (set_fanouts [] w).

(** The [.catch] of [_mainLoop]; whatever it does, [.finally] follows. *)
Definition mainLoop_catch (err : Reason) (w : World) : World :=
  if _isDisposed (inst w) then w
  else match err with
       | Undefined => w
       | Thrown e =>
         match log_call Error
                 [LStr "service.sqs._mainLoop() :: Error on receiveMessage for queue:";
                  LOpt (pathname (inst w)); LStr "Error:"; LStr (message e)] w with
         | Some w' => w'
         | None => w
         end
       end.

(** A worker's promise settles into the [.map] of its pass.  The map
    fulfils when its last worker has fulfilled and rejects with the first
    rejection; [.finally(this._mainLoop)] runs when the map settles. *)
Definition pass_settled (pid : nat) (res : Settled) (w : World) : World :=
  match passes w !! pid with
  | None => w
  | Some p =>
    match res with
    | None =>
      match p_remaining p with
      | S (S n) =>
        set_passes (<[pid := mkPass (S n) (p_finally p)]> (passes w)) w
      | _ => call_mainLoop (p_finally p) (set_passes (delete pid (passes w)) w)
      end
    | Some err =>
      call_mainLoop (p_finally p)
        (mainLoop_catch err (set_passes (delete pid (passes w)) w))
    end
  end.

(** The [.finally] of [_receiveMessages]: [this._longPollsInFlight--]. *)
Definition worker_finally (wid : nat) (wk : Worker) (res : Settled)
  (w : World) : World :=
  let s := inst w in
  let w1 := set_inst (with_inFlight (_longPollsInFlight s - 1) s)
              (set_workers (delete wid (workers w)) w) in
  pass_settled (w_pass wk) res w1.

(** The [.catch] of [_receiveMessages]: how the worker's promise settles. *)
Definition receive_catch (err : Reason) (w : World) : World * Settled :=
  if _isDisposed (inst w) then (w, None)
  else match err with
       | Undefined =>
         (w, Some (TypeError "Cannot read property 'ownError' of undefined"))
       | Thrown e =>
         if ownError e then (w, None)
         else
           match log_call Error
                   [LStr "service.sqs._receiveMessages() :: Error on receiveMessage";
                    LStr "for queue:"; LOpt (pathname (inst w));
                    LStr "Error:"; LStr (message e)] w with
           | None => (w, Some null_log)
           | Some w1 =>
             if noStack e then (w1, None)
             else
               match log_call Info
                       [LStr "service.sqs._receiveMessages() :: Error stack:";
                        LStr (stack e)] w1 with
               | None => (w1, Some null_log)
               | Some w2 => (w2, None)
               end
           end
       end.

Definition worker_fail (wid : nat) (wk : Worker) (err : Reason)
  (w : World) : World :=
  let '(w1, res) := receive_catch err w in
  worker_finally wid wk res w1.

(** ** Dispatch *)

(** [Sqs.prototype._processMessages]. *)
Definition _processMessages (Messages : option (list RawMessage))
  (w : World) : World * (Reason + list RawMessage) :=
  if _isDisposed (inst w) then (w, inl (ownErr "Instance Disposed"))
  else match Messages with
       | None => (w, inl (ownErr "no messages"))
       | Some ms =>
         match log_call Info
                 [LStr "service.sqs._receiveMessages() :: Fetched";
                  LNum (Z.of_nat (length ms)); LStr " jobs to";
                  LStr " process for queue:"; LOpt (pathname (inst w))] w with
         | None => (w, inl null_log)
         | Some w' => (w', inr ms)
         end
       end.

(** The inert replacement resolves with [undefined], which [.map] rejects. *)
Definition call_processMessages (f : Impl) (Messages : option (list RawMessage))
  (w : World) : World * (Reason + list RawMessage) :=
  match f with
  | Proto => _processMessages Messages w
  | Inert =>
    (w, inl (TypeError "expecting an array or an iterable object but got undefined"))
  end.

(** What the mapper returned for one item: a settled promise, or one that
    waits for the handler.  A handler that throws inside [Promise.method]
    makes it return a rejected promise. *)
Inductive Mapped := MSettled (o : Settled) | MPending.

(** [Sqs.prototype._invokeMethod], up to the call of the handler. *)
Definition _invokeMethod (wid : nat) (jobItem : RawMessage) (w : World)
  : World * Mapped :=
  let iid := next_item w in
  let w0 :=
    mkWorld (inst w) (intervals w) (fanouts w) (passes w) (workers w)
      (items w) (next_timer w) (next_pass w) (next_worker w) (S iid)
      (trace w ++ [EvItem iid jobItem]) in
  match JSON_parse (Body jobItem) with
  | None =>
    match log_call Warn
            [LStr "service.sqs._invokeMethod() :: Failed to JSON parse jobItem";
             LStr "for queue:"; LOpt (pathname (inst w0));
             LStr "jobItem:"; LItem jobItem] w0 with
    | Some w' => (w', MSettled None)
    | None => (w0, MSettled (Some null_log))
    end
  | Some data =>
    match _method (inst w0) with
    | None => (w0, MSettled (Some (TypeError "this._method is not a function")))
    | Some method =>
      match handler_throws iid method data with
      | Some r =>
        (emit (EvHandlerSettled iid (Some r))
           (emit (EvInvoke iid method data) w0),
         MSettled (Some r))
      | None =>
        (emit (EvInvoke iid method data)
           (set_items (<[iid := mkItem wid jobItem AwaitHandler]> (items w0))
              w0),
         MPending)
      end
    end
  end.

Definition call_invokeMethod (f : Impl) (wid : nat) (jobItem : RawMessage)
  (w : World) : World * Mapped :=
  match f with
  | Proto => _invokeMethod wid jobItem w
  | Inert => (w, MSettled None)
  end.

(** [.map(this._invokeMethod)] over the batch: the mapper is called on
    the items in order, until a call returns a rejected promise; the result
    is the number of pending items and that rejection, if there is one. *)
Fixpoint map_items (f : Impl) (wid : nat) (ms : list RawMessage) (w : World)
  : World * nat * Settled :=
  match ms with
  | [] => (w, 0%nat, None)
  | m :: ms' =>
    let '(w1, r) := call_invokeMethod f wid m w in
    match r with
    | MSettled (Some e) => (w1, 0%nat, Some e)
    | MSettled None => map_items f wid ms' w1
    | MPending =>
      let '(w2, pending, rej) := map_items f wid ms' w1 in
      (w2, S pending, rej)
    end
  end.

(** The receive call of worker [wid] settles. *)
Definition receive_done (wid : nat) (r : ReceiveResult) (w : World) : World :=
  match workers w !! wid with
  | Some wk =>
    match w_st wk with
    | Polling pm im =>
      match r with
      | RecvFailed err => worker_fail wid wk err w
      | RecvData raw =>
        match call_processMessages pm raw w with
        | (w1, inl err) => worker_fail wid wk err w1
        | (w1, inr ms) =>
          let '(w2, pending, rej) := map_items im wid ms w1 in
          match rej with
          | Some err => worker_fail wid wk err w2
          | None =>
            match pending with
            | O => worker_finally wid wk None w2
            | S _ =>
              set_workers
                (<[wid := mkWorker (w_pass wk) (Mapping pending)]> (workers w2))
                w2
            end
          end
        end
      end
    | Mapping _ => w
    end
  | None => w
  end.

(** The promise of one item settles into the [.map] of its worker. *)
Definition item_settled (wid : nat) (res : Settled) (w : World) : World :=
  match workers w !! wid with
  | Some wk =>
    match w_st wk with
    | Mapping n =>
      match res with
      | Some err => worker_fail wid wk err w
      | None =>
        match n with
        | S (S k) =>
          set_workers
            (<[wid := mkWorker (w_pass wk) (Mapping (S k))]> (workers w)) w
        | _ => worker_finally wid wk None w
        end
      end
    | Polling _ _ => w
    end
  | None => w
  end.

(** [Sqs.prototype._completeJob], up to the call of [deleteMessage]. *)
Definition _completeJob (iid : nat) (receiptHandle : string) (w : World)
  : World :=
  emit (EvDelete iid (mkDelete (url (inst w)) receiptHandle)) w.

(** The handler's promise of item [iid] settles: the [.then] callback of
    [_invokeMethod] runs on fulfilment, nothing is attached to rejection. *)
Definition handler_done (iid : nat) (res : Settled) (w : World) : World :=
  match items w !! iid with
  | Some it =>
    match i_st it with
    | AwaitHandler =>
      let w1 := emit (EvHandlerSettled iid res) w in
      match res with
      | None =>
        set_items
          (<[iid := mkItem (i_worker it) (i_msg it) AwaitDelete]> (items w1))
          (_completeJob iid (ReceiptHandle (i_msg it)) w1)
      | Some err =>
        item_settled (i_worker it) (Some err)
          (set_items (delete iid (items w1)) w1)
      end
    | AwaitDelete => w
    end
  | None => w
  end.

(** The delete call of item [iid] settles: the [.catch] of [_completeJob]
    logs a failure. *)
Definition delete_done (iid : nat) (res : Settled) (w : World) : World :=
  match items w !! iid with
  | Some it =>
    match i_st it with
    | AwaitDelete =>
      let w1 := set_items (delete iid (items w)) w in
      match res with
      | None => item_settled (i_worker it) None w1
      | Some err =>
        match log_call Error
                [LStr "service.sqs._completeJob() :: Deleting job failed. Error:";
                 LReason err] w1 with
        | Some w2 => item_settled (i_worker it) None w2
        | None => item_settled (i_worker it) (Some null_log) w1
        end
      end
    | AwaitHandler => w
    end
  | None => w
  end.

(** ** The public methods *)

(** [Sqs.prototype.startFetch]; the timer keeps the function that
    [this._mainLoop] holds when [setInterval] is called. *)
Definition startFetch (method : Handler) (w : World) : World :=
  match slot_startFetch (inst w) with
  | Inert => w
  | Proto =>
    let w1 := set_inst (with_method (Some method) (inst w)) w in
    let w2 := call_mainLoop (slot_mainLoop (inst w1)) w1 in
    let t := next_timer w2 in
    mkWorld (with_interval (Some t) (inst w2))
      (<[t := slot_mainLoop (inst w2)]> (intervals w2))
      (fanouts w2) (passes w2) (workers w2) (items w2)
      (S t) (next_pass w2) (next_worker w2) (next_item w2) (trace w2)
  end.

(** How the promise returned by [createJob] starts out. *)
Inductive Created := CreateRejected (r : Reason) | CreateSent.

(** [Sqs.prototype.createJob]. *)
Definition createJob (data : Json) (w : World) : World * Created :=
  if _isDisposed (inst w) then
    (w, CreateRejected (Error_ "Instance is disposed"))
  else
    match log_call Info
            [LStr "service.sqs.createJob() :: Creating job for queue:";
             LOpt (pathname (inst w))] w with
    | None => (w, CreateRejected null_log)
    | Some w1 =>
      (emit (EvSend (mkSend (JSON_stringify data) (url (inst w1)) 0)) w1,
       CreateSent)
    end.

Definition clearInterval (t : option nat) (iv : gmap nat Impl)
  : gmap nat Impl :=
  match t with
  | Some k => delete k iv
  | None => iv
  end.

(** [Sqs.prototype.dispose]; its promise is fulfilled on both paths. *)
Definition dispose (w : World) : World * Settled :=
  if _isDisposed (inst w) then (w, None)
  else
    (mkWorld (disposed (inst w))
       (clearInterval (_heartbeatInterval (inst w)) (intervals w))
       (fanouts w) (passes w) (workers w) (items w)
       (next_timer w) (next_pass w) (next_worker w) (next_item w)
       (trace w ++ [EvDisposed]),
     None).

(** ** Runs *)

(** A promise that settles: a receive call, the promise of a handler, or
    a delete call. *)
Inductive Settlement :=
| SReceive (wid : nat) (r : ReceiveResult)
| SHandler (iid : nat) (o : Settled)
| SDelete (iid : nat) (o : Settled).

Definition settle (s : Settlement) (w : World) : World :=
  match s with
  | SReceive wid r => receive_done wid r w
  | SHandler iid o => handler_done iid o w
  | SDelete iid o => delete_done iid o w
  end.

Definition settle_all (ss : list Settlement) (w : World) : World :=
  fold_left (fun acc s => settle s acc) ss w.

(** What happens next: a call by the user, a heartbeat timer firing,
    Bluebird's queue running on its own, or outstanding operations
    settling.  With [ReceiveSettled], [HandlerSettled] and [DeleteSettled]
    the queue has run when the operation settles: the fan-outs that were
    waiting are started first, the callbacks of the operation run, and the
    queue runs again.  With [SettledTogether] the operations settle, in
    this order, before the queue runs: the callbacks of each run when it
    settles, and the fan-outs that were waiting, with those that the
    callbacks have added, are started after the last of them. *)
Inductive Input :=
| CallStartFetch (method : Handler)
| CallCreateJob (data : Json)
| CallDispose
| TimerFired (t : nat)
| QueueDrained
| ReceiveSettled (wid : nat) (r : ReceiveResult)
| HandlerSettled (iid : nat) (o : Settled)
| DeleteSettled (iid : nat) (o : Settled)
| SettledTogether (ss : list Settlement).

Definition step (w : World) (i : Input) : World :=
  match i with
  | CallStartFetch method => startFetch method w
  | CallCreateJob data => fst (createJob data w)
  | CallDispose => fst (dispose w)
  | TimerFired t =>
    match intervals w !! t with
    | Some f => call_mainLoop f w
    | None => w
    end
  | QueueDrained => drain w
  | ReceiveSettled wid r => drain (receive_done wid r (drain w))
  | HandlerSettled iid o => drain (handler_done iid o (drain w))
  | DeleteSettled iid o => drain (delete_done iid o (drain w))
  | SettledTogether ss => drain (settle_all ss w)
  end.

Definition run (w : World) (ins : list Input) : World :=
  fold_left step ins w.

Definition world_of (s : Sqs) : World :=
  mkWorld s ∅ [] ∅ ∅ ∅ 0%nat 0%nat 0%nat 0%nat [].

(** Construction followed by [init()]. *)
Definition boot (o : Opts) : Reason + World :=
  match new_Sqs o with
  | inl e => inl e
  | inr s => inr (world_of (init s))
  end.

(** ** The factory of [index.js] *)

(** A JavaScript number: an integer, a number that is not an integer and
    lies between [below] and [below + 1], [NaN], or an infinity. *)
Inductive JsNum :=
| JInt (z : Z)
| JFrac (below : Z)
| JNaN
| JInf (negative : bool).

(** A property of the options object as the factory reads it: a string, a
    number, or anything else ([undefined] included). *)
Inductive JsVal := JString (s : string) | JNumber (n : JsNum) | JOther.

(** The [logger] option when it is truthy: whether its [error], [warn] and
    [info] properties are, and the object that the constructor stores. *)
Record RawLogger := mkRawLogger {
  has_error : bool;
  has_warn : bool;
  has_info : bool;
  the_logger : Logger }.

(** The properties that the factory reads of a truthy argument. *)
Record RawOpts := mkRawOpts {
  raw_sqsUrl : JsVal;
  raw_concurrentOpsLimit : JsVal;
  raw_logger : option RawLogger }.

(** The double quote character. *)
Definition dq : string := String (ascii_of_nat 34%nat) EmptyString.

Definition no_options : string := "Options are required.".

Definition no_sqsUrl : string :=
  String.append dq (String.append "sqsUrl" (String.append dq " option required.")).

Definition no_limit : string :=
  String.append dq
    (String.append "concurrentOpsLimit"
       (String.append dq " option required and must be a number.")).

Definition no_logger : string := "Not a proper logger object was passed.".

(** The test of the constructor on the limit, for any number:
    [limit > 10 && limit % 10 !== 0].  A comparison with [NaN] is false;
    the remainder of an infinity, or of a number that is not an integer, is
    not [0]. *)
Definition limit_throws (n : JsNum) : bool :=
  match n with
  | JInt z => (10 <? z) && negb (Z.rem z 10 =? 0)
  | JFrac below => 10 <=? below
  | JNaN => false
  | JInf negative => negb negative
  end.

(** What the factory returns: an instance with an integer limit, which is
    the instance that the rest of this file follows, or an instance whose
    limit is not an integer; such an instance has 1 for
    [_longPollsRequired]. *)
Inductive Made := Instance (s : Sqs) | OddInstance (limit : JsNum).

(** The constructor as the factory calls it, on any number and any string:
    the limit is tested first, and [url.parse] may throw. *)
Definition construct (u : string) (n : JsNum) (lg : Logger) : Reason + Made :=
  if limit_throws n then inl (Error_ errMessage)
  else
    match url_parse_throws u with
    | Some r => inl r
    | None =>
      match n with
      | JInt z =>
        match new_Sqs (mkOpts u z lg) with
        | inl e => inl e
        | inr s => inr (Instance s)
        end
      | _ => inr (OddInstance n)
      end
    end.

(** [module.exports] of [index.js]; [None] is a falsy argument. *)
Definition sqsLib (opts : option RawOpts) : Reason + Made :=
  match opts with
  | None => inl (TypeError no_options)
  | Some r =>
    match raw_sqsUrl r with
    | JString u =>
      match raw_concurrentOpsLimit r with
      | JNumber n =>
        match raw_logger r with
        | Some lg =>
          if negb (has_error lg) || negb (has_warn lg) || negb (has_info lg)
          then inl (TypeError no_logger)
          else construct u n (the_logger lg)
        | None => inl (TypeError no_logger)
        end
      | _ => inl (TypeError no_limit)
      end
    | _ => inl (TypeError no_sqsUrl)
    end
  end.

(** ** [init] and [purge] *)

(** How a method that ends in a backend call starts out: it throws before
    the call, or the call is made with this queue URL. *)
Inductive Started := Threw (r : Reason) | Called (QueueUrl : option string).

(** [Sqs.prototype.init], up to the call of [getQueueAttributes]. *)
Definition init_call (w : World) : World * Started :=
  match log_call Info
          [LStr "service.sqs.connect() :: Connecting to SQS... SQS URL:";
           LOpt (url (inst w))] w with
  | None => (w, Threw null_log)
  | Some w1 => (set_inst (init (inst w1)) w1, Called (url (inst w1)))
  end.

(** What the backend answers to [getQueueAttributes]: a failure, or a
    response whose [Attributes] object is there or not, with the value of
    its [ApproximateNumberOfMessages] property. *)
Inductive AttrResult :=
| AttrFailed (r : Reason)
| AttrData (Attributes : option (option string)).

(** The [.catch] of [init]: it logs and throws the error again. *)
Definition init_catch (err : Reason) (w : World) : World * Settled :=
  match log_call Warn
          [LStr "init() :: Queue:"; LOpt (pathname (inst w));
           LStr " Init error:"; LReason err] w with
  | None => (w, Some null_log)
  | Some w1 => (w1, Some err)
  end.

(** The [getQueueAttributes] call settles: how the promise of [init]
    does. *)
Definition init_done (r : AttrResult) (w : World) : World * Settled :=
  match r with
  | AttrFailed err => init_catch err w
  | AttrData None =>
    init_catch
      (TypeError "Cannot read property 'ApproximateNumberOfMessages' of undefined")
      w
  | AttrData (Some n) =>
    match log_call Info
            [LStr "service.sqs.init() :: Connected to Queue:";
             LOpt (pathname (inst w)); LStr " Total jobs:"; LOpt n] w with
    | None => init_catch null_log w
    | Some w1 => (w1, None)
    end
  end.

(** [s] has an occurrence of [pat]: what [s.match(/pat/)] tests when [pat]
    has no special character. *)
Fixpoint includes (pat s : string) : bool :=
  String.prefix pat s ||
  match s with
  | EmptyString => false
  | String _ s' => includes pat s'
  end.

Definition will_not_purge : string :=
  String.append "SQS url does not include "
    (String.append dq (String.append "test" (String.append dq ", will not purge."))).

(** [Sqs.prototype.purge], up to the call of [purgeQueue].  The promisified
    [purgeQueue] is there once [init] has run. *)
Definition purge (w : World) : World * Started :=
  match url (inst w) with
  | None => (w, Threw (TypeError "Cannot read property 'match' of null"))
  | Some u =>
    if negb (includes "test" u) then (w, Threw (Error_ will_not_purge))
    else
      match log_call Info
              [LStr "service.sqs.purge() :: Purging queue with url:";
               LOpt (url (inst w))] w with
      | None => (w, Threw null_log)
      | Some w1 =>
        if sqs (inst w1) then (w1, Called (url (inst w1)))
        else (w1, Threw (TypeError "this.purgeQueue is not a function"))
      end
  end.

(** The [purgeQueue] call settles: the [.catch] of [purge] logs the message
    of a failure. *)
Definition purge_done (res : Settled) (w : World) : World * Settled :=
  match res with
  | None => (w, None)
  | Some err =>
    match log (inst w), err with
    | None, _ => (w, Some null_log)
    | Some _, Undefined =>
      (w, Some (TypeError "Cannot read property 'message' of undefined"))
    | Some lg, Thrown e =>
      (emit (EvLog lg Warn
               [LStr "service.sqs.purge() :: Purging queue error:";
                LStr (message e)]) w,
       None)
    end
  end.

(** ** Vocabulary of the properties *)

(** The fields of the instance that only [startFetch] and [dispose]
    assign. *)
Definition config (s : Sqs) :=
  (log s, _method s, concurrentOpsLimit s, _longPollsRequired s, url s,
   pathname s, _isDisposed s,
   (slot_startFetch s, slot_processMessages s, slot_invokeMethod s,
    slot_mainLoop s)).

(** The item an event is about. *)
Definition item_of (e : Event) : option nat :=
  match e with
  | EvItem i _ | EvInvoke i _ _ | EvHandlerSettled i _ | EvDelete i _ => Some i
  | _ => None
  end.

(** What happened to one item, in the order of the trace. *)
Inductive ItemEv :=
| Dispatched (jobItem : RawMessage)
| Invoked (h : Handler) (data : Json)
| HSettled (o : Settled)
| Deleted (p : DeleteParams).

Definition about (iid : nat) (e : Event) : option ItemEv :=
  match e with
  | EvItem i m => if decide (i = iid) then Some (Dispatched m) else None
  | EvInvoke i h d => if decide (i = iid) then Some (Invoked h d) else None
  | EvHandlerSettled i o => if decide (i = iid) then Some (HSettled o) else None
  | EvDelete i p => if decide (i = iid) then Some (Deleted p) else None
  | _ => None
  end.

Definition history (iid : nat) (tr : list Event) : list ItemEv :=
  omap (about iid) tr.

(** The arguments of the warning of [_invokeMethod]. *)
Definition parse_warning (pth : option string) (jobItem : RawMessage)
  : list LogArg :=
  [LStr "service.sqs._invokeMethod() :: Failed to JSON parse jobItem";
   LStr "for queue:"; LOpt pth; LStr "jobItem:"; LItem jobItem].

(** Events of the orchestration: they concern no item, and a receive
    request carries what the instance holds when it is issued. *)
Definition quiet (s : Sqs) (e : Event) : Prop :=
  match e with
  | EvLog _ _ _ | EvMainLoop _ => True
  | EvReceive _ p =>
    p = mkReceive (url s) (maxMessages (concurrentOpsLimit s)) 10
  | _ => False
  end.

Definition extends (Q : Event -> Prop) (w w' : World) : Prop :=
  exists evs, trace w' = trace w ++ evs /\ Forall Q evs.

(** A stretch of orchestration: the configuration, the items and the item
    counter stay, the trace grows by quiet events. *)
Definition internal (w w' : World) : Prop :=
  config (inst w') = config (inst w) /\
  items w' = items w /\
  next_item w' = next_item w /\
  extends (quiet (inst w)) w w'.

(** A stretch that concerns no item. *)
Definition silent (w w' : World) : Prop :=
  items w' = items w /\
  next_item w' = next_item w /\
  extends (fun e => item_of e = None) w w'.

(** The shapes the history of an item can have, with the entry of the
    item table that goes with each. *)
Inductive life : list ItemEv -> option Item -> Prop :=
| life_unseen : life [] None
| life_unparsed m :
    JSON_parse (Body m) = None ->
    life [Dispatched m] None
| life_running m h d wid :
    JSON_parse (Body m) = Some d ->
    life [Dispatched m; Invoked h d] (Some (mkItem wid m AwaitHandler))
| life_failed m h d r :
    JSON_parse (Body m) = Some d ->
    life [Dispatched m; Invoked h d; HSettled (Some r)] None
| life_deleting m h d u wid :
    JSON_parse (Body m) = Some d ->
    life [Dispatched m; Invoked h d; HSettled None;
          Deleted (mkDelete u (ReceiptHandle m))]
      (Some (mkItem wid m AwaitDelete))
| life_done m h d u :
    JSON_parse (Body m) = Some d ->
    life [Dispatched m; Invoked h d; HSettled None;
          Deleted (mkDelete u (ReceiptHandle m))]
      None.

(** Every entry of [_invokeMethod] on an unparseable item is followed at
    once by the warning that carries the item. *)
Fixpoint warned (tr : list Event) : Prop :=
  match tr with
  | [] => True
  | EvItem _ m :: rest =>
    match JSON_parse (Body m) with
    | Some _ => warned rest
    | None =>
      match rest with
      | EvLog _ Warn args :: _ =>
        (exists pth, args = parse_warning pth m) /\ warned rest
      | _ => False
      end
    end
  | _ :: rest => warned rest
  end.

(** Events of a stretch in which the instance is not disposed of: a
    receive request carries what the instance holds, and the handler that
    is invoked is the stored one. *)
Definition tame (s : Sqs) (e : Event) : Prop :=
  match e with
  | EvReceive _ p =>
    p = mkReceive (url s) (maxMessages (concurrentOpsLimit s)) 10
  | EvInvoke _ h _ => _method s = Some h
  | EvDisposed => False
  | _ => True
  end.

(** A stretch that leaves the configuration alone. *)
Definition kept (w w' : World) : Prop :=
  config (inst w') = config (inst w) /\ extends (tame (inst w)) w w'.

(** The invariant of the item table and the trace. *)
Definition ItemInv (w : World) : Prop :=
  (forall iid, life (history iid (trace w)) (items w !! iid)) /\
  (forall iid, (next_item w <= iid)%nat -> history iid (trace w) = []) /\
  warned (trace w).

(** Nothing is outstanding and no timer is armed. *)
Definition idle (w : World) : Prop :=
  workers w = ∅ /\ fanouts w = [] /\ passes w = ∅ /\ intervals w = ∅ /\
  items w = ∅.

(** A handler is stored before anything is launched. *)
Definition MethodInv (w : World) : Prop :=
  _isDisposed (inst w) = true \/ is_Some (_method (inst w)) \/ idle w.

(** A live instance holds its limit and queue URL; a disposed one holds
    [null] for both, and the trace records the disposal. *)
Definition Coherent (L : Z) (w : World) : Prop :=
  (_isDisposed (inst w) = false /\ concurrentOpsLimit (inst w) = Some L /\
   is_Some (url (inst w)) /\ ~ In EvDisposed (trace w)) \/
  (_isDisposed (inst w) = true /\ concurrentOpsLimit (inst w) = None /\
   url (inst w) = None /\ _method (inst w) = None /\
   slot_startFetch (inst w) = Inert /\ In EvDisposed (trace w)).

(** A receive request of the trace is one of a live instance, or was
    issued after the disposal with [null] for the queue and the count. *)
Definition receive_ok (L : Z) (before : list Event) (p : ReceiveParams)
  : Prop :=
  (~ In EvDisposed before /\ MaxNumberOfMessages p = Some (Z.min 10 L) /\
   is_Some (rp_QueueUrl p)) \/
  (In EvDisposed before /\ MaxNumberOfMessages p = None /\
   rp_QueueUrl p = None).

Definition ReceiveInv (L : Z) (w : World) : Prop :=
  forall t1 wid p t2,
    trace w = t1 ++ EvReceive wid p :: t2 -> receive_ok L t1 p.

(** No handler invocation of the trace comes after the disposal. *)
Definition InvokeInv (w : World) : Prop :=
  forall t1 iid h d t2,
    trace w = t1 ++ EvInvoke iid h d :: t2 -> ~ In EvDisposed t1.

(** What holds in every world of a run that starts from a freshly
    constructed instance with limit [L]. *)
Definition Inv (L : Z) (w : World) : Prop :=
  ItemInv w /\ MethodInv w /\ Coherent L w /\ ReceiveInv L w /\ InvokeInv w.

(** The number of workers that the waiting fan-outs will launch. *)
Definition waiting (w : World) : nat := sum_list_with fo_count (fanouts w).

(** The worker table: the counter counts its workers and worker numbers
    are fresh; while the instance is live, its slots hold the prototype's
    functions, its logger is there, and the chains of the polling workers
    were built with the prototype's functions. *)
Definition Pool (w : World) : Prop :=
  _longPollsInFlight (inst w) = Z.of_nat (size (workers w)) /\
  (forall wid, (next_worker w <= wid)%nat -> workers w !! wid = None) /\
  (_isDisposed (inst w) = false ->
   slot_processMessages (inst w) = Proto /\
   slot_invokeMethod (inst w) = Proto /\
   is_Some (log (inst w))) /\
  (_isDisposed (inst w) = false ->
   forall wid wk pm im,
     workers w !! wid = Some wk -> w_st wk = Polling pm im ->
     pm = Proto /\ im = Proto).

(** The workers in flight and those about to be launched fit the number
    required. *)
Definition Budget (w : World) : Prop :=
  _longPollsInFlight (inst w) + Z.of_nat (waiting w)
  <= _longPollsRequired (inst w).

(** What [Pool] and [Budget] read. *)
Definition pool_view (w : World) :=
  (_longPollsInFlight (inst w), _longPollsRequired (inst w), workers w,
   next_worker w, fanouts w, config (inst w)).

(** A run in which every pass is started when no fan-out of an earlier
    pass is waiting for the queue: the queue is empty when [startFetch] is
    called, when a heartbeat fires and when an operation settles, and no
    two operations settle before the queue has run.  ([ReceiveSettled],
    [HandlerSettled] and [DeleteSettled] are settlements before which the
    queue has run.) *)
Fixpoint serial (w : World) (ins : list Input) : Prop :=
  match ins with
  | [] => True
  | i :: rest =>
    match i with
    | CallStartFetch _ | TimerFired _ => fanouts w = []
    | SettledTogether ss => fanouts w = [] /\ (length ss <= 1)%nat
    | _ => True
    end /\ serial (step w i) rest
  end.

(** [w'] has an entry of the prototype's [_invokeMethod] on [m] that [w]
    has not. *)
Definition enters (m : RawMessage) (w w' : World) : Prop :=
  exists iid t1 t2, trace w' = trace w ++ t1 ++ EvItem iid m :: t2.

Definition is_log (e : Event) : Prop :=
  match e with EvLog _ _ _ => True | _ => False end.

(** A request asks for at most [b] items when the count it names, if it
    names one, is at most [b]. *)
Definition asks_at_most (p : ReceiveParams) (b : Z) : Prop :=
  forall n, MaxNumberOfMessages p = Some n -> n <= b.

(** Events of a stretch in which the configuration stays: every call
    carries what the instance holds. *)
Definition strict (s : Sqs) (e : Event) : Prop :=
  match e with
  | EvLog lg _ _ => log s = Some lg
  | EvReceive _ p =>
    p = mkReceive (url s) (maxMessages (concurrentOpsLimit s)) 10
  | EvInvoke _ h _ => _method s = Some h
  | EvDelete _ p => dp_QueueUrl p = url s
  | EvSend p =>
    sp_QueueUrl p = url s /\ DelaySeconds p = 0 /\ _isDisposed s = false
  | EvDisposed => False
  | _ => True
  end.

(** A stretch that leaves the configuration and the timers alone. *)
Definition faithful (w w' : World) : Prop :=
  config (inst w') = config (inst w) /\
  sqs (inst w') = sqs (inst w) /\
  _heartbeatInterval (inst w') = _heartbeatInterval (inst w) /\
  intervals w' = intervals w /\
  next_timer w' = next_timer w /\
  extends (strict (inst w)) w w'.

(** A live instance holds what it was constructed with; a disposed one
    has let go of it, and its entry points are inert. *)
Definition Sound (o : Opts) (w : World) : Prop :=
  (_isDisposed (inst w) = false /\
   log (inst w) = Some (logger o) /\
   url (inst w) = Some (sqsUrl o) /\
   slot_startFetch (inst w) = Proto /\
   slot_mainLoop (inst w) = Proto /\
   ~ In EvDisposed (trace w) /\
   sqs (inst w) = true) \/
  (_isDisposed (inst w) = true /\
   log (inst w) = None /\
   url (inst w) = None /\
   slot_startFetch (inst w) = Inert /\
   slot_mainLoop (inst w) = Inert /\
   _heartbeatInterval (inst w) = None /\
   In EvDisposed (trace w)).

(** What a call of the trace may carry, given what came before it. *)
Definition call_ok (o : Opts) (before : list Event) (e : Event) : Prop :=
  match e with
  | EvLog lg _ _ => lg = logger o /\ ~ In EvDisposed before
  | EvReceive _ p =>
    WaitTimeSeconds p = 10 /\
    (~ In EvDisposed before -> rp_QueueUrl p = Some (sqsUrl o))
  | EvDelete _ p => ~ In EvDisposed before -> dp_QueueUrl p = Some (sqsUrl o)
  | EvSend p =>
    ~ In EvDisposed before /\ sp_QueueUrl p = Some (sqsUrl o) /\
    DelaySeconds p = 0
  | _ => True
  end.

Definition Disciplined (o : Opts) (w : World) : Prop :=
  forall t1 e t2, trace w = t1 ++ e :: t2 -> call_ok o t1 e.

(** Every armed timer holds the prototype's [_mainLoop]. *)
Definition Timers (w : World) : Prop :=
  forall t f, intervals w !! t = Some f -> f = Proto.

(** The only armed timer is the one whose handle the instance holds. *)
Definition OneTimer (w : World) : Prop :=
  forall t, is_Some (intervals w !! t) -> _heartbeatInterval (inst w) = Some t.

(** The number of [startFetch] calls of a run. *)
Fixpoint starts (ins : list Input) : nat :=
  match ins with
  | [] => 0
  | CallStartFetch _ :: rest => S (starts rest)
  | _ :: rest => starts rest
  end.

(** The stored handler and the handlers that were invoked are among those
    given to the [startFetch] calls [ins]. *)
Definition Genuine (ins : list Input) (w : World) : Prop :=
  (forall h, _method (inst w) = Some h -> In (CallStartFetch h) ins) /\
  (forall iid h d, In (EvInvoke iid h d) (trace w) ->
                   In (CallStartFetch h) ins).

(** The events of an instance that only creates jobs. *)
Definition producing (e : Event) : Prop :=
  match e with
  | EvLog _ _ _ | EvSend _ | EvDisposed => True
  | _ => False
  end.

(** The entries of the prototype's [_invokeMethod] among some events, in
    their order: the number given to the item, and the item. *)
Definition entered (evs : list Event) : list (nat * RawMessage) :=
  omap (fun e => match e with EvItem i m => Some (i, m) | _ => None end) evs.

(** The items of a batch, numbered from [k]. *)
Fixpoint numbered (k : nat) (ms : list RawMessage)
  : list (nat * RawMessage) :=
  match ms with
  | [] => []
  | m :: ms' => (k, m) :: numbered (S k) ms'
  end.

(** The items of a batch that [.map] hands to [_invokeMethod] when the
    stored handler is [h] and the next item gets the number [k]: the items
    in order, up to and including the first one whose body parses and on
    whose payload the handler throws. *)
Fixpoint reached (h : Handler) (k : nat) (ms : list RawMessage)
  : list RawMessage :=
  match ms with
  | [] => []
  | m :: ms' =>
    match JSON_parse (Body m) with
    | Some d =>
      match handler_throws k h d with
      | Some _ => [m]
      | None => m :: reached h (S k) ms'
      end
    | None => m :: reached h (S k) ms'
    end
  end.

(** The events of the orchestration that are not logger calls. *)
Definition relaunch (e : Event) : Prop :=
  match e with
  | EvMainLoop _ | EvReceive _ _ => True
  | _ => False
  end.

(** The number of items that a worker is waiting for. *)
Definition pending (wk : Worker) : nat :=
  match w_st wk with
  | Mapping n => n
  | Polling _ _ => 0%nat
  end.

(** The number of items that the workers of a table are waiting for. *)
Definition booked (m : gmap nat Worker) : nat :=
  sum_list_with (fun p => pending p.2) (map_to_list m).

(** The jobs in progress are accounted for by the workers, and no worker
    waits for more than [B] items. *)
Definition Booked (B : nat) (w : World) : Prop :=
  (size (items w) <= booked (workers w))%nat /\
  forall wid wk, workers w !! wid = Some wk -> (pending wk <= B)%nat.

(** Item numbers from the counter on are not in use. *)
Definition Fresh (w : World) : Prop :=
  forall iid, (next_item w <= iid)%nat -> items w !! iid = None.

(** A settlement that is not the failure of a handler or of a delete call,
    and not an answer to a receive request with more than [B] messages. *)
Definition calm_settlement (B : nat) (s : Settlement) : Prop :=
  match s with
  | SHandler _ (Some _) | SDelete _ (Some _) => False
  | SReceive _ (RecvData (Some ms)) => (length ms <= B)%nat
  | _ => True
  end.

(** An input of a run on which no handler and no delete call fails, and
    the backend answers a receive request with at most [B] messages. *)
Definition calm (B : nat) (i : Input) : Prop :=
  match i with
  | HandlerSettled _ (Some _) | DeleteSettled _ (Some _) => False
  | ReceiveSettled _ (RecvData (Some ms)) => (length ms <= B)%nat
  | SettledTogether ss => Forall (calm_settlement B) ss
  | _ => True
  end.

(** What the [.catch] of [_receiveMessages] logs for an error object that
    is not one of its own. *)
Definition receive_error_lines (lg : Logger) (pth : option string) (e : Err)
  : list Event :=
  EvLog lg Error
    [LStr "service.sqs._receiveMessages() :: Error on receiveMessage";
     LStr "for queue:"; LOpt pth; LStr "Error:"; LStr (message e)]
  :: (if noStack e then []
      else [EvLog lg Info
              [LStr "service.sqs._receiveMessages() :: Error stack:";
               LStr (stack e)]]).

(** ** Construction *)

Lemma new_Sqs_small (o : Opts) :
  opt_concurrentOpsLimit o <= 10 ->
  exists s, new_Sqs o = inr s /\ _longPollsRequired s = 1
            /\ concurrentOpsLimit s = Some (opt_concurrentOpsLimit o).
Proof.
  intros H. unfold new_Sqs.
  destruct (Z.ltb_spec 10 (opt_concurrentOpsLimit o)); [lia|].
  eexists; split; [reflexivity|]. split; reflexivity.
Qed.

Lemma new_Sqs_tens (o : Opts) :
  10 < opt_concurrentOpsLimit o ->
  Z.rem (opt_concurrentOpsLimit o) 10 = 0 ->
  exists s, new_Sqs o = inr s
            /\ _longPollsRequired s = Z.quot (opt_concurrentOpsLimit o) 10
            /\ concurrentOpsLimit s = Some (opt_concurrentOpsLimit o).
Proof.
  intros H1 H2. unfold new_Sqs.
  destruct (Z.ltb_spec 10 (opt_concurrentOpsLimit o)); [|lia].
  rewrite H2. simpl.
  eexists; split; [reflexivity|]. split; reflexivity.
Qed.

Lemma new_Sqs_throws (o : Opts) :
  10 < opt_concurrentOpsLimit o ->
  Z.rem (opt_concurrentOpsLimit o) 10 <> 0 ->
  new_Sqs o = inl (Error_ errMessage).
Proof.
  intros H1 H2. unfold new_Sqs.
  destruct (Z.ltb_spec 10 (opt_concurrentOpsLimit o)); [|lia].
  destruct (Z.eqb_spec (Z.rem (opt_concurrentOpsLimit o) 10) 0); [contradiction|].
  reflexivity.
Qed.

(** ** Stretches of the trace *)

Lemma quiet_config (s s' : Sqs) (e : Event) :
  config s' = config s -> quiet s e -> quiet s' e.
Proof.
  unfold config. intros H. destruct e; simpl; auto.
  injection H as _ _ Hl _ Hu _ _ _ _ _ _. now rewrite Hl, Hu.
Qed.

Lemma quiet_no_item (s : Sqs) (e : Event) : quiet s e -> item_of e = None.
Proof. destruct e; simpl; intros H; auto; contradiction. Qed.

Lemma extends_refl (Q : Event -> Prop) (w : World) : extends Q w w.
Proof. exists []. split; [symmetry; apply app_nil_r | constructor]. Qed.

Lemma extends_trans (Q : Event -> Prop) (w1 w2 w3 : World) :
  extends Q w1 w2 -> extends Q w2 w3 -> extends Q w1 w3.
Proof.
  intros (e1 & H1 & F1) (e2 & H2 & F2). exists (e1 ++ e2). split.
  - rewrite H2, H1. symmetry. apply app_assoc.
  - apply Forall_app. now split.
Qed.

Lemma extends_weaken (Q Q' : Event -> Prop) (w w' : World) :
  (forall e, Q e -> Q' e) -> extends Q w w' -> extends Q' w w'.
Proof.
  intros HQ (evs & H & F). exists evs. split; [exact H|].
  eapply Forall_impl; eauto.
Qed.

Lemma internal_refl (w : World) : internal w w.
Proof. unfold internal. split_and!; auto using extends_refl. Qed.

Lemma internal_trans (w1 w2 w3 : World) :
  internal w1 w2 -> internal w2 w3 -> internal w1 w3.
Proof.
  intros (C1 & I1 & N1 & E1) (C2 & I2 & N2 & E2). unfold internal.
  split_and!; try congruence.
  eapply extends_trans; [exact E1|].
  eapply extends_weaken; [|exact E2].
  intros e. apply quiet_config. now symmetry.
Qed.

Lemma internal_silent (w w' : World) : internal w w' -> silent w w'.
Proof.
  intros (_ & I & N & E). unfold silent. split_and!; auto.
  eapply extends_weaken; [|exact E]. apply quiet_no_item.
Qed.

Lemma silent_refl (w : World) : silent w w.
Proof. unfold silent. split_and!; auto using extends_refl. Qed.

Lemma silent_trans (w1 w2 w3 : World) :
  silent w1 w2 -> silent w2 w3 -> silent w1 w3.
Proof.
  intros (I1 & N1 & E1) (I2 & N2 & E2). unfold silent.
  split_and!; try congruence. eapply extends_trans; eauto.
Qed.

Ltac int_leaf :=
  unfold internal, extends; simpl; split_and!; try reflexivity;
  first
    [ exists []; split; [symmetry; apply app_nil_r | constructor]
    | eexists [_]; split; [reflexivity | repeat constructor; simpl; auto] ].

Lemma internal_emit (e : Event) (w : World) :
  quiet (inst w) e -> internal w (emit e w).
Proof. intros H. int_leaf. Qed.

Lemma internal_inFlight (n : Z) (w : World) :
  internal w (set_inst (with_inFlight n (inst w)) w).
Proof. int_leaf. Qed.

Lemma internal_workers (k : gmap nat Worker) (w : World) :
  internal w (set_workers k w).
Proof. int_leaf. Qed.

Lemma internal_passes (k : gmap nat Pass) (w : World) :
  internal w (set_passes k w).
Proof. int_leaf. Qed.

Lemma internal_fanouts (k : list Fanout) (w : World) :
  internal w (set_fanouts k w).
Proof. int_leaf. Qed.

Lemma log_call_Some (lvl : Level) (args : list LogArg) (w w' : World) :
  log_call lvl args w = Some w' ->
  exists lg, log (inst w) = Some lg /\ w' = emit (EvLog lg lvl args) w.
Proof.
  unfold log_call. destruct (log (inst w)) as [lg|]; [|discriminate].
  intros [= <-]. eauto.
Qed.

Lemma internal_log (lvl : Level) (args : list LogArg) (w w' : World) :
  log_call lvl args w = Some w' -> internal w w'.
Proof.
  intros H. apply log_call_Some in H as (lg & _ & ->).
  now apply internal_emit.
Qed.

Lemma internal_mainLoop (w : World) : internal w (_mainLoop w).
Proof.
  unfold _mainLoop.
  destruct (_ <=? 0).
  - apply internal_emit. exact I.
  - eapply internal_trans; [|apply internal_fanouts].
    apply internal_emit. exact I.
Qed.

Lemma internal_call_mainLoop (f : Impl) (w : World) :
  internal w (call_mainLoop f w).
Proof. destruct f; simpl; auto using internal_mainLoop, internal_refl. Qed.

Lemma internal_receiveMessages (pid : nat) (w : World) :
  internal w (_receiveMessages pid w).
Proof. unfold _receiveMessages. int_leaf. Qed.

Lemma internal_iter (pid : nat) (n : nat) (w : World) :
  internal w (Nat.iter n (_receiveMessages pid) w).
Proof.
  induction n as [|n IH]; simpl; [apply internal_refl|].
  eapply internal_trans; [exact IH|apply internal_receiveMessages].
Qed.

Lemma internal_run_fanout (fo : Fanout) (w : World) :
  internal w (run_fanout fo w).
Proof.
  unfold run_fanout.
  eapply internal_trans; [|apply internal_iter]. int_leaf.
Qed.

Lemma internal_fold_fanouts (fos : list Fanout) (w : World) :
  internal w (fold_left (fun acc fo => run_fanout fo acc) fos w).
Proof.
  revert w. induction fos as [|fo fos IH]; intros w; simpl.
  - apply internal_refl.
  - eapply internal_trans; [apply internal_run_fanout|apply IH].
Qed.

Lemma internal_drain (w : World) : internal w (drain w).
Proof.
  unfold drain.
  eapply internal_trans; [apply internal_fanouts|apply internal_fold_fanouts].
Qed.

Lemma internal_mainLoop_catch (err : Reason) (w : World) :
  internal w (mainLoop_catch err w).
Proof.
  unfold mainLoop_catch.
  destruct (_isDisposed (inst w)); [apply internal_refl|].
  destruct err as [|e]; [apply internal_refl|].
  destruct (log_call _ _ w) eqn:E; [|apply internal_refl].
  eapply internal_log; eauto.
Qed.

Lemma internal_pass_settled (pid : nat) (res : Settled) (w : World) :
  internal w (pass_settled pid res w).
Proof.
  unfold pass_settled.
  destruct (passes w !! pid) as [p|]; [|apply internal_refl].
  destruct res as [err|].
  - eapply internal_trans; [apply internal_passes|].
    eapply internal_trans; [apply internal_mainLoop_catch|].
    apply internal_call_mainLoop.
  - destruct (p_remaining p) as [|[|n]];
      try (eapply internal_trans;
           [apply internal_passes|apply internal_call_mainLoop]).
    apply internal_passes.
Qed.

Lemma internal_worker_finally (wid : nat) (wk : Worker) (res : Settled)
  (w : World) : internal w (worker_finally wid wk res w).
Proof.
  unfold worker_finally.
  eapply internal_trans; [|apply internal_pass_settled].
  eapply internal_trans; [apply internal_workers|].
  apply (internal_inFlight _ (set_workers _ w)).
Qed.

Lemma internal_receive_catch (err : Reason) (w : World) :
  internal w (fst (receive_catch err w)).
Proof.
  unfold receive_catch.
  destruct (_isDisposed (inst w)); [apply internal_refl|].
  destruct err as [|e]; [apply internal_refl|].
  destruct (ownError e); [apply internal_refl|].
  destruct (log_call Error _ w) as [w1|] eqn:E1; [|apply internal_refl].
  destruct (noStack e); [eapply internal_log; eauto|].
  destruct (log_call Info _ w1) as [w2|] eqn:E2; simpl.
  - eapply internal_trans; eapply internal_log; eauto.
  - eapply internal_log; eauto.
Qed.

Lemma internal_worker_fail (wid : nat) (wk : Worker) (err : Reason)
  (w : World) : internal w (worker_fail wid wk err w).
Proof.
  unfold worker_fail.
  pose proof (internal_receive_catch err w) as H.
  destruct (receive_catch err w) as [w1 res]. simpl in H.
  eapply internal_trans; [exact H|apply internal_worker_finally].
Qed.

Lemma internal_processMessages (raw : option (list RawMessage)) (w : World) :
  internal w (fst (_processMessages raw w)).
Proof.
  unfold _processMessages.
  destruct (_isDisposed (inst w)); [apply internal_refl|].
  destruct raw as [ms|]; [|apply internal_refl].
  destruct (log_call Info _ w) eqn:E; [|apply internal_refl].
  eapply internal_log; eauto.
Qed.

Lemma internal_call_processMessages (f : Impl)
  (raw : option (list RawMessage)) (w : World) :
  internal w (fst (call_processMessages f raw w)).
Proof.
  destruct f; simpl; auto using internal_processMessages, internal_refl.
Qed.

Lemma internal_item_settled (wid : nat) (res : Settled) (w : World) :
  internal w (item_settled wid res w).
Proof.
  unfold item_settled.
  destruct (workers w !! wid) as [wk|]; [|apply internal_refl].
  destruct (w_st wk) as [pm im|n]; [apply internal_refl|].
  destruct res as [err|]; [apply internal_worker_fail|].
  destruct n as [|[|k]];
    auto using internal_worker_finally, internal_workers.
Qed.

(** ** The item table and the trace *)

Lemma history_app (iid : nat) (a b : list Event) :
  history iid (a ++ b) = history iid a ++ history iid b.
Proof. apply omap_app. Qed.

Lemma about_no_item (iid : nat) (e : Event) :
  item_of e = None -> about iid e = None.
Proof. destruct e; simpl; intros H; auto; discriminate. Qed.

Lemma history_no_item (iid : nat) (evs : list Event) :
  Forall (fun e => item_of e = None) evs -> history iid evs = [].
Proof.
  induction 1 as [|e evs He _ IH]; [reflexivity|].
  unfold history in *. simpl. now rewrite (about_no_item _ _ He).
Qed.

Lemma about_other (iid j : nat) (e : Event) :
  item_of e = Some j -> j <> iid -> about iid e = None.
Proof.
  destruct e; simpl; intros [= ->] Hne; destruct (decide _); congruence.
Qed.

Lemma warned_app (a b : list Event) :
  warned a -> warned b -> warned (a ++ b).
Proof.
  induction a as [|e a IH]; intros Ha Hb; [exact Hb|].
  destruct e; simpl in *; auto.
  destruct (JSON_parse (Body jobItem)); auto.
  destruct a as [|[lg [] args| | | | | | | |] a']; simpl in *; try contradiction.
  destruct Ha as [Hp Ha]. split; [exact Hp|]. now apply IH.
Qed.

Lemma warned_no_item (evs : list Event) :
  Forall (fun e => item_of e = None) evs -> warned evs.
Proof.
  induction 1 as [|e evs He _ IH]; [exact I|].
  destruct e; simpl in *; auto; discriminate.
Qed.

Lemma ItemInv_silent (w w' : World) :
  silent w w' -> ItemInv w -> ItemInv w'.
Proof.
  intros (HI & HN & evs & HT & HF) (L & F & W). unfold ItemInv.
  rewrite HT, HI, HN. split_and!.
  - intros iid. rewrite history_app, (history_no_item _ _ HF), app_nil_r.
    apply L.
  - intros iid Hle.
    rewrite history_app, (history_no_item _ _ HF), app_nil_r. now apply F.
  - apply warned_app; [exact W|]. now apply warned_no_item.
Qed.

Lemma ItemInv_internal (w w' : World) :
  internal w w' -> ItemInv w -> ItemInv w'.
Proof. intros H. apply ItemInv_silent. now apply internal_silent. Qed.

Lemma ItemInv_fresh (w : World) :
  ItemInv w ->
  history (next_item w) (trace w) = [] /\ items w !! next_item w = None.
Proof.
  intros (L & F & _). assert (H := F (next_item w) (Nat.le_refl _)).
  split; [exact H|]. specialize (L (next_item w)). rewrite H in L.
  now inversion L.
Qed.

(** What one call of the prototype's [_invokeMethod] leaves behind. *)
Lemma invokeMethod_effect (wid : nat) (m : RawMessage) (w : World) :
  let iid := next_item w in
  let w' := fst (_invokeMethod wid m w) in
  config (inst w') = config (inst w) /\
  workers w' = workers w /\
  next_item w' = S iid /\
  ((exists d h,
      JSON_parse (Body m) = Some d /\ _method (inst w) = Some h /\
      handler_throws iid h d = None /\
      trace w' = trace w ++ [EvItem iid m; EvInvoke iid h d] /\
      items w' = <[iid := mkItem wid m AwaitHandler]> (items w) /\
      snd (_invokeMethod wid m w) = MPending) \/
   (exists d h r,
      JSON_parse (Body m) = Some d /\ _method (inst w) = Some h /\
      handler_throws iid h d = Some r /\
      trace w' =
        trace w ++ [EvItem iid m; EvInvoke iid h d;
                    EvHandlerSettled iid (Some r)] /\
      items w' = items w /\
      snd (_invokeMethod wid m w) = MSettled (Some r)) \/
   (exists lg,
      JSON_parse (Body m) = None /\ log (inst w) = Some lg /\
      trace w' =
        trace w ++ [EvItem iid m;
                    EvLog lg Warn (parse_warning (pathname (inst w)) m)] /\
      items w' = items w /\
      snd (_invokeMethod wid m w) = MSettled None) \/
   ((JSON_parse (Body m) = None -> log (inst w) = None) /\
    (is_Some (JSON_parse (Body m)) -> _method (inst w) = None) /\
    trace w' = trace w ++ [EvItem iid m] /\
    items w' = items w /\
    exists e, snd (_invokeMethod wid m w) = MSettled (Some e))).
Proof.
  unfold _invokeMethod, log_call. simpl.
  destruct (JSON_parse (Body m)) as [d|] eqn:P; simpl.
  - destruct (_method (inst w)) as [h|] eqn:M; simpl.
    + destruct (handler_throws (next_item w) h d) as [r|] eqn:T; simpl.
      * split_and!; auto. right. left. exists d, h, r. split_and!; auto.
        now rewrite <- !app_assoc.
      * split_and!; auto. left. exists d, h. split_and!; auto.
        now rewrite <- app_assoc.
    + split_and!; auto. do 3 right. split_and!; eauto. discriminate.
  - destruct (log (inst w)) as [lg|] eqn:Lg; simpl.
    + split_and!; auto. right. right. left. exists lg. split_and!; auto.
      now rewrite <- app_assoc.
    + split_and!; auto. do 3 right. split_and!; eauto.
      intros [? ?]. discriminate.
Qed.

Lemma ItemInv_invokeMethod (wid : nat) (m : RawMessage) (w : World) :
  ItemInv w -> is_Some (log (inst w)) -> is_Some (_method (inst w)) ->
  ItemInv (fst (_invokeMethod wid m w)).
Proof.
  intros HI [lg Hlg] [h Hh].
  destruct (ItemInv_fresh w HI) as [Hfresh Hnone].
  destruct HI as (L & F & W).
  destruct (invokeMethod_effect wid m w) as (_ & _ & HN & Hcase).
  set (iid := next_item w) in *.
  set (w' := fst (_invokeMethod wid m w)) in *.
  unfold ItemInv. rewrite HN.
  destruct Hcase as [(d & h' & P & M & _ & HT & HIt & _)
                    |[(d & h' & r & P & M & _ & HT & HIt & _)
                    |[(lg' & P & Lg & HT & HIt & _)
                    |(P1 & P2 & _)]]].
  - rewrite HT, HIt. split_and!.
    + intros j. rewrite history_app. simpl.
      destruct (decide (iid = j)) as [<-|Hne].
      * rewrite Hfresh, lookup_insert_eq. simpl. now apply life_running.
      * rewrite lookup_insert_ne by exact Hne. simpl.
        rewrite app_nil_r. apply L.
    + intros j Hle. rewrite history_app. simpl.
      destruct (decide (iid = j)) as [<-|Hne]; [lia|].
      simpl. rewrite app_nil_r. apply F. unfold iid in *. lia.
    + apply warned_app; [exact W|]. simpl. now rewrite P.
  - rewrite HT, HIt. split_and!.
    + intros j. rewrite history_app. simpl.
      destruct (decide (iid = j)) as [<-|Hne].
      * rewrite Hfresh, Hnone. simpl. now apply life_failed.
      * simpl. rewrite app_nil_r. apply L.
    + intros j Hle. rewrite history_app. simpl.
      destruct (decide (iid = j)) as [<-|Hne]; [lia|].
      simpl. rewrite app_nil_r. apply F. unfold iid in *. lia.
    + apply warned_app; [exact W|]. simpl. now rewrite P.
  - rewrite HT, HIt. split_and!.
    + intros j. rewrite history_app. simpl.
      destruct (decide (iid = j)) as [<-|Hne].
      * rewrite Hfresh, Hnone. simpl. now apply life_unparsed.
      * simpl. rewrite app_nil_r. apply L.
    + intros j Hle. rewrite history_app. simpl.
      destruct (decide (iid = j)) as [<-|Hne]; [lia|].
      simpl. rewrite app_nil_r. apply F. unfold iid in *. lia.
    + apply warned_app; [exact W|]. simpl. rewrite P. split; eauto.
  - exfalso. destruct (JSON_parse (Body m)) as [d|].
    + rewrite P2 in Hh by eauto. discriminate.
    + rewrite P1 in Hlg by reflexivity. discriminate.
Qed.

Lemma tame_config (s s' : Sqs) (e : Event) :
  config s' = config s -> tame s e -> tame s' e.
Proof.
  unfold config. intros H. injection H as _ Hm Hl _ Hu _ _ _ _ _ _.
  destruct e; simpl; auto.
  - now rewrite Hl, Hu.
  - now rewrite Hm.
Qed.

Lemma quiet_tame (s : Sqs) (e : Event) : quiet s e -> tame s e.
Proof. destruct e; simpl; auto; contradiction. Qed.

Lemma kept_refl (w : World) : kept w w.
Proof. split; auto using extends_refl. Qed.

Lemma kept_trans (w1 w2 w3 : World) : kept w1 w2 -> kept w2 w3 -> kept w1 w3.
Proof.
  intros (C1 & E1) (C2 & E2). split; [congruence|].
  eapply extends_trans; [exact E1|].
  eapply extends_weaken; [|exact E2].
  intros e. apply tame_config. now symmetry.
Qed.

Lemma internal_kept (w w' : World) : internal w w' -> kept w w'.
Proof.
  intros (C & _ & _ & E). split; [exact C|].
  eapply extends_weaken; [|exact E]. apply quiet_tame.
Qed.

Lemma kept_invokeMethod (wid : nat) (m : RawMessage) (w : World) :
  kept w (fst (_invokeMethod wid m w)).
Proof.
  destruct (invokeMethod_effect wid m w) as (C & _ & _ & Hcase).
  split; [exact C|].
  destruct Hcase as [(d & h & _ & Hm & _ & HT & _)
                    |[(d & h & r & _ & Hm & _ & HT & _)
                    |[(lg & _ & _ & HT & _)|(_ & _ & HT & _)]]];
    eexists; (split; [exact HT|]); repeat constructor; exact Hm.
Qed.

(** The world after [.map]: the one after the call of the mapper on the
    first item, when that call returned a rejected promise, and otherwise
    the one after [.map] over the rest. *)
Lemma map_items_step (wid : nat) (m : RawMessage) (ms : list RawMessage)
  (w : World) :
  let w1 := fst (_invokeMethod wid m w) in
  fst (fst (map_items Proto wid (m :: ms) w)) =
  match snd (_invokeMethod wid m w) with
  | MSettled (Some _) => w1
  | _ => fst (fst (map_items Proto wid ms w1))
  end.
Proof.
  simpl. destruct (_invokeMethod wid m w) as [w1 r]. simpl.
  destruct r as [[e|]|]; try reflexivity.
  now destruct (map_items Proto wid ms w1) as [[w2 n] rej].
Qed.

Lemma map_items_Inert (wid : nat) (ms : list RawMessage) (w : World) :
  map_items Inert wid ms w = (w, 0%nat, None).
Proof.
  induction ms as [|m ms IH]; [reflexivity|]. simpl. now rewrite IH.
Qed.

(** What every call of the mapper preserves, [.map] preserves. *)
Lemma map_items_inv (P : World -> Prop) (f : Impl) (wid : nat) :
  (forall m w, P w -> P (fst (_invokeMethod wid m w))) ->
  forall ms w, P w -> P (fst (fst (map_items f wid ms w))).
Proof.
  intros HP ms w.
  destruct f; [|now rewrite map_items_Inert].
  revert w. induction ms as [|m ms IH]; intros w Hw; [exact Hw|].
  rewrite map_items_step.
  destruct (snd (_invokeMethod wid m w)) as [[e|]|]; auto.
Qed.

Lemma map_items_kept (f : Impl) (wid : nat) (ms : list RawMessage)
  (w : World) :
  let w' := fst (fst (map_items f wid ms w)) in
  kept w w' /\ workers w' = workers w.
Proof.
  apply (map_items_inv (fun w' => kept w w' /\ workers w' = workers w)).
  - intros m v [K W].
    destruct (invokeMethod_effect wid m v) as (_ & W1 & _).
    split; [|congruence].
    eapply kept_trans; [exact K|apply kept_invokeMethod].
  - auto using kept_refl.
Qed.

Lemma map_items_ItemInv (f : Impl) (wid : nat) (ms : list RawMessage)
  (w : World) :
  ItemInv w -> is_Some (log (inst w)) -> is_Some (_method (inst w)) ->
  ItemInv (fst (fst (map_items f wid ms w))).
Proof.
  intros HI Hl Hm.
  apply (map_items_inv
           (fun v => ItemInv v /\ is_Some (log (inst v)) /\
                     is_Some (_method (inst v))) f wid); [|auto].
  intros m v (HI' & Hl' & Hm').
  destruct (invokeMethod_effect wid m v) as (C & _).
  unfold config in C. injection C as C1 C2 _.
  split_and!.
  - now apply ItemInv_invokeMethod.
  - now rewrite C1.
  - now rewrite C2.
Qed.

Lemma warned_no_entry (evs : list Event) :
  Forall (fun e => forall i m, e <> EvItem i m) evs -> warned evs.
Proof.
  induction 1 as [|e evs He _ IH]; [exact I|].
  destruct e; simpl; auto. now destruct (He iid jobItem).
Qed.

(** The invariant survives a change that concerns one item. *)
Lemma ItemInv_update (iid : nat) (evs : list Event) (w w' : World) :
  ItemInv w ->
  trace w' = trace w ++ evs ->
  next_item w' = next_item w ->
  (forall j, j <> iid -> items w' !! j = items w !! j) ->
  Forall (fun e => item_of e = Some iid /\ forall i m, e <> EvItem i m) evs ->
  history iid (trace w) <> [] ->
  life (history iid (trace w) ++ history iid evs) (items w' !! iid) ->
  ItemInv w'.
Proof.
  intros (L & F & W) HT HN HI HF Hne HL. unfold ItemInv.
  rewrite HT, HN.
  assert (Hother : forall j, j <> iid -> history j evs = []).
  { intros j Hj. clear -HF Hj. induction HF as [|e evs [He _] _ IH];
      [reflexivity|].
    unfold history in *. simpl.
    rewrite (about_other j iid e He) by congruence. exact IH. }
  split_and!.
  - intros j. rewrite history_app. destruct (decide (j = iid)) as [->|Hj].
    + exact HL.
    + rewrite (Hother j Hj), app_nil_r, (HI j Hj). apply L.
  - intros j Hle. rewrite history_app. destruct (decide (j = iid)) as [->|Hj].
    + destruct Hne. now apply F.
    + rewrite (Hother j Hj), app_nil_r. now apply F.
  - apply warned_app; [exact W|]. apply warned_no_entry.
    eapply Forall_impl; [exact HF|]. intros e [_ He]. exact He.
Qed.

Lemma life_await_handler (hist : list ItemEv) (it : Item) :
  life hist (Some it) -> i_st it = AwaitHandler ->
  exists h d,
    JSON_parse (Body (i_msg it)) = Some d /\
    hist = [Dispatched (i_msg it); Invoked h d].
Proof.
  intros H Hs. inversion H; subst; simpl in *; try discriminate. eauto.
Qed.

Lemma life_await_delete (hist : list ItemEv) (it : Item) :
  life hist (Some it) -> i_st it = AwaitDelete ->
  exists h d u,
    JSON_parse (Body (i_msg it)) = Some d /\
    hist = [Dispatched (i_msg it); Invoked h d; HSettled None;
            Deleted (mkDelete u (ReceiptHandle (i_msg it)))].
Proof.
  intros H Hs. inversion H; subst; simpl in *; try discriminate. eauto.
Qed.

Lemma ItemInv_handler_done (iid : nat) (res : Settled) (w : World) :
  ItemInv w -> ItemInv (handler_done iid res w).
Proof.
  intros HI. unfold handler_done.
  destruct (items w !! iid) as [it|] eqn:E; [|exact HI].
  destruct (i_st it) eqn:St; [|exact HI].
  pose proof HI as (L & _ & _). specialize (L iid). rewrite E in L.
  destruct (life_await_handler _ _ L St) as (h & d & P & Hh).
  destruct res as [err|].
  - eapply ItemInv_internal; [apply internal_item_settled|].
    eapply (ItemInv_update iid [EvHandlerSettled iid (Some err)] w);
      [exact HI| | | | | |].
    + reflexivity.
    + reflexivity.
    + intros j Hj. simpl. now rewrite lookup_delete_ne.
    + repeat constructor. discriminate.
    + rewrite Hh. discriminate.
    + simpl. rewrite lookup_delete_eq, Hh. simpl.
      destruct (decide (iid = iid)); [|congruence]. simpl.
      now apply life_failed.
  - eapply (ItemInv_update iid
              [EvHandlerSettled iid None;
               EvDelete iid (mkDelete (url (inst w))
                               (ReceiptHandle (i_msg it)))] w);
      [exact HI| | | | | |].
    + simpl. now rewrite <- app_assoc.
    + reflexivity.
    + intros j Hj. simpl. now rewrite lookup_insert_ne.
    + repeat constructor; discriminate.
    + rewrite Hh. discriminate.
    + simpl. rewrite lookup_insert_eq, Hh. simpl.
      destruct (decide (iid = iid)); [|congruence]. simpl.
      now apply life_deleting.
Qed.

Lemma ItemInv_delete_done (iid : nat) (res : Settled) (w : World) :
  ItemInv w -> ItemInv (delete_done iid res w).
Proof.
  intros HI. unfold delete_done.
  destruct (items w !! iid) as [it|] eqn:E; [|exact HI].
  destruct (i_st it) eqn:St; [exact HI|].
  pose proof HI as (L & _ & _). specialize (L iid). rewrite E in L.
  destruct (life_await_delete _ _ L St) as (h & d & u & P & Hh).
  assert (H1 : ItemInv (set_items (delete iid (items w)) w)).
  { eapply (ItemInv_update iid [] w); [exact HI| | | | | |].
    + simpl. now rewrite app_nil_r.
    + reflexivity.
    + intros j Hj. simpl. now rewrite lookup_delete_ne.
    + constructor.
    + rewrite Hh. discriminate.
    + simpl. rewrite lookup_delete_eq, Hh. simpl. now apply life_done. }
  destruct res as [err|].
  - destruct (log_call Error _ _) as [w2|] eqn:El.
    + eapply ItemInv_internal; [apply internal_item_settled|].
      eapply ItemInv_internal; [eapply internal_log; exact El|exact H1].
    + eapply ItemInv_internal; [apply internal_item_settled|exact H1].
  - eapply ItemInv_internal; [apply internal_item_settled|exact H1].
Qed.

Lemma kept_emit (e : Event) (w : World) : tame (inst w) e -> kept w (emit e w).
Proof.
  intros H. split; [reflexivity|]. exists [e]. split; [reflexivity|].
  now constructor.
Qed.

Lemma kept_items (k : gmap nat Item) (w : World) : kept w (set_items k w).
Proof. split; [reflexivity|]. apply (extends_refl _ w). Qed.

Lemma kept_handler_done (iid : nat) (res : Settled) (w : World) :
  kept w (handler_done iid res w).
Proof.
  unfold handler_done.
  destruct (items w !! iid) as [it|]; [|apply kept_refl].
  destruct (i_st it); [|apply kept_refl].
  destruct res as [err|].
  - eapply kept_trans;
      [apply (kept_emit (EvHandlerSettled iid (Some err))); exact I|].
    eapply kept_trans; [apply kept_items|].
    apply internal_kept, internal_item_settled.
  - eapply kept_trans;
      [apply (kept_emit (EvHandlerSettled iid None)); exact I|].
    eapply kept_trans; [|apply kept_items].
    apply kept_emit. exact I.
Qed.

Lemma kept_delete_done (iid : nat) (res : Settled) (w : World) :
  kept w (delete_done iid res w).
Proof.
  unfold delete_done.
  destruct (items w !! iid) as [it|]; [|apply kept_refl].
  destruct (i_st it); [apply kept_refl|].
  eapply kept_trans; [apply kept_items|].
  destruct res as [err|].
  - destruct (log_call Error _ _) as [w2|] eqn:El.
    + eapply kept_trans; [eapply internal_kept, internal_log; exact El|].
      apply internal_kept, internal_item_settled.
    + apply internal_kept, internal_item_settled.
  - apply internal_kept, internal_item_settled.
Qed.

Lemma processMessages_inr (pm : Impl) (raw : option (list RawMessage))
  (w w1 : World) (ms : list RawMessage) :
  call_processMessages pm raw w = (w1, inr ms) ->
  pm = Proto /\ raw = Some ms /\ _isDisposed (inst w) = false /\
  is_Some (log (inst w)).
Proof.
  destruct pm; simpl; [|discriminate]. unfold _processMessages.
  destruct (_isDisposed (inst w)); [discriminate|].
  destruct raw as [ms'|]; [|discriminate].
  destruct (log_call Info _ w) as [w'|] eqn:E; [|discriminate].
  intros [= <- <-]. apply log_call_Some in E as (lg & Hl & _).
  split_and!; eauto.
Qed.

Lemma kept_receive_done (wid : nat) (r : ReceiveResult) (w : World) :
  kept w (receive_done wid r w).
Proof.
  unfold receive_done.
  destruct (workers w !! wid) as [wk|]; [|apply kept_refl].
  destruct (w_st wk) as [pm im|n]; [|apply kept_refl].
  destruct r as [err|raw]; [apply internal_kept, internal_worker_fail|].
  pose proof (internal_call_processMessages pm raw w) as H1.
  destruct (call_processMessages pm raw w) as [w1 [err|ms]]; simpl in H1.
  - apply internal_kept.
    eapply internal_trans; [exact H1|apply internal_worker_fail].
  - eapply kept_trans; [apply internal_kept; exact H1|].
    destruct (map_items_kept im wid ms w1) as [H2 _].
    destruct (map_items im wid ms w1) as [[w2 pending] rej]. simpl in H2.
    eapply kept_trans; [exact H2|]. apply internal_kept.
    destruct rej as [err|]; [apply internal_worker_fail|].
    destruct pending; auto using internal_worker_finally, internal_workers.
Qed.

Lemma config_log (s s' : Sqs) : config s' = config s -> log s' = log s.
Proof. unfold config. now intros [= ? _]. Qed.

Lemma config_method (s s' : Sqs) :
  config s' = config s -> _method s' = _method s.
Proof. unfold config. now intros [= _ ? _]. Qed.

Lemma config_limit (s s' : Sqs) :
  config s' = config s -> concurrentOpsLimit s' = concurrentOpsLimit s.
Proof. unfold config. now intros [= _ _ ? _]. Qed.

Lemma config_url (s s' : Sqs) : config s' = config s -> url s' = url s.
Proof. unfold config. now intros [= _ _ _ _ ? _]. Qed.

Lemma config_disposed (s s' : Sqs) :
  config s' = config s -> _isDisposed s' = _isDisposed s.
Proof. unfold config. now intros [= _ _ _ _ _ _ ? _]. Qed.

Lemma ItemInv_receive_done (wid : nat) (r : ReceiveResult) (w : World) :
  ItemInv w -> MethodInv w -> ItemInv (receive_done wid r w).
Proof.
  intros HI HM. unfold receive_done.
  destruct (workers w !! wid) as [wk|] eqn:Ew; [|exact HI].
  destruct (w_st wk) as [pm im|n]; [|exact HI].
  destruct r as [err|raw].
  { eapply ItemInv_internal; [apply internal_worker_fail|exact HI]. }
  pose proof (internal_call_processMessages pm raw w) as H1.
  destruct (call_processMessages pm raw w) as [w1 [err|ms]] eqn:Ep;
    simpl in H1.
  { eapply ItemInv_internal; [|exact HI].
    eapply internal_trans; [exact H1|apply internal_worker_fail]. }
  apply processMessages_inr in Ep as (_ & _ & Hd & Hl).
  assert (Hm : is_Some (_method (inst w))).
  { destruct HM as [HM|[HM|(HM & _)]]; [congruence|exact HM|].
    rewrite HM, lookup_empty in Ew. discriminate. }
  destruct H1 as (C & H1').
  assert (H2 : ItemInv (fst (fst (map_items im wid ms w1)))).
  { apply map_items_ItemInv.
    - eapply ItemInv_internal; [|exact HI]. split; eauto.
    - now rewrite (config_log _ _ C).
    - now rewrite (config_method _ _ C). }
  destruct (map_items im wid ms w1) as [[w2 pending] rej]. simpl in H2.
  eapply ItemInv_internal; [|exact H2].
  destruct rej as [err|]; [apply internal_worker_fail|].
  destruct pending; auto using internal_worker_finally, internal_workers.
Qed.

(** ** Disposal and the receive requests *)

Lemma split_app {A : Type} (a b t1 t2 : list A) (x : A) :
  a ++ b = t1 ++ x :: t2 ->
  (exists t2', a = t1 ++ x :: t2' /\ t2 = t2' ++ b) \/
  (exists t1', t1 = a ++ t1' /\ b = t1' ++ x :: t2).
Proof.
  revert t1. induction a as [|y a IH]; intros t1 H; simpl in *.
  - right. exists t1. auto.
  - destruct t1 as [|z t1]; simpl in *.
    + injection H as -> <-. left. exists a. auto.
    + injection H as -> H.
      destruct (IH _ H) as [(t2' & -> & ->)|(t1' & -> & ->)];
        [left|right]; eauto.
Qed.

Lemma tame_not_disposed (s : Sqs) (evs : list Event) :
  Forall (tame s) evs -> ~ In EvDisposed evs.
Proof.
  induction 1 as [|e evs He _ IH]; simpl; [tauto|].
  intros [->|H]; [exact He|exact (IH H)].
Qed.

Lemma Coherent_kept (L : Z) (w w' : World) :
  kept w w' -> Coherent L w -> Coherent L w'.
Proof.
  intros (C & evs & HT & HF) H. unfold Coherent.
  rewrite HT, (config_disposed _ _ C), (config_limit _ _ C),
    (config_url _ _ C), (config_method _ _ C).
  assert (Hs : slot_startFetch (inst w') = slot_startFetch (inst w)).
  { unfold config in C. now injection C. }
  rewrite Hs.
  destruct H as [(H1 & H2 & H3 & H4)|(H1 & H2 & H3 & H4 & H5 & H6)].
  - left. split_and!; auto. intros Hin. apply in_app_or in Hin as [Hin|Hin].
    + exact (H4 Hin).
    + exact (tame_not_disposed _ _ HF Hin).
  - right. split_and!; auto. apply in_or_app. now left.
Qed.

Lemma ReceiveInv_extend (L : Z) (evs : list Event) (w w' : World) :
  ReceiveInv L w ->
  trace w' = trace w ++ evs ->
  (forall t1 wid p t2,
     evs = t1 ++ EvReceive wid p :: t2 -> receive_ok L (trace w ++ t1) p) ->
  ReceiveInv L w'.
Proof.
  intros HR HT HE t1 wid p t2 H. rewrite HT in H.
  apply split_app in H as [(t2' & H & _)|(t1' & -> & H)].
  - exact (HR _ _ _ _ H).
  - exact (HE _ _ _ _ H).
Qed.

Lemma maxMessages_min (L : Z) : maxMessages (Some L) = Some (Z.min 10 L).
Proof.
  unfold maxMessages. destruct (Z.ltb_spec L 10); f_equal; lia.
Qed.

Lemma ReceiveInv_kept (L : Z) (w w' : World) :
  kept w w' -> Coherent L w -> ReceiveInv L w -> ReceiveInv L w'.
Proof.
  intros (C & evs & HT & HF) HC HR.
  apply (ReceiveInv_extend L evs w w' HR HT).
  intros t1 wid p t2 ->.
  apply Forall_app in HF as [HF1 HF2].
  apply Forall_cons in HF2 as [Hp _]. simpl in Hp. subst p. simpl.
  destruct HC as [(H1 & H2 & [u H3] & H4)|(H1 & H2 & H3 & _ & _ & H6)].
  - left. rewrite H2, H3, maxMessages_min. split_and!; eauto.
    intros Hin. apply in_app_or in Hin as [Hin|Hin].
    + exact (H4 Hin).
    + exact (tame_not_disposed _ _ HF1 Hin).
  - right. rewrite H2, H3. split_and!; auto. apply in_or_app. now left.
Qed.

Lemma ReceiveInv_no_receive (L : Z) (evs : list Event) (w w' : World) :
  ReceiveInv L w ->
  trace w' = trace w ++ evs ->
  Forall (fun e => forall wid p, e <> EvReceive wid p) evs ->
  ReceiveInv L w'.
Proof.
  intros HR HT HF. apply (ReceiveInv_extend L evs w w' HR HT).
  intros t1 wid p t2 ->. apply Forall_app in HF as [_ HF].
  apply Forall_cons in HF as [Hp _]. now destruct (Hp wid p).
Qed.

(** ** The user's calls *)

Lemma startFetch_effect (h : Handler) (w : World) :
  let w' := startFetch h w in
  (slot_startFetch (inst w) = Inert /\ w' = w) \/
  (slot_startFetch (inst w) = Proto /\
   _method (inst w') = Some h /\
   _isDisposed (inst w') = _isDisposed (inst w) /\
   concurrentOpsLimit (inst w') = concurrentOpsLimit (inst w) /\
   url (inst w') = url (inst w) /\
   slot_startFetch (inst w') = slot_startFetch (inst w) /\
   items w' = items w /\ next_item w' = next_item w /\
   exists evs, trace w' = trace w ++ evs /\
               Forall (fun e => exists d, e = EvMainLoop d) evs).
Proof.
  unfold startFetch. destruct (slot_startFetch (inst w)) eqn:Es; [|now left].
  right. split; [reflexivity|]. simpl.
  set (w1 := set_inst (with_method (Some h) (inst w)) w).
  destruct (slot_mainLoop (inst w)); simpl.
  - unfold _mainLoop. simpl. destruct (_ <=? 0); simpl;
      (split_and!; auto; eexists; split; [reflexivity|];
       repeat constructor; eauto).
  - split_and!; auto. exists []. split; [now rewrite app_nil_r|constructor].
Qed.

Lemma createJob_kept (data : Json) (w : World) :
  kept w (fst (createJob data w)).
Proof.
  unfold createJob. destruct (_isDisposed (inst w)); [apply kept_refl|].
  destruct (log_call Info _ w) as [w1|] eqn:E; [|apply kept_refl]. simpl.
  eapply kept_trans; [eapply internal_kept, internal_log; exact E|].
  apply kept_emit. exact I.
Qed.

Lemma createJob_silent (data : Json) (w : World) :
  silent w (fst (createJob data w)).
Proof.
  unfold createJob. destruct (_isDisposed (inst w)); [apply silent_refl|].
  destruct (log_call Info _ w) as [w1|] eqn:E; [|apply silent_refl]. simpl.
  apply log_call_Some in E as (lg & _ & ->).
  unfold silent, extends. simpl. split_and!; auto.
  eexists [_; _]. split; [now rewrite <- app_assoc|]. repeat constructor.
Qed.

Lemma createJob_rest (data : Json) (w : World) :
  let w' := fst (createJob data w) in
  workers w' = workers w /\ fanouts w' = fanouts w /\ passes w' = passes w /\
  intervals w' = intervals w.
Proof.
  unfold createJob, log_call. destruct (_isDisposed (inst w)); [auto|].
  destruct (log (inst w)); simpl; auto.
Qed.

(** ** Quiescence *)

Lemma drain_nothing (w : World) : fanouts w = [] -> drain w = w.
Proof.
  unfold drain. intros H. rewrite H. simpl.
  destruct w; simpl in *. now subst.
Qed.

Lemma idle_settle (s : Settlement) (w : World) : idle w -> settle s w = w.
Proof.
  intros (Hw & _ & _ & _ & Ht). destruct s; simpl.
  - unfold receive_done. now rewrite Hw, lookup_empty.
  - unfold handler_done. now rewrite Ht, lookup_empty.
  - unfold delete_done. now rewrite Ht, lookup_empty.
Qed.

Lemma idle_settle_all (ss : list Settlement) (w : World) :
  idle w -> settle_all ss w = w.
Proof.
  intros H. induction ss as [|s ss IH]; [reflexivity|].
  unfold settle_all in *. simpl. now rewrite (idle_settle s w H).
Qed.

Lemma idle_step (w : World) (i : Input) :
  idle w ->
  match i with
  | CallStartFetch _ | CallCreateJob _ | CallDispose => True
  | _ => step w i = w
  end.
Proof.
  intros (Hw & Hf & Hp & Hi & Ht). destruct i; simpl; auto.
  - now rewrite Hi, lookup_empty.
  - now apply drain_nothing.
  - rewrite (drain_nothing w Hf). unfold receive_done.
    rewrite Hw, lookup_empty. now apply drain_nothing.
  - rewrite (drain_nothing w Hf). unfold handler_done.
    rewrite Ht, lookup_empty. now apply drain_nothing.
  - rewrite (drain_nothing w Hf). unfold delete_done.
    rewrite Ht, lookup_empty. now apply drain_nothing.
  - rewrite idle_settle_all; [now apply drain_nothing|].
    unfold idle. auto.
Qed.

Lemma MethodInv_kept (w w' : World) :
  kept w w' -> (idle w -> w' = w) -> MethodInv w -> MethodInv w'.
Proof.
  intros (C & _) Hidle. unfold MethodInv.
  rewrite (config_disposed _ _ C), (config_method _ _ C).
  intros [H|[H|H]]; auto. rewrite (Hidle H). auto.
Qed.

(** ** The invariant along a run *)

Lemma kept_settle (s : Settlement) (w : World) : kept w (settle s w).
Proof.
  destruct s; simpl;
    auto using kept_receive_done, kept_handler_done, kept_delete_done.
Qed.

Lemma kept_settle_all (ss : list Settlement) (w : World) :
  kept w (settle_all ss w).
Proof.
  revert w. induction ss as [|s ss IH]; intros w; [apply kept_refl|].
  eapply kept_trans; [apply (kept_settle s)|apply IH].
Qed.

Lemma step_kept (w : World) (i : Input) :
  match i with
  | CallStartFetch _ | CallDispose => True
  | _ => kept w (step w i)
  end.
Proof.
  destruct i; simpl; auto.
  - apply createJob_kept.
  - destruct (intervals w !! t); [|apply kept_refl].
    apply internal_kept, internal_call_mainLoop.
  - apply internal_kept, internal_drain.
  - eapply kept_trans; [apply internal_kept, internal_drain|].
    eapply kept_trans; [apply kept_receive_done|].
    apply internal_kept, internal_drain.
  - eapply kept_trans; [apply internal_kept, internal_drain|].
    eapply kept_trans; [apply kept_handler_done|].
    apply internal_kept, internal_drain.
  - eapply kept_trans; [apply internal_kept, internal_drain|].
    eapply kept_trans; [apply kept_delete_done|].
    apply internal_kept, internal_drain.
  - eapply kept_trans; [apply kept_settle_all|].
    apply internal_kept, internal_drain.
Qed.

Lemma MethodInv_drain (w : World) : MethodInv w -> MethodInv (drain w).
Proof.
  apply MethodInv_kept; [apply internal_kept, internal_drain|].
  intros (_ & Hf & _). now apply drain_nothing.
Qed.

Lemma ItemInv_settle (s : Settlement) (w : World) :
  ItemInv w -> MethodInv w -> ItemInv (settle s w).
Proof.
  destruct s; simpl;
    auto using ItemInv_receive_done, ItemInv_handler_done,
      ItemInv_delete_done.
Qed.

Lemma ItemInv_settle_all (ss : list Settlement) (w : World) :
  ItemInv w -> MethodInv w -> ItemInv (settle_all ss w).
Proof.
  revert w. induction ss as [|s ss IH]; intros w HI HM; [exact HI|].
  apply IH; [now apply ItemInv_settle|].
  apply (MethodInv_kept w); [apply kept_settle| |exact HM].
  apply idle_settle.
Qed.

Lemma ItemInv_step (w : World) (i : Input) :
  ItemInv w -> MethodInv w -> ItemInv (step w i).
Proof.
  intros HI HM. destruct i; simpl.
  - destruct (startFetch_effect method w)
      as [(_ & ->)|(_ & _ & _ & _ & _ & _ & Hi & Hn & evs & HT & HF)];
      [exact HI|].
    eapply ItemInv_silent; [|exact HI]. unfold silent. split_and!; auto.
    exists evs. split; [exact HT|].
    eapply Forall_impl; [exact HF|]. now intros e [d ->].
  - eapply ItemInv_silent; [apply createJob_silent|exact HI].
  - unfold dispose. destruct (_isDisposed (inst w)); [exact HI|].
    eapply ItemInv_silent; [|exact HI]. unfold silent, extends. simpl.
    split_and!; auto. exists [EvDisposed]. split; [reflexivity|].
    now repeat constructor.
  - destruct (intervals w !! t); [|exact HI].
    eapply ItemInv_internal; [apply internal_call_mainLoop|exact HI].
  - eapply ItemInv_internal; [apply internal_drain|exact HI].
  - eapply ItemInv_internal; [apply internal_drain|].
    apply ItemInv_receive_done; [|now apply MethodInv_drain].
    eapply ItemInv_internal; [apply internal_drain|exact HI].
  - eapply ItemInv_internal; [apply internal_drain|].
    apply ItemInv_handler_done.
    eapply ItemInv_internal; [apply internal_drain|exact HI].
  - eapply ItemInv_internal; [apply internal_drain|].
    apply ItemInv_delete_done.
    eapply ItemInv_internal; [apply internal_drain|exact HI].
  - eapply ItemInv_internal; [apply internal_drain|].
    now apply ItemInv_settle_all.
Qed.

Lemma MethodInv_step (w : World) (i : Input) :
  MethodInv w -> MethodInv (step w i).
Proof.
  intros HM. pose proof (step_kept w i) as HK.
  pose proof (fun H => idle_step w i H) as HQ.
  destruct i; try (apply (MethodInv_kept _ _ HK HQ HM)).
  - simpl. destruct (startFetch_effect method w)
      as [(_ & ->)|(_ & Hm & _)]; [exact HM|].
    right. left. rewrite Hm. eauto.
  - simpl in *. destruct HK as (C & _). unfold MethodInv.
    rewrite (config_disposed _ _ C), (config_method _ _ C).
    destruct HM as [H|[H|(H1 & H2 & H3 & H4 & H5)]]; auto.
    right. right. destruct (createJob_rest data w) as (R1 & R2 & R3 & R4).
    destruct (createJob_silent data w) as (R5 & _).
    unfold idle. now rewrite R1, R2, R3, R4, R5.
  - simpl. unfold dispose. destruct (_isDisposed (inst w)) eqn:E; simpl.
    + left. exact E.
    + left. reflexivity.
Qed.

Lemma Coherent_step (L : Z) (w : World) (i : Input) :
  Coherent L w -> Coherent L (step w i).
Proof.
  intros HC. pose proof (step_kept w i) as HK.
  destruct i; try (apply (Coherent_kept L _ _ HK HC)).
  - simpl. destruct (startFetch_effect method w)
      as [(_ & ->)|(Hp & _ & Hd & Hl & Hu & _ & _ & _ & evs & HT & HF)];
      [exact HC|].
    destruct HC as [(H1 & H2 & H3 & H4)|(_ & _ & _ & _ & H5 & _)];
      [|congruence].
    left. rewrite Hd, Hl, Hu, HT. split_and!; auto.
    intros Hin. apply in_app_or in Hin as [Hin|Hin]; [exact (H4 Hin)|].
    rewrite Forall_forall in HF. apply list_elem_of_In in Hin.
    destruct (HF _ Hin) as [d Hd']. discriminate.
  - simpl. unfold dispose. destruct (_isDisposed (inst w)) eqn:E; simpl;
      [exact HC|].
    right. simpl. split_and!; auto. apply in_or_app. right. now left.
Qed.

Lemma ReceiveInv_step (L : Z) (w : World) (i : Input) :
  Coherent L w -> ReceiveInv L w -> ReceiveInv L (step w i).
Proof.
  intros HC HR. pose proof (step_kept w i) as HK.
  destruct i; try (apply (ReceiveInv_kept L _ _ HK HC HR)).
  - simpl. destruct (startFetch_effect method w)
      as [(_ & ->)|(_ & _ & _ & _ & _ & _ & _ & _ & evs & HT & HF)];
      [exact HR|].
    apply (ReceiveInv_no_receive L evs w _ HR HT).
    eapply Forall_impl; [exact HF|]. now intros e [d ->].
  - simpl. unfold dispose. destruct (_isDisposed (inst w)); [exact HR|].
    apply (ReceiveInv_no_receive L [EvDisposed] w _ HR); [reflexivity|].
    now repeat constructor.
Qed.

Lemma InvokeInv_extend (evs : list Event) (w w' : World) :
  InvokeInv w ->
  trace w' = trace w ++ evs ->
  (forall t1 iid h d t2,
     evs = t1 ++ EvInvoke iid h d :: t2 ->
     ~ In EvDisposed (trace w ++ t1)) ->
  InvokeInv w'.
Proof.
  intros HR HT HE t1 iid h d t2 H. rewrite HT in H.
  apply split_app in H as [(t2' & H & _)|(t1' & -> & H)].
  - exact (HR _ _ _ _ _ H).
  - exact (HE _ _ _ _ _ H).
Qed.

Lemma InvokeInv_kept (L : Z) (w w' : World) :
  kept w w' -> Coherent L w -> InvokeInv w -> InvokeInv w'.
Proof.
  intros (C & evs & HT & HF) HC HR.
  apply (InvokeInv_extend evs w w' HR HT).
  intros t1 iid h d t2 ->.
  apply Forall_app in HF as [HF1 HF2].
  apply Forall_cons in HF2 as [Hm _]. simpl in Hm.
  destruct HC as [(_ & _ & _ & H4)|(_ & _ & _ & H4 & _)]; [|congruence].
  intros Hin. apply in_app_or in Hin as [Hin|Hin].
  - exact (H4 Hin).
  - exact (tame_not_disposed _ _ HF1 Hin).
Qed.

Lemma InvokeInv_no_invoke (evs : list Event) (w w' : World) :
  InvokeInv w ->
  trace w' = trace w ++ evs ->
  Forall (fun e => forall iid h d, e <> EvInvoke iid h d) evs ->
  InvokeInv w'.
Proof.
  intros HR HT HF. apply (InvokeInv_extend evs w w' HR HT).
  intros t1 iid h d t2 ->. apply Forall_app in HF as [_ HF].
  apply Forall_cons in HF as [Hp _]. now destruct (Hp iid h d).
Qed.

Lemma InvokeInv_step (L : Z) (w : World) (i : Input) :
  Coherent L w -> InvokeInv w -> InvokeInv (step w i).
Proof.
  intros HC HR. pose proof (step_kept w i) as HK.
  destruct i; try (apply (InvokeInv_kept L _ _ HK HC HR)).
  - simpl. destruct (startFetch_effect method w)
      as [(_ & ->)|(_ & _ & _ & _ & _ & _ & _ & _ & evs & HT & HF)];
      [exact HR|].
    apply (InvokeInv_no_invoke evs w _ HR HT).
    eapply Forall_impl; [exact HF|]. now intros e [d ->].
  - simpl. unfold dispose. destruct (_isDisposed (inst w)); [exact HR|].
    apply (InvokeInv_no_invoke [EvDisposed] w _ HR); [reflexivity|].
    now repeat constructor.
Qed.

Lemma Inv_step (L : Z) (w : World) (i : Input) : Inv L w -> Inv L (step w i).
Proof.
  intros (H1 & H2 & H3 & H4 & H5). unfold Inv.
  split_and!;
    eauto using ItemInv_step, MethodInv_step, Coherent_step, ReceiveInv_step,
      InvokeInv_step.
Qed.

Lemma Inv_run (L : Z) (ins : list Input) (w : World) :
  Inv L w -> Inv L (run w ins).
Proof.
  revert w. induction ins as [|i ins IH]; intros w H; [exact H|].
  simpl. apply IH. now apply Inv_step.
Qed.

Lemma boot_inr (o : Opts) (w : World) :
  boot o = inr w ->
  exists s, new_Sqs o = inr s /\ w = world_of (init s) /\
            _isDisposed s = false /\
            concurrentOpsLimit s = Some (opt_concurrentOpsLimit o) /\
            url s = Some (sqsUrl o) /\ log s = Some (logger o) /\
            _longPollsInFlight s = 0.
Proof.
  unfold boot. destruct (new_Sqs o) as [e|s] eqn:E; [discriminate|].
  intros [= <-]. exists s. split; [reflexivity|]. split; [reflexivity|].
  unfold new_Sqs in E.
  destruct (10 <? _); [destruct (negb _); [discriminate|]|];
    injection E as <-; simpl; auto.
Qed.

Lemma Inv_boot (o : Opts) (w : World) :
  boot o = inr w -> Inv (opt_concurrentOpsLimit o) w.
Proof.
  intros H. apply boot_inr in H as (s & _ & -> & Hd & Hl & Hu & _).
  unfold Inv. split_and!.
  - unfold ItemInv. simpl. split_and!; auto.
    intros iid. rewrite lookup_empty. constructor.
  - right. right. unfold idle. simpl. auto.
  - left. simpl. rewrite Hd, Hl, Hu. split_and!; eauto.
  - intros t1 wid p t2 Ht. simpl in Ht. now destruct t1.
  - intros t1 iid h d t2 Ht. simpl in Ht. now destruct t1.
Qed.

(** ** The worker counter *)

Lemma view_fields (w w' : World) :
  pool_view w' = pool_view w ->
  _longPollsInFlight (inst w') = _longPollsInFlight (inst w) /\
  _longPollsRequired (inst w') = _longPollsRequired (inst w) /\
  workers w' = workers w /\
  next_worker w' = next_worker w /\
  fanouts w' = fanouts w /\
  config (inst w') = config (inst w).
Proof.
  unfold pool_view. intros H. split_and!.
  - exact (f_equal (fun v => v.1.1.1.1.1) H).
  - exact (f_equal (fun v => v.1.1.1.1.2) H).
  - exact (f_equal (fun v => v.1.1.1.2) H).
  - exact (f_equal (fun v => v.1.1.2) H).
  - exact (f_equal (fun v => v.1.2) H).
  - exact (f_equal (fun v => v.2) H).
Qed.

Lemma config_slots (s s' : Sqs) :
  config s' = config s ->
  slot_processMessages s' = slot_processMessages s /\
  slot_invokeMethod s' = slot_invokeMethod s.
Proof. unfold config. intros H. now injection H. Qed.

Lemma Pool_view (w w' : World) : pool_view w' = pool_view w -> Pool w -> Pool w'.
Proof.
  intros V. apply view_fields in V as (V1 & _ & V3 & V4 & _ & C).
  destruct (config_slots _ _ C) as [S1 S2].
  unfold Pool.
  rewrite V1, V3, V4, S1, S2, (config_disposed _ _ C), (config_log _ _ C).
  auto.
Qed.

Lemma Budget_view (w w' : World) :
  pool_view w' = pool_view w -> Budget w -> Budget w'.
Proof.
  intros V. apply view_fields in V as (V1 & V2 & _ & _ & V5 & _).
  unfold Budget, waiting. now rewrite V1, V2, V5.
Qed.

Lemma view_log (lvl : Level) (args : list LogArg) (w w' : World) :
  log_call lvl args w = Some w' -> pool_view w' = pool_view w.
Proof. intros H. apply log_call_Some in H as (lg & _ & ->). reflexivity. Qed.

Lemma view_receive_catch (err : Reason) (w : World) :
  pool_view (fst (receive_catch err w)) = pool_view w.
Proof.
  unfold receive_catch, log_call.
  repeat (case_match; simplify_eq; simpl); reflexivity.
Qed.

Lemma view_mainLoop_catch (err : Reason) (w : World) :
  pool_view (mainLoop_catch err w) = pool_view w.
Proof.
  unfold mainLoop_catch, log_call.
  repeat (case_match; simplify_eq; simpl); reflexivity.
Qed.

Lemma view_call_processMessages (f : Impl) (raw : option (list RawMessage))
  (w : World) :
  pool_view (fst (call_processMessages f raw w)) = pool_view w.
Proof.
  unfold call_processMessages, _processMessages, log_call.
  repeat (case_match; simplify_eq; simpl); reflexivity.
Qed.

Lemma view_call_invokeMethod (f : Impl) (wid : nat) (m : RawMessage)
  (w : World) :
  pool_view (fst (call_invokeMethod f wid m w)) = pool_view w.
Proof.
  unfold call_invokeMethod, _invokeMethod, log_call.
  repeat (case_match; simplify_eq; simpl); reflexivity.
Qed.

Lemma view_map_items (f : Impl) (wid : nat) (ms : list RawMessage)
  (w : World) :
  pool_view (fst (fst (map_items f wid ms w))) = pool_view w.
Proof.
  apply (map_items_inv (fun v => pool_view v = pool_view w)); [|reflexivity].
  intros m v <-. apply (view_call_invokeMethod Proto).
Qed.

Lemma view_createJob (data : Json) (w : World) :
  pool_view (fst (createJob data w)) = pool_view w.
Proof.
  unfold createJob, log_call.
  repeat (case_match; simplify_eq; simpl); reflexivity.
Qed.

Lemma mainLoop_view (w : World) :
  inst (_mainLoop w) = inst w /\
  workers (_mainLoop w) = workers w /\
  next_worker (_mainLoop w) = next_worker w /\
  (fanouts (_mainLoop w) = fanouts w \/
   0 < _longPollsRequired (inst w) - _longPollsInFlight (inst w) /\
   exists f,
     fanouts (_mainLoop w) =
     fanouts w ++
     [mkFanout
        (Z.to_nat (_longPollsRequired (inst w) - _longPollsInFlight (inst w)))
        f]).
Proof.
  unfold _mainLoop.
  destruct (Z.leb_spec (_longPollsRequired (inst w) - _longPollsInFlight (inst w)) 0);
    simpl; split_and!; auto. right. split; [lia|]. eauto.
Qed.

Lemma Pool_call_mainLoop (f : Impl) (w : World) :
  Pool w -> Pool (call_mainLoop f w).
Proof.
  destruct f; [|auto]. simpl. unfold Pool.
  destruct (mainLoop_view w) as (-> & -> & -> & _). auto.
Qed.

Lemma Budget_call_mainLoop (f : Impl) (w : World) :
  fanouts w = [] -> Budget w -> Budget (call_mainLoop f w).
Proof.
  destruct f; [|auto]. simpl. unfold Budget, waiting. intros Hf HB.
  destruct (mainLoop_view w) as (-> & _ & _ & [->|(Hd & g & ->)]);
    [exact HB|].
  rewrite Hf. simpl. lia.
Qed.

Lemma Pool_receiveMessages (pid : nat) (w : World) :
  Pool w -> Pool (_receiveMessages pid w).
Proof.
  intros (H1 & H2 & H3 & H4). unfold Pool, _receiveMessages. simpl.
  split_and!.
  - rewrite map_size_insert_None by (apply H2; lia). lia.
  - intros wid Hle. rewrite lookup_insert_ne by lia. apply H2. lia.
  - exact H3.
  - intros Hd wid wk pm im Hl Hs.
    destruct (decide (next_worker w = wid)) as [<-|Hne].
    + rewrite lookup_insert_eq in Hl. injection Hl as <-. simpl in Hs.
      injection Hs as <- <-. destruct (H3 Hd) as (? & ? & _). auto.
    + rewrite lookup_insert_ne in Hl by exact Hne. eapply H4; eauto.
Qed.

Lemma receiveMessages_keeps (pid wid : nat) (wk : Worker) (w : World) :
  Pool w -> workers w !! wid = Some wk ->
  workers (_receiveMessages pid w) !! wid = Some wk.
Proof.
  intros (_ & H2 & _) Hl. unfold _receiveMessages. simpl.
  rewrite lookup_insert_ne; [exact Hl|].
  intros <-. rewrite H2 in Hl by lia. discriminate.
Qed.

Lemma iter_effect (pid n : nat) (w : World) :
  let w' := Nat.iter n (_receiveMessages pid) w in
  (Pool w -> Pool w') /\
  _longPollsInFlight (inst w') = _longPollsInFlight (inst w) + Z.of_nat n /\
  _longPollsRequired (inst w') = _longPollsRequired (inst w) /\
  fanouts w' = fanouts w.
Proof.
  induction n as [|n IH]; simpl; [split_and!; auto; lia|].
  destruct IH as (I1 & I2 & I3 & I4). split_and!.
  - intros H. now apply Pool_receiveMessages, I1.
  - rewrite I2. lia.
  - exact I3.
  - exact I4.
Qed.

Lemma run_fanout_effect (fo : Fanout) (w : World) :
  let w' := run_fanout fo w in
  (Pool w -> Pool w') /\
  _longPollsInFlight (inst w') =
    _longPollsInFlight (inst w) + Z.of_nat (fo_count fo) /\
  _longPollsRequired (inst w') = _longPollsRequired (inst w) /\
  fanouts w' = fanouts w.
Proof.
  unfold run_fanout.
  match goal with
  | |- context [Nat.iter _ _ ?v] =>
    destruct (iter_effect (next_pass w) (fo_count fo) v) as (I1 & I2 & I3 & I4)
  end.
  cbv zeta in *. split_and!; auto.
Qed.

Lemma fold_fanouts_effect (fos : list Fanout) (w : World) :
  let w' := fold_left (fun acc fo => run_fanout fo acc) fos w in
  (Pool w -> Pool w') /\
  _longPollsInFlight (inst w') =
    _longPollsInFlight (inst w) + Z.of_nat (sum_list_with fo_count fos) /\
  _longPollsRequired (inst w') = _longPollsRequired (inst w) /\
  fanouts w' = fanouts w.
Proof.
  revert w. induction fos as [|fo fos IH]; intros w; simpl.
  - split_and!; auto. lia.
  - destruct (IH (run_fanout fo w)) as (I1 & I2 & I3 & I4).
    destruct (run_fanout_effect fo w) as (R1 & R2 & R3 & R4).
    cbv zeta in *. split_and!; auto; try congruence. rewrite I2, R2. lia.
Qed.

Lemma drain_effect (w : World) :
  (Pool w -> Pool (drain w)) /\
  (Budget w -> Budget (drain w)) /\
  _longPollsRequired (inst (drain w)) = _longPollsRequired (inst w) /\
  fanouts (drain w) = [].
Proof.
  unfold drain.
  destruct (fold_fanouts_effect (fanouts w) (set_fanouts [] w))
    as (I1 & I2 & I3 & I4).
  cbv zeta in *. simpl in *. split_and!; auto.
  unfold Budget, waiting. rewrite I2, I3, I4. simpl. lia.
Qed.

Lemma iter_keeps (pid n wid : nat) (wk : Worker) (w : World) :
  Pool w -> workers w !! wid = Some wk ->
  workers (Nat.iter n (_receiveMessages pid) w) !! wid = Some wk.
Proof.
  intros HP Hl. induction n as [|n IH]; simpl; [exact Hl|].
  apply receiveMessages_keeps; [|exact IH].
  now apply (iter_effect pid n w).
Qed.

Lemma run_fanout_keeps (fo : Fanout) (wid : nat) (wk : Worker) (w : World) :
  Pool w -> workers w !! wid = Some wk ->
  workers (run_fanout fo w) !! wid = Some wk.
Proof. intros HP Hl. unfold run_fanout. now apply iter_keeps. Qed.

Lemma fold_fanouts_keeps (fos : list Fanout) (wid : nat) (wk : Worker)
  (w : World) :
  Pool w -> workers w !! wid = Some wk ->
  workers (fold_left (fun acc fo => run_fanout fo acc) fos w) !! wid = Some wk.
Proof.
  revert w. induction fos as [|fo fos IH]; intros w HP Hl; [exact Hl|].
  simpl. apply IH.
  - now apply (run_fanout_effect fo w).
  - now apply run_fanout_keeps.
Qed.

Lemma drain_keeps (wid : nat) (wk : Worker) (w : World) :
  Pool w -> workers w !! wid = Some wk -> workers (drain w) !! wid = Some wk.
Proof. intros HP Hl. unfold drain. now apply fold_fanouts_keeps. Qed.

Lemma pass_settled_effect (pid : nat) (res : Settled) (w : World) :
  (Pool w -> Pool (pass_settled pid res w)) /\
  (fanouts w = [] -> Budget w -> Budget (pass_settled pid res w)).
Proof.
  unfold pass_settled.
  destruct (passes w !! pid) as [p|]; [|auto].
  destruct res as [err|].
  - split.
    + intros H. apply Pool_call_mainLoop.
      eapply Pool_view; [apply view_mainLoop_catch|]. exact H.
    + intros Hf H. apply Budget_call_mainLoop.
      * pose proof (view_mainLoop_catch err
                      (set_passes (delete pid (passes w)) w)) as V.
        apply view_fields in V as (_ & _ & _ & _ & -> & _). exact Hf.
      * eapply Budget_view; [apply view_mainLoop_catch|]. exact H.
  - destruct (p_remaining p) as [|[|n]]; split; auto;
      intros; first [now apply Pool_call_mainLoop
                    |now apply Budget_call_mainLoop].
Qed.

Lemma worker_finally_effect (wid : nat) (wk : Worker) (res : Settled)
  (w : World) :
  is_Some (workers w !! wid) ->
  (Pool w -> Pool (worker_finally wid wk res w)) /\
  (fanouts w = [] -> Budget w -> Budget (worker_finally wid wk res w)).
Proof.
  intros Hw. unfold worker_finally.
  match goal with
  | |- context [pass_settled _ _ ?v] =>
    destruct (pass_settled_effect (w_pass wk) res v) as [P1 P2]
  end.
  split.
  - intros (H1 & H2 & H3 & H4). apply P1. unfold Pool. simpl. split_and!.
    + rewrite map_size_delete_Some by exact Hw.
      assert (size (workers w) <> 0%nat).
      { intros E. apply map_size_empty_iff in E. rewrite E in Hw.
        rewrite lookup_empty in Hw. now destruct Hw. }
      lia.
    + intros j Hj. destruct (decide (wid = j)) as [->|Hne].
      * apply lookup_delete_eq.
      * rewrite lookup_delete_ne by exact Hne. now apply H2.
    + exact H3.
    + intros Hd j wj pm im Hl Hs.
      destruct (decide (wid = j)) as [->|Hne].
      * rewrite lookup_delete_eq in Hl. discriminate.
      * rewrite lookup_delete_ne in Hl by exact Hne. eapply H4; eauto.
  - intros Hf HB. apply P2; [exact Hf|].
    unfold Budget, waiting in *. simpl. lia.
Qed.

Lemma worker_fail_effect (wid : nat) (wk : Worker) (err : Reason)
  (w : World) :
  is_Some (workers w !! wid) ->
  (Pool w -> Pool (worker_fail wid wk err w)) /\
  (fanouts w = [] -> Budget w -> Budget (worker_fail wid wk err w)).
Proof.
  intros Hw. unfold worker_fail.
  pose proof (view_receive_catch err w) as V.
  destruct (receive_catch err w) as [w1 res]. simpl in V.
  destruct (view_fields _ _ V) as (_ & _ & Vw & _ & Vf & _).
  assert (Hw1 : is_Some (workers w1 !! wid)) by (now rewrite Vw).
  destruct (worker_finally_effect wid wk res w1 Hw1) as [P1 P2].
  split.
  - intros H. apply P1. eapply Pool_view; eauto.
  - intros Hf H. apply P2.
    + now rewrite Vf.
    + eapply Budget_view; eauto.
Qed.

Lemma Pool_mapping (wid pid n : nat) (w : World) :
  is_Some (workers w !! wid) ->
  Pool w ->
  Pool (set_workers (<[wid := mkWorker pid (Mapping n)]> (workers w)) w).
Proof.
  intros Hw (H1 & H2 & H3 & H4). unfold Pool. simpl. split_and!.
  - now rewrite map_size_insert_Some.
  - intros j Hj. destruct (decide (wid = j)) as [->|Hne].
    + rewrite (H2 j Hj) in Hw. now destruct Hw.
    + rewrite lookup_insert_ne by exact Hne. now apply H2.
  - exact H3.
  - intros Hd j wj pm im Hl Hs.
    destruct (decide (wid = j)) as [->|Hne].
    + rewrite lookup_insert_eq in Hl. injection Hl as <-. discriminate.
    + rewrite lookup_insert_ne in Hl by exact Hne. eapply H4; eauto.
Qed.

Lemma item_settled_effect (wid : nat) (res : Settled) (w : World) :
  (Pool w -> Pool (item_settled wid res w)) /\
  (fanouts w = [] -> Budget w -> Budget (item_settled wid res w)).
Proof.
  unfold item_settled.
  destruct (workers w !! wid) as [wk|] eqn:Ew; [|auto].
  assert (Hw : is_Some (workers w !! wid)) by (rewrite Ew; eauto).
  destruct (w_st wk) as [pm im|n]; [auto|].
  destruct res as [err|]; [now apply worker_fail_effect|].
  destruct n as [|[|k]]; try (now apply worker_finally_effect).
  split; [now apply Pool_mapping|auto].
Qed.

Lemma receive_done_effect (wid : nat) (r : ReceiveResult) (w : World) :
  (Pool w -> Pool (receive_done wid r w)) /\
  (fanouts w = [] -> Budget w -> Budget (receive_done wid r w)).
Proof.
  unfold receive_done.
  destruct (workers w !! wid) as [wk|] eqn:Ew; [|auto].
  assert (Hw : is_Some (workers w !! wid)) by (rewrite Ew; eauto).
  destruct (w_st wk) as [pm im|n]; [|auto].
  destruct r as [err|raw]; [now apply worker_fail_effect|].
  pose proof (view_call_processMessages pm raw w) as V1.
  destruct (call_processMessages pm raw w) as [w1 [err|ms]]; simpl in V1.
  - destruct (view_fields _ _ V1) as (_ & _ & Vw & _ & Vf & _).
    assert (Hw1 : is_Some (workers w1 !! wid)) by (now rewrite Vw).
    destruct (worker_fail_effect wid wk err w1 Hw1) as [P1 P2]. split.
    + intros H. apply P1. eapply Pool_view; eauto.
    + intros Hf H. apply P2; [|eapply Budget_view; eauto].
      now rewrite Vf.
  - pose proof (view_map_items im wid ms w1) as V2.
    destruct (map_items im wid ms w1) as [[w2 pending] rej]. simpl in V2.
    rewrite V1 in V2.
    destruct (view_fields _ _ V2) as (_ & _ & Vw & _ & Vf & _).
    assert (Hw2 : is_Some (workers w2 !! wid)) by (now rewrite Vw).
    assert (Hf2 : fanouts w = [] -> fanouts w2 = []) by (now rewrite Vf).
    assert (HP : Pool w -> Pool w2) by (apply Pool_view; exact V2).
    assert (HB : Budget w -> Budget w2) by (apply Budget_view; exact V2).
    destruct rej as [err|].
    + destruct (worker_fail_effect wid wk err w2 Hw2) as [P1 P2]. auto.
    + destruct pending.
      * destruct (worker_finally_effect wid wk None w2 Hw2) as [P1 P2]. auto.
      * split; [intros H; now apply Pool_mapping, HP|intros _; exact HB].
Qed.

Lemma handler_done_effect (iid : nat) (res : Settled) (w : World) :
  (Pool w -> Pool (handler_done iid res w)) /\
  (fanouts w = [] -> Budget w -> Budget (handler_done iid res w)).
Proof.
  unfold handler_done.
  destruct (items w !! iid) as [it|]; [|auto].
  destruct (i_st it); [|auto].
  destruct res as [err|]; [|auto].
  match goal with
  | |- context [item_settled _ _ ?v] =>
    destruct (item_settled_effect (i_worker it) (Some err) v) as [P1 P2]
  end.
  split; auto.
Qed.

Lemma delete_done_effect (iid : nat) (res : Settled) (w : World) :
  (Pool w -> Pool (delete_done iid res w)) /\
  (fanouts w = [] -> Budget w -> Budget (delete_done iid res w)).
Proof.
  unfold delete_done, log_call.
  destruct (items w !! iid) as [it|]; [|auto].
  destruct (i_st it); [auto|].
  destruct res as [err|];
    [cbn [inst set_items]; destruct (log (inst w))|];
    match goal with
    | |- context [item_settled _ ?r ?v] =>
      destruct (item_settled_effect (i_worker it) r v) as [P1 P2]
    end;
    split; auto.
Qed.

Lemma startFetch_pool (h : Handler) (w : World) :
  (Pool w -> Pool (startFetch h w)) /\
  (fanouts w = [] -> Budget w -> Budget (startFetch h w)).
Proof.
  unfold startFetch. destruct (slot_startFetch (inst w)); [|auto].
  set (w1 := set_inst (with_method (Some h) (inst w)) w).
  split.
  - intros H. apply (Pool_call_mainLoop (slot_mainLoop (inst w1)) w1) in H.
    exact H.
  - intros Hf H.
    apply (Budget_call_mainLoop (slot_mainLoop (inst w1)) w1 Hf) in H.
    exact H.
Qed.

Lemma settle_effect (s : Settlement) (w : World) :
  (Pool w -> Pool (settle s w)) /\
  (fanouts w = [] -> Budget w -> Budget (settle s w)).
Proof.
  destruct s; simpl;
    auto using receive_done_effect, handler_done_effect, delete_done_effect.
Qed.

Lemma Pool_settle_all (ss : list Settlement) (w : World) :
  Pool w -> Pool (settle_all ss w).
Proof.
  revert w. induction ss as [|s ss IH]; intros w H; [exact H|].
  apply IH. now apply settle_effect.
Qed.

Lemma Pool_dispose (w : World) : Pool w -> Pool (fst (dispose w)).
Proof.
  unfold dispose. destruct (_isDisposed (inst w)); [auto|].
  intros (H1 & H2 & _). unfold Pool. simpl. split_and!; auto; discriminate.
Qed.

Lemma Pool_step (w : World) (i : Input) : Pool w -> Pool (step w i).
Proof.
  intros H. destruct i; simpl.
  - now apply startFetch_pool.
  - eapply Pool_view; [apply view_createJob|exact H].
  - now apply Pool_dispose.
  - destruct (intervals w !! t); [|exact H]. now apply Pool_call_mainLoop.
  - now apply drain_effect.
  - now apply drain_effect, receive_done_effect, drain_effect.
  - now apply drain_effect, handler_done_effect, drain_effect.
  - now apply drain_effect, delete_done_effect, drain_effect.
  - now apply drain_effect, Pool_settle_all.
Qed.

Lemma Budget_step (w : World) (i : Input) :
  match i with
  | CallStartFetch _ | TimerFired _ => fanouts w = []
  | SettledTogether ss => fanouts w = [] /\ (length ss <= 1)%nat
  | _ => True
  end ->
  Budget w -> Budget (step w i).
Proof.
  intros Hs H.
  destruct (drain_effect w) as (_ & D & _ & Df).
  destruct i; simpl.
  - now apply startFetch_pool.
  - eapply Budget_view; [apply view_createJob|exact H].
  - unfold dispose. now destruct (_isDisposed (inst w)).
  - destruct (intervals w !! t); [|exact H]. now apply Budget_call_mainLoop.
  - now apply D.
  - apply drain_effect, receive_done_effect; auto.
  - apply drain_effect, handler_done_effect; auto.
  - apply drain_effect, delete_done_effect; auto.
  - destruct Hs as [Hf Hl].
    destruct ss as [|s [|s' ss]]; [exact (D H)| |simpl in Hl; lia].
    apply drain_effect. now apply settle_effect.
Qed.

Lemma required_step (w : World) (i : Input) :
  _longPollsRequired (inst (step w i)) = _longPollsRequired (inst w).
Proof.
  pose proof (step_kept w i) as HK.
  destruct i;
    try (pose proof (proj1 HK) as C; unfold config in C; now injection C).
  - simpl. unfold startFetch. destruct (slot_startFetch (inst w)); [|auto].
    simpl. destruct (slot_mainLoop (inst w)); simpl; [|reflexivity].
    now destruct (mainLoop_view (set_inst (with_method (Some method) (inst w)) w))
      as (-> & _).
  - simpl. unfold dispose. now destruct (_isDisposed (inst w)).
Qed.

Lemma pool_run (ins : list Input) (w : World) :
  Pool w ->
  Pool (run w ins) /\
  _longPollsRequired (inst (run w ins)) = _longPollsRequired (inst w) /\
  (serial w ins -> Budget w -> Budget (run w ins)).
Proof.
  revert w. induction ins as [|i ins IH]; intros w HP; [simpl; auto|].
  simpl. destruct (IH (step w i) (Pool_step w i HP)) as (I1 & I2 & I3).
  split_and!; auto.
  - rewrite I2. apply required_step.
  - intros [Hs Hr] HB. apply I3; [exact Hr|]. now apply Budget_step.
Qed.

Lemma Pool_boot (o : Opts) (w : World) : boot o = inr w -> Pool w.
Proof.
  unfold boot, new_Sqs.
  destruct (10 <? _); [destruct (negb _); [discriminate|]|];
    intros [= <-]; unfold Pool; simpl; split_and!; eauto;
    intros; rewrite ?lookup_empty in *; try discriminate; reflexivity.
Qed.

(** ** Properties of the specification *)

Lemma enters_after (Q : Event -> Prop) (m : RawMessage) (w w1 w2 : World) :
  extends Q w w1 -> enters m w1 w2 -> enters m w w2.
Proof.
  intros (evs & H1 & _) (iid & t1 & t2 & H2).
  exists iid, (evs ++ t1), t2. rewrite H2, H1. now rewrite <- !app_assoc.
Qed.

Lemma enters_before (Q : Event -> Prop) (m : RawMessage) (w w1 w2 : World) :
  enters m w w1 -> extends Q w1 w2 -> enters m w w2.
Proof.
  intros (iid & t1 & t2 & H1) (evs & H2 & _).
  exists iid, t1, (t2 ++ evs). rewrite H2, H1.
  now rewrite <- !app_assoc.
Qed.

Lemma internal_extends (w w' : World) :
  internal w w' -> extends (quiet (inst w)) w w'.
Proof. now intros (_ & _ & _ & H). Qed.

Lemma map_items_enters (wid : nat) (h : Handler) (ms : list RawMessage)
  (m : RawMessage) (w : World) :
  _method (inst w) = Some h ->
  is_Some (log (inst w)) ->
  In m (reached h (next_item w) ms) ->
  enters m w (fst (fst (map_items Proto wid ms w))).
Proof.
  revert w. induction ms as [|m' ms IH]; intros w Hm Hl Hin; [destruct Hin|].
  rewrite map_items_step.
  destruct (invokeMethod_effect wid m' w) as (C & _ & HN & Hcase).
  destruct (kept_invokeMethod wid m' w) as [_ K1].
  destruct (map_items_kept Proto wid ms (fst (_invokeMethod wid m' w)))
    as [[_ K2] _].
  assert (Hm1 : _method (inst (fst (_invokeMethod wid m' w))) = Some h)
    by (now rewrite (config_method _ _ C)).
  assert (Hl1 : is_Some (log (inst (fst (_invokeMethod wid m' w)))))
    by (now rewrite (config_log _ _ C)).
  assert (Here : enters m' w (fst (_invokeMethod wid m' w))).
  { destruct Hcase as [(d & h' & _ & _ & _ & HT & _)
                      |[(d & h' & r & _ & _ & _ & HT & _)
                      |[(lg & _ & _ & HT & _)|(_ & _ & HT & _)]]];
      exists (next_item w), []; eexists; rewrite HT; reflexivity. }
  simpl in Hin.
  destruct Hcase as [(d & h' & P & M & T & _ & _ & ->)
                    |[(d & h' & r & P & M & T & _ & _ & ->)
                    |[(lg & P & _ & _ & _ & ->)|(P1 & P2 & _)]]].
  - assert (h' = h) by congruence. subst h'. rewrite P, T in Hin.
    destruct Hin as [<-|Hin].
    + eapply enters_before; [exact Here|exact K2].
    + eapply enters_after; [exact K1|]. apply IH; auto. now rewrite HN.
  - assert (h' = h) by congruence. subst h'. rewrite P, T in Hin.
    destruct Hin as [<-|[]]. exact Here.
  - rewrite P in Hin. destruct Hin as [<-|Hin].
    + eapply enters_before; [exact Here|exact K2].
    + eapply enters_after; [exact K1|]. apply IH; auto. now rewrite HN.
  - exfalso. destruct (JSON_parse (Body m')) as [d|].
    + rewrite P2 in Hm by eauto. discriminate.
    + destruct Hl as [lg Hl]. rewrite P1 in Hl by reflexivity. discriminate.
Qed.

(** When the long poll of a live instance answers with a batch, the
    prototype's [_invokeMethod] is entered on every item of the batch that
    [.map] reaches. *)
Lemma batch_enters (w : World) (wid : nat) (wk : Worker) (pm im : Impl)
  (h : Handler) (ms : list RawMessage) (m : RawMessage) :
  Pool w ->
  _isDisposed (inst w) = false ->
  workers w !! wid = Some wk ->
  w_st wk = Polling pm im ->
  _method (inst w) = Some h ->
  In m (reached h (next_item w) ms) ->
  enters m w (step w (ReceiveSettled wid (RecvData (Some ms)))).
Proof.
  intros HP Hd Hl Hs Hm Hin. simpl.
  pose proof (internal_drain w) as D1.
  eapply enters_after; [exact (internal_extends _ _ D1)|].
  eapply enters_before; [|exact (internal_extends _ _ (internal_drain _))].
  assert (HP1 : Pool (drain w)) by (now apply drain_effect).
  assert (Hd1 : _isDisposed (inst (drain w)) = false).
  { destruct D1 as (C & _). now rewrite (config_disposed _ _ C). }
  assert (Hm1 : _method (inst (drain w)) = Some h).
  { destruct D1 as (C & _). now rewrite (config_method _ _ C). }
  assert (Hn1 : next_item (drain w) = next_item w) by apply D1.
  pose proof (drain_keeps wid wk w HP Hl) as Hl1.
  destruct HP1 as (_ & _ & H3 & H4).
  destruct (H4 Hd1 wid wk pm im Hl1 Hs) as [-> ->].
  destruct (H3 Hd1) as (_ & _ & lg & Hlg).
  unfold receive_done. rewrite Hl1, Hs. simpl.
  unfold _processMessages, log_call. rewrite Hd1, Hlg.
  match goal with
  | |- context [map_items Proto wid ms ?v] =>
    assert (E : enters m v (fst (fst (map_items Proto wid ms v))))
      by (apply (map_items_enters wid h); simpl; [exact Hm1|eauto|];
          now rewrite Hn1);
    destruct (map_items Proto wid ms v) as [[w2 pending] rej] eqn:Em
  end.
  simpl in E.
  match type of E with
  | enters _ ?v _ =>
    apply (enters_after (fun _ => True) m (drain w) v);
      [exists [EvLog lg Info
                 [LStr "service.sqs._receiveMessages() :: Fetched";
                  LNum (Z.of_nat (length ms)); LStr " jobs to";
                  LStr " process for queue:";
                  LOpt (pathname (inst (drain w)))]];
       split; [reflexivity|repeat constructor]|]
  end.
  eapply enters_before; [exact E|].
  apply internal_extends.
  destruct rej as [err|]; [apply internal_worker_fail|].
  destruct pending; auto using internal_worker_finally, internal_workers.
Qed.

Lemma life_of_run (o : Opts) (w0 : World) (ins : list Input) (iid : nat) :
  boot o = inr w0 ->
  life (history iid (trace (run w0 ins))) (items (run w0 ins) !! iid).
Proof.
  intros Hb.
  destruct (Inv_run _ ins _ (Inv_boot _ _ Hb)) as ((L & _) & _). apply L.
Qed.


Lemma warned_tail (e : Event) (tr : list Event) : warned (e :: tr) -> warned tr.
Proof.
  destruct e; simpl; auto.
  destruct (JSON_parse (Body jobItem)); auto.
  destruct tr as [|[lg [] args| | | | | | | |] tr']; try contradiction.
  now intros [_ H].
Qed.

Lemma warned_split (t1 t2 : list Event) (iid : nat) (m : RawMessage) :
  warned (t1 ++ EvItem iid m :: t2) ->
  JSON_parse (Body m) = None ->
  exists lg pth t3, t2 = EvLog lg Warn (parse_warning pth m) :: t3.
Proof.
  induction t1 as [|e t1 IH]; intros H P.
  - simpl in H. rewrite P in H.
    destruct t2 as [|[lg [] args| | | | | | | |] t3]; try contradiction.
    destruct H as [[pth ->] _]. eauto.
  - apply IH; [|exact P]. exact (warned_tail _ _ H).
Qed.

Lemma history_In (iid : nat) (e : Event) (x : ItemEv) (tr : list Event) :
  In e tr -> about iid e = Some x -> In x (history iid tr).
Proof.
  intros Hin Ha. apply list_elem_of_In. unfold history.
  apply list_elem_of_omap. exists e. split; [|exact Ha].
  now apply list_elem_of_In.
Qed.

(** When the prototype's [_invokeMethod] is entered on an item whose body
    does not parse, the warning that carries the raw item is logged at
    once, and the trace never holds a handler invocation or a delete call
    for that item. *)
Theorem unparseable_item (o : Opts) (w0 : World) (ins : list Input)
  (t1 t2 : list Event) (iid : nat) (m : RawMessage) :
  boot o = inr w0 ->
  trace (run w0 ins) = t1 ++ EvItem iid m :: t2 ->
  JSON_parse (Body m) = None ->
  (exists lg pth t3, t2 = EvLog lg Warn (parse_warning pth m) :: t3) /\
  (forall h d, ~ In (EvInvoke iid h d) (trace (run w0 ins))) /\
  (forall p, ~ In (EvDelete iid p) (trace (run w0 ins))).
Proof.
  intros Hb HT P.
  destruct (Inv_run _ ins _ (Inv_boot _ _ Hb)) as ((L & _ & W) & _).
  split.
  { rewrite HT in W. exact (warned_split _ _ _ _ W P). }
  assert (Hd : In (Dispatched m) (history iid (trace (run w0 ins)))).
  { apply (history_In iid (EvItem iid m)).
    - rewrite HT. apply in_or_app. right. now left.
    - simpl. destruct (decide (iid = iid)); congruence. }
  assert (Hh : history iid (trace (run w0 ins)) = [Dispatched m]).
  { specialize (L iid).
    inversion L as [E|m' P' E|m' h d' wid P' E|m' h d' r P' E
                    |m' h d' u wid P' E|m' h d' u P' E];
      rewrite <- E in Hd; simpl in Hd;
      repeat (destruct Hd as [Hd|Hd]; try discriminate Hd);
      try contradiction; injection Hd as ->; congruence. }
  split.
  - intros h d Hin.
    apply (history_In iid _ (Invoked h d)) in Hin.
    + rewrite Hh in Hin. simpl in Hin. destruct Hin as [?|[]]. discriminate.
    + simpl. destruct (decide (iid = iid)); congruence.
  - intros p Hin.
    apply (history_In iid _ (Deleted p)) in Hin.
    + rewrite Hh in Hin. simpl in Hin. destruct Hin as [?|[]]. discriminate.
    + simpl. destruct (decide (iid = iid)); congruence.
Qed.

Lemma history_In_inv (iid : nat) (x : ItemEv) (tr : list Event) :
  In x (history iid tr) -> exists e, In e tr /\ about iid e = Some x.
Proof.
  intros H. apply list_elem_of_In in H. unfold history in H.
  apply list_elem_of_omap in H as (e & He & Ha). exists e.
  split; [now apply list_elem_of_In|exact Ha].
Qed.

Lemma about_Invoked (iid : nat) (e : Event) (h : Handler) (d : Json) :
  about iid e = Some (Invoked h d) -> e = EvInvoke iid h d.
Proof.
  destruct e; simpl; try discriminate; destruct (decide _); try discriminate.
  intros [= -> ->]. now subst.
Qed.

(** What the disposal does guarantee: no handler is invoked after it, and
    a delete call issued after it belongs to an item whose handler was
    invoked before it. *)
Theorem after_dispose (o : Opts) (w0 : World) (ins : list Input)
  (t1 t2 : list Event) :
  boot o = inr w0 ->
  trace (run w0 ins) = t1 ++ EvDisposed :: t2 ->
  (forall iid h d, ~ In (EvInvoke iid h d) t2) /\
  (forall iid p, In (EvDelete iid p) t2 -> exists h d, In (EvInvoke iid h d) t1).
Proof.
  intros Hb HT.
  destruct (Inv_run _ ins _ (Inv_boot _ _ Hb)) as ((L & _) & _ & _ & _ & HI).
  assert (H1 : forall iid h d, ~ In (EvInvoke iid h d) t2).
  { intros iid h d Hin. apply in_split in Hin as (a & b & ->).
    apply (HI (t1 ++ EvDisposed :: a) iid h d b).
    - rewrite HT, <- app_assoc. reflexivity.
    - apply in_or_app. right. now left. }
  split; [exact H1|].
  intros iid p Hin.
  assert (Hd : In (Deleted p) (history iid (trace (run w0 ins)))).
  { apply (history_In iid (EvDelete iid p)).
    - rewrite HT. apply in_or_app. right. now right.
    - simpl. destruct (decide (iid = iid)); congruence. }
  specialize (L iid).
  assert (Hv : exists h d, In (Invoked h d) (history iid (trace (run w0 ins)))).
  { inversion L as [E|m' P' E|m' h d' wid P' E|m' h d' r P' E
                    |m' h d' u wid P' E|m' h d' u P' E];
      rewrite <- E in Hd; simpl in Hd;
      repeat (destruct Hd as [Hd|Hd]; try discriminate Hd);
      try contradiction; exists h, d'; simpl; auto. }
  destruct Hv as (h & d & Hv).
  apply history_In_inv in Hv as (e & He & Ha).
  apply about_Invoked in Ha as ->. exists h, d.
  rewrite HT in He. apply in_app_or in He as [He|[He|He]].
  - exact He.
  - discriminate.
  - destruct (H1 _ _ _ He).
Qed.

Lemma boot_required (o : Opts) (w : World) :
  boot o = inr w -> 1 <= _longPollsRequired (inst w).
Proof.
  unfold boot, new_Sqs.
  destruct (Z.ltb_spec 10 (opt_concurrentOpsLimit o)) as [H|H].
  - destruct (negb _); [discriminate|]. intros [= <-]. simpl.
    rewrite Z.quot_div_nonneg by lia. apply Z.div_le_lower_bound; lia.
  - intros [= <-]. simpl. lia.
Qed.

(** The part of the bound on the worker counter that the code keeps: the
    counter is the number of workers of the table and never negative; it
    stays within [_longPollsRequired] on every run in which no pass is
    started while the fan-out of an earlier pass is still waiting for the
    queue: the queue is empty when [startFetch] is called, when a heartbeat
    fires and when an operation settles, and no two operations settle
    before the queue has run. *)
Theorem worker_pool_bound (o : Opts) (w0 : World) (ins : list Input) :
  boot o = inr w0 ->
  _longPollsInFlight (inst (run w0 ins)) = Z.of_nat (size (workers (run w0 ins)))
  /\ 0 <= _longPollsInFlight (inst (run w0 ins))
  /\ (serial w0 ins ->
      _longPollsInFlight (inst (run w0 ins))
      <= _longPollsRequired (inst (run w0 ins))).
Proof.
  intros Hb. pose proof (boot_required o w0 Hb) as Hr.
  pose proof (Pool_boot o w0 Hb) as HP.
  assert (HB : Budget w0).
  { apply boot_inr in Hb as (s & _ & -> & _ & _ & _ & _ & H0).
    unfold Budget, waiting. simpl in *. lia. }
  destruct (pool_run ins _ HP) as ((P1 & _) & _ & P3).
  split; [exact P1|]. split; [lia|].
  intros Hs. specialize (P3 Hs HB). unfold Budget in P3. lia.
Qed.

Lemma rem_divide_10 (L : Z) : Z.rem L 10 = 0 <-> (10 | L).
Proof. apply Z.rem_divide. lia. Qed.

(** C2.  For a positive limit, construction succeeds when the limit is
    at most 10 or a multiple of 10 above 10; for every other positive limit
    the constructor itself throws the configuration error, so there is no
    instance on which a fetch could start. *)
Theorem C2_construction (o : Opts) :
  let L := opt_concurrentOpsLimit o in
  0 < L ->
  ((L <= 10 \/ (10 < L /\ (10 | L))) -> exists s, new_Sqs o = inr s) /\
  (~ (L <= 10 \/ (10 < L /\ (10 | L))) ->
   new_Sqs o = inl (Error_ errMessage) /\ boot o = inl (Error_ errMessage)).
Proof.
  intros L HL. split.
  - intros [H|[H1 H2]].
    + destruct (new_Sqs_small o H) as (s & Hs & _). eauto.
    + apply rem_divide_10 in H2.
      destruct (new_Sqs_tens o H1 H2) as (s & Hs & _). eauto.
  - intros H.
    assert (E : new_Sqs o = inl (Error_ errMessage)).
    { apply new_Sqs_throws; [fold L; lia|]. fold L.
      rewrite rem_divide_10. intros Hd. apply H. right. split; [lia|exact Hd]. }
    split; [exact E|]. unfold boot. now rewrite E.
Qed.

(** C8, as amended.  For a positive limit, construction fails exactly when
    the limit is above 10 and not a multiple of 10; every limit from 1 to
    10 constructs an instance. *)
Theorem C8_invalid_limits (o : Opts) :
  let L := opt_concurrentOpsLimit o in
  0 < L ->
  ((exists e, new_Sqs o = inl e) <-> (10 < L /\ ~ (10 | L))) /\
  (L <= 10 -> exists s, new_Sqs o = inr s).
Proof.
  intros L HL. split; [split|].
  - intros [e He]. destruct (Z.le_gt_cases L 10) as [H|H].
    + destruct (new_Sqs_small o H) as (s & Hs & _). congruence.
    + split; [lia|]. intros Hd. apply rem_divide_10 in Hd.
      destruct (new_Sqs_tens o ltac:(fold L; lia) Hd) as (s & Hs & _).
      congruence.
  - intros [H1 H2]. exists (Error_ errMessage).
    apply new_Sqs_throws; [exact H1|]. fold L. now rewrite rem_divide_10.
  - intros H. destruct (new_Sqs_small o H) as (s & Hs & _). eauto.
Qed.

(** C5.  For a valid limit [L] the instance is constructed with
    [_longPollsRequired] equal to 1 when [L <= 10] and to [L / 10] when
    [L > 10]; every receive request of a run issued before the disposal
    asks for [min(10, L)] items, and the only other requests are those
    issued after the disposal, which name neither queue nor count: no
    request asks for more than [min(10, L)] items. *)
Theorem C5_budget (o : Opts) :
  let L := opt_concurrentOpsLimit o in
  0 < L ->
  L <= 10 \/ (10 < L /\ (10 | L)) ->
  exists w0,
    boot o = inr w0 /\
    _longPollsRequired (inst w0) = (if L <=? 10 then 1 else L / 10) /\
    forall ins t1 wid p t2,
      trace (run w0 ins) = t1 ++ EvReceive wid p :: t2 ->
      receive_ok L t1 p /\ asks_at_most p (Z.min 10 L).
Proof.
  intros L HL HV.
  assert (Hs : exists s, new_Sqs o = inr s /\
                 _longPollsRequired s = (if L <=? 10 then 1 else L / 10)).
  { destruct HV as [H|[H1 H2]].
    - destruct (new_Sqs_small o H) as (s & Hs & Hr & _). exists s.
      split; [exact Hs|]. destruct (Z.leb_spec L 10); [exact Hr|lia].
    - apply rem_divide_10 in H2.
      destruct (new_Sqs_tens o H1 H2) as (s & Hs & Hr & _). exists s.
      split; [exact Hs|]. destruct (Z.leb_spec L 10); [lia|].
      rewrite Hr. apply Z.quot_div_nonneg; lia. }
  destruct Hs as (s & Hs & Hr).
  exists (world_of (init s)).
  assert (Hb : boot o = inr (world_of (init s))) by (unfold boot; now rewrite Hs).
  split; [exact Hb|]. split; [exact Hr|].
  intros ins t1 wid p t2 HT.
  destruct (Inv_run _ ins _ (Inv_boot _ _ Hb)) as (_ & _ & _ & HR & _).
  pose proof (HR _ _ _ _ HT) as Hok. split; [exact Hok|].
  intros n Hn. fold L in Hok.
  destruct Hok as [(_ & Hm & _)|(_ & Hm & _)]; rewrite Hm in Hn.
  - injection Hn as <-. lia.
  - discriminate.
Qed.

Lemma dispose_disposed (w : World) : _isDisposed (inst (fst (dispose w))) = true.
Proof. unfold dispose. now destruct (_isDisposed (inst w)) eqn:E. Qed.

Lemma disposed_step (w : World) (i : Input) :
  _isDisposed (inst w) = true -> _isDisposed (inst (step w i)) = true.
Proof.
  intros H. pose proof (step_kept w i) as HK.
  destruct i;
    try (rewrite (config_disposed _ _ (proj1 HK)); exact H).
  - simpl. destruct (startFetch_effect method w)
      as [(_ & ->)|(_ & _ & -> & _)]; exact H.
  - simpl. apply dispose_disposed.
Qed.

Lemma disposed_run (ins : list Input) (w : World) :
  _isDisposed (inst w) = true -> _isDisposed (inst (run w ins)) = true.
Proof.
  revert w. induction ins as [|i ins IH]; intros w H; [exact H|].
  simpl. apply IH. now apply disposed_step.
Qed.

(** C9.  [dispose()] never fails, and on an instance that has been
    disposed of, whatever happened since, a further call changes nothing
    and does not fail either. *)
Theorem C9_dispose_idempotent (w : World) (ins : list Input) :
  let w1 := run (fst (dispose w)) ins in
  snd (dispose w) = None /\ dispose w1 = (w1, None).
Proof.
  split.
  - unfold dispose. now destruct (_isDisposed (inst w)).
  - unfold dispose at 1.
    now rewrite (disposed_run ins _ (dispose_disposed w)).
Qed.

(** C10.  On an instance that has been disposed of, whatever happened
    since, [createJob] returns a promise rejected with the error
    'Instance is disposed' and does nothing else: the world, and with it
    the trace of backend calls, is as it was. *)
Theorem C10_createJob_after_dispose (w : World) (ins : list Input)
  (data : Json) :
  let w1 := run (fst (dispose w)) ins in
  createJob data w1 = (w1, CreateRejected (Error_ "Instance is disposed")).
Proof.
  unfold createJob.
  now rewrite (disposed_run ins _ (dispose_disposed w)).
Qed.

Lemma mainLoop_spec (v : World) :
  _longPollsInFlight (inst (_mainLoop v)) = _longPollsInFlight (inst v) /\
  passes (_mainLoop v) = passes v /\
  trace (_mainLoop v) =
    trace v ++ [EvMainLoop (_longPollsRequired (inst v)
                            - _longPollsInFlight (inst v))].
Proof. unfold _mainLoop. destruct (_ <=? 0); simpl; auto. Qed.

Lemma mainLoop_catch_spec (err : Reason) (v : World) :
  exists logs,
    Forall is_log logs /\
    inst (mainLoop_catch err v) = inst v /\
    passes (mainLoop_catch err v) = passes v /\
    trace (mainLoop_catch err v) = trace v ++ logs.
Proof.
  unfold mainLoop_catch, log_call.
  destruct (_isDisposed (inst v));
    [|destruct err; [|destruct (log (inst v))]]; simpl.
  1, 2, 4: exists []; split_and!;
    [constructor|reflexivity|reflexivity|now rewrite app_nil_r].
  eexists [_]. split_and!; [|reflexivity..]. repeat constructor.
Qed.

(** C7, as amended.  A worker that settles, in success or in error,
    lowers [_longPollsInFlight] by one.  Whether an orchestration pass
    follows depends on its pass, the [.map] over the workers that were
    launched together.  A worker that settles after its pass has settled (a
    sibling was rejected earlier) does nothing more.  A worker that fulfils
    while siblings of its pass are outstanding only lowers the number of
    workers the pass waits for.  A worker that fulfils as the last of its
    pass, or that is rejected while the pass is pending, settles the pass,
    and the function that was given to the [.finally] of the pass is called
    at once, after the [.catch] of the pass if the worker was rejected: the
    prototype's [_mainLoop] computes the deficit from the decremented
    counter, and the function that [dispose] installs does nothing. *)
Theorem C7_worker_settles (wid : nat) (wk : Worker) (res : Settled)
  (w : World) :
  let w' := worker_finally wid wk res w in
  let n := _longPollsInFlight (inst w) - 1 in
  _longPollsInFlight (inst w') = n /\
  _longPollsRequired (inst w') = _longPollsRequired (inst w) /\
  match passes w !! w_pass wk with
  | None =>
    trace w' = trace w /\ fanouts w' = fanouts w /\ passes w' = passes w
  | Some p =>
    match res, p_remaining p with
    | None, S (S k) =>
      trace w' = trace w /\ fanouts w' = fanouts w /\
      passes w' = <[w_pass wk := mkPass (S k) (p_finally p)]> (passes w)
    | _, _ =>
      passes w' = delete (w_pass wk) (passes w) /\
      exists logs,
        Forall is_log logs /\
        (res = None -> logs = []) /\
        match p_finally p with
        | Proto =>
          trace w' =
            trace w ++ logs ++ [EvMainLoop (_longPollsRequired (inst w) - n)]
        | Inert =>
          trace w' = trace w ++ logs /\ fanouts w' = fanouts w
        end
    end
  end.
Proof.
  cbv zeta. unfold worker_finally, pass_settled. simpl.
  destruct (passes w !! w_pass wk) as [p|]; [|simpl; auto].
  assert (HM : forall v,
             _longPollsInFlight (inst v) = _longPollsInFlight (inst w) - 1 ->
             _longPollsRequired (inst v) = _longPollsRequired (inst w) ->
             passes v = delete (w_pass wk) (passes w) ->
             forall logs, Forall is_log logs ->
             (res = None -> logs = []) ->
             trace v = trace w ++ logs ->
             fanouts v = fanouts w ->
             _longPollsInFlight (inst (call_mainLoop (p_finally p) v))
             = _longPollsInFlight (inst w) - 1 /\
             _longPollsRequired (inst (call_mainLoop (p_finally p) v))
             = _longPollsRequired (inst w) /\
             passes (call_mainLoop (p_finally p) v)
             = delete (w_pass wk) (passes w) /\
             exists logs,
               Forall is_log logs /\
               (res = None -> logs = []) /\
               match p_finally p with
               | Proto =>
                 trace (call_mainLoop (p_finally p) v) =
                   trace w ++ logs
                   ++ [EvMainLoop (_longPollsRequired (inst w)
                                   - (_longPollsInFlight (inst w) - 1))]
               | Inert =>
                 trace (call_mainLoop (p_finally p) v) = trace w ++ logs /\
                 fanouts (call_mainLoop (p_finally p) v) = fanouts w
               end).
  { intros v H1 H2 H3 logs Hl Hn Ht Hf.
    destruct (p_finally p); simpl.
    - destruct (mainLoop_spec v) as (M1 & M2 & M3).
      destruct (mainLoop_view v) as (M4 & _).
      rewrite M1, M2, M3, M4, H1, H2, H3, Ht. split_and!; auto.
      exists logs. split_and!; auto. now rewrite <- app_assoc.
    - split_and!; auto. exists logs. split_and!; auto. }
  destruct res as [err|].
  - match goal with
    | |- context [mainLoop_catch err ?v] =>
      destruct (mainLoop_catch_spec err v) as (logs & Hl & C1 & C2 & C3);
      pose proof (view_mainLoop_catch err v) as V;
      apply view_fields in V as (_ & _ & _ & _ & Vf & _);
      destruct (HM (mainLoop_catch err v)) with (logs := logs)
        as (R1 & R2 & R3 & R4)
    end;
      rewrite ?C1, ?C2; simpl; auto; discriminate.
  - destruct (p_remaining p) as [|[|k]]; simpl; [| |auto];
      match goal with
      | |- context [call_mainLoop _ ?v] =>
        destruct (HM v) with (logs := @nil Event) as (R1 & R2 & R3 & R4)
      end; simpl; auto; now rewrite app_nil_r.
Qed.

(** ** Where the calls go *)

Lemma strict_config (s s' : Sqs) (e : Event) :
  config s' = config s -> strict s e -> strict s' e.
Proof.
  intros H. pose proof (config_log _ _ H). pose proof (config_method _ _ H).
  pose proof (config_limit _ _ H). pose proof (config_url _ _ H).
  pose proof (config_disposed _ _ H).
  destruct e; simpl; auto; try congruence.
Qed.

Lemma faithful_refl (w : World) : faithful w w.
Proof. unfold faithful. split_and!; auto using extends_refl. Qed.

Lemma faithful_trans (w1 w2 w3 : World) :
  faithful w1 w2 -> faithful w2 w3 -> faithful w1 w3.
Proof.
  intros (C1 & Q1 & B1 & I1 & N1 & E1) (C2 & Q2 & B2 & I2 & N2 & E2).
  unfold faithful.
  split_and!; try congruence.
  eapply extends_trans; [exact E1|].
  eapply extends_weaken; [|exact E2].
  intros e. apply strict_config. now symmetry.
Qed.

Lemma faithful_emit (e : Event) (w : World) :
  strict (inst w) e -> faithful w (emit e w).
Proof.
  intros H. unfold faithful. simpl. split_and!; auto.
  exists [e]. split; [reflexivity|]. now constructor.
Qed.

Ltac fa_leaf :=
  unfold faithful, extends; simpl; split_and!; try reflexivity;
  first
    [ exists []; split; [symmetry; apply app_nil_r | constructor]
    | eexists [_]; split; [reflexivity | repeat constructor; simpl; auto] ].

Lemma faithful_inFlight (n : Z) (w : World) :
  faithful w (set_inst (with_inFlight n (inst w)) w).
Proof. fa_leaf. Qed.

Lemma faithful_workers (k : gmap nat Worker) (w : World) :
  faithful w (set_workers k w).
Proof. fa_leaf. Qed.

Lemma faithful_passes (k : gmap nat Pass) (w : World) :
  faithful w (set_passes k w).
Proof. fa_leaf. Qed.

Lemma faithful_fanouts (k : list Fanout) (w : World) :
  faithful w (set_fanouts k w).
Proof. fa_leaf. Qed.

Lemma faithful_items (k : gmap nat Item) (w : World) :
  faithful w (set_items k w).
Proof. fa_leaf. Qed.

Lemma faithful_log (lvl : Level) (args : list LogArg) (w w' : World) :
  log_call lvl args w = Some w' -> faithful w w'.
Proof.
  intros H. apply log_call_Some in H as (lg & Hl & ->).
  now apply faithful_emit.
Qed.

Lemma faithful_mainLoop (w : World) : faithful w (_mainLoop w).
Proof.
  unfold _mainLoop.
  destruct (_ <=? 0).
  - apply faithful_emit. exact I.
  - eapply faithful_trans; [|apply faithful_fanouts].
    apply faithful_emit. exact I.
Qed.

Lemma faithful_call_mainLoop (f : Impl) (w : World) :
  faithful w (call_mainLoop f w).
Proof. destruct f; simpl; auto using faithful_mainLoop, faithful_refl. Qed.

Lemma faithful_receiveMessages (pid : nat) (w : World) :
  faithful w (_receiveMessages pid w).
Proof. unfold _receiveMessages. fa_leaf. Qed.

Lemma faithful_iter (pid : nat) (n : nat) (w : World) :
  faithful w (Nat.iter n (_receiveMessages pid) w).
Proof.
  induction n as [|n IH]; simpl; [apply faithful_refl|].
  eapply faithful_trans; [exact IH|apply faithful_receiveMessages].
Qed.

Lemma faithful_run_fanout (fo : Fanout) (w : World) :
  faithful w (run_fanout fo w).
Proof.
  unfold run_fanout.
  eapply faithful_trans; [|apply faithful_iter]. fa_leaf.
Qed.

Lemma faithful_fold_fanouts (fos : list Fanout) (w : World) :
  faithful w (fold_left (fun acc fo => run_fanout fo acc) fos w).
Proof.
  revert w. induction fos as [|fo fos IH]; intros w; simpl.
  - apply faithful_refl.
  - eapply faithful_trans; [apply faithful_run_fanout|apply IH].
Qed.

Lemma faithful_drain (w : World) : faithful w (drain w).
Proof.
  unfold drain.
  eapply faithful_trans; [apply faithful_fanouts|apply faithful_fold_fanouts].
Qed.

Lemma faithful_mainLoop_catch (err : Reason) (w : World) :
  faithful w (mainLoop_catch err w).
Proof.
  unfold mainLoop_catch.
  destruct (_isDisposed (inst w)); [apply faithful_refl|].
  destruct err as [|e]; [apply faithful_refl|].
  destruct (log_call _ _ w) eqn:E; [|apply faithful_refl].
  eapply faithful_log; eauto.
Qed.

Lemma faithful_pass_settled (pid : nat) (res : Settled) (w : World) :
  faithful w (pass_settled pid res w).
Proof.
  unfold pass_settled.
  destruct (passes w !! pid) as [p|]; [|apply faithful_refl].
  destruct res as [err|].
  - eapply faithful_trans; [apply faithful_passes|].
    eapply faithful_trans; [apply faithful_mainLoop_catch|].
    apply faithful_call_mainLoop.
  - destruct (p_remaining p) as [|[|n]];
      try (eapply faithful_trans;
           [apply faithful_passes|apply faithful_call_mainLoop]).
    apply faithful_passes.
Qed.

Lemma faithful_worker_finally (wid : nat) (wk : Worker) (res : Settled)
  (w : World) : faithful w (worker_finally wid wk res w).
Proof.
  unfold worker_finally.
  eapply faithful_trans; [|apply faithful_pass_settled].
  eapply faithful_trans; [apply faithful_workers|].
  apply (faithful_inFlight _ (set_workers _ w)).
Qed.

Lemma faithful_receive_catch (err : Reason) (w : World) :
  faithful w (fst (receive_catch err w)).
Proof.
  unfold receive_catch.
  destruct (_isDisposed (inst w)); [apply faithful_refl|].
  destruct err as [|e]; [apply faithful_refl|].
  destruct (ownError e); [apply faithful_refl|].
  destruct (log_call Error _ w) as [w1|] eqn:E1; [|apply faithful_refl].
  destruct (noStack e); [eapply faithful_log; eauto|].
  destruct (log_call Info _ w1) as [w2|] eqn:E2; simpl.
  - eapply faithful_trans; eapply faithful_log; eauto.
  - eapply faithful_log; eauto.
Qed.

Lemma faithful_worker_fail (wid : nat) (wk : Worker) (err : Reason)
  (w : World) : faithful w (worker_fail wid wk err w).
Proof.
  unfold worker_fail.
  pose proof (faithful_receive_catch err w) as H.
  destruct (receive_catch err w) as [w1 res]. simpl in H.
  eapply faithful_trans; [exact H|apply faithful_worker_finally].
Qed.

Lemma faithful_call_processMessages (f : Impl)
  (raw : option (list RawMessage)) (w : World) :
  faithful w (fst (call_processMessages f raw w)).
Proof.
  destruct f; simpl; [|apply faithful_refl]. unfold _processMessages.
  destruct (_isDisposed (inst w)); [apply faithful_refl|].
  destruct raw as [ms|]; [|apply faithful_refl].
  destruct (log_call Info _ w) eqn:E; [|apply faithful_refl].
  eapply faithful_log; eauto.
Qed.

Lemma faithful_item_settled (wid : nat) (res : Settled) (w : World) :
  faithful w (item_settled wid res w).
Proof.
  unfold item_settled.
  destruct (workers w !! wid) as [wk|]; [|apply faithful_refl].
  destruct (w_st wk) as [pm im|n]; [apply faithful_refl|].
  destruct res as [err|]; [apply faithful_worker_fail|].
  destruct n as [|[|k]];
    auto using faithful_worker_finally, faithful_workers.
Qed.

Lemma faithful_invokeMethod (wid : nat) (m : RawMessage) (w : World) :
  faithful w (fst (_invokeMethod wid m w)).
Proof.
  unfold _invokeMethod, log_call. simpl.
  destruct (JSON_parse (Body m)) as [d|]; simpl.
  - destruct (_method (inst w)) as [h|] eqn:M; simpl.
    + destruct (handler_throws (next_item w) h d) as [r|]; simpl.
      * unfold faithful, extends. simpl. split_and!; auto.
        exists [EvItem (next_item w) m; EvInvoke (next_item w) h d;
                EvHandlerSettled (next_item w) (Some r)].
        split; [now rewrite <- !app_assoc|]. repeat constructor. exact M.
      * unfold faithful, extends. simpl. split_and!; auto.
        exists [EvItem (next_item w) m; EvInvoke (next_item w) h d].
        split; [now rewrite <- app_assoc|]. repeat constructor. exact M.
    + fa_leaf.
  - destruct (log (inst w)) as [lg|] eqn:Lg; simpl.
    + unfold faithful, extends. simpl. split_and!; auto.
      eexists [_; _]. split; [now rewrite <- app_assoc|].
      repeat constructor. exact Lg.
    + fa_leaf.
Qed.

Lemma faithful_map_items (f : Impl) (wid : nat) (ms : list RawMessage)
  (w : World) :
  faithful w (fst (fst (map_items f wid ms w))).
Proof.
  apply (map_items_inv (faithful w)); [|apply faithful_refl].
  intros m v H.
  eapply faithful_trans; [exact H|apply faithful_invokeMethod].
Qed.

Lemma faithful_receive_done (wid : nat) (r : ReceiveResult) (w : World) :
  faithful w (receive_done wid r w).
Proof.
  unfold receive_done.
  destruct (workers w !! wid) as [wk|]; [|apply faithful_refl].
  destruct (w_st wk) as [pm im|n]; [|apply faithful_refl].
  destruct r as [err|raw]; [apply faithful_worker_fail|].
  pose proof (faithful_call_processMessages pm raw w) as H1.
  destruct (call_processMessages pm raw w) as [w1 [err|ms]]; simpl in H1.
  - eapply faithful_trans; [exact H1|apply faithful_worker_fail].
  - eapply faithful_trans; [exact H1|].
    pose proof (faithful_map_items im wid ms w1) as H2.
    destruct (map_items im wid ms w1) as [[w2 pending] rej]. simpl in H2.
    eapply faithful_trans; [exact H2|].
    destruct rej as [err|]; [apply faithful_worker_fail|].
    destruct pending; auto using faithful_worker_finally, faithful_workers.
Qed.

Lemma faithful_handler_done (iid : nat) (res : Settled) (w : World) :
  faithful w (handler_done iid res w).
Proof.
  unfold handler_done.
  destruct (items w !! iid) as [it|]; [|apply faithful_refl].
  destruct (i_st it); [|apply faithful_refl].
  destruct res as [err|].
  - eapply faithful_trans;
      [apply (faithful_emit (EvHandlerSettled iid (Some err))); exact I|].
    eapply faithful_trans; [apply faithful_items|].
    apply faithful_item_settled.
  - eapply faithful_trans;
      [apply (faithful_emit (EvHandlerSettled iid None)); exact I|].
    eapply faithful_trans; [|apply faithful_items].
    unfold _completeJob. apply faithful_emit. reflexivity.
Qed.

Lemma faithful_delete_done (iid : nat) (res : Settled) (w : World) :
  faithful w (delete_done iid res w).
Proof.
  unfold delete_done.
  destruct (items w !! iid) as [it|]; [|apply faithful_refl].
  destruct (i_st it); [apply faithful_refl|].
  eapply faithful_trans; [apply faithful_items|].
  destruct res as [err|].
  - destruct (log_call Error _ _) as [w2|] eqn:El.
    + eapply faithful_trans; [eapply faithful_log; exact El|].
      apply faithful_item_settled.
    + apply faithful_item_settled.
  - apply faithful_item_settled.
Qed.

Lemma faithful_createJob (data : Json) (w : World) :
  faithful w (fst (createJob data w)).
Proof.
  unfold createJob.
  destruct (_isDisposed (inst w)) eqn:Ed; [apply faithful_refl|].
  destruct (log_call Info _ w) as [w1|] eqn:E; [|apply faithful_refl]. simpl.
  pose proof E as E'. apply log_call_Some in E' as (lg & _ & ->).
  eapply faithful_trans; [eapply faithful_log; exact E|].
  apply faithful_emit. simpl. auto.
Qed.

Lemma step_faithful (w : World) (i : Input) :
  match i with
  | CallStartFetch _ | CallDispose => True
  | _ => faithful w (step w i)
  end.
Proof.
  destruct i; simpl; auto.
  - apply faithful_createJob.
  - destruct (intervals w !! t); [|apply faithful_refl].
    apply faithful_call_mainLoop.
  - apply faithful_drain.
  - eapply faithful_trans; [apply faithful_drain|].
    eapply faithful_trans; [apply faithful_receive_done|].
    apply faithful_drain.
  - eapply faithful_trans; [apply faithful_drain|].
    eapply faithful_trans; [apply faithful_handler_done|].
    apply faithful_drain.
  - eapply faithful_trans; [apply faithful_drain|].
    eapply faithful_trans; [apply faithful_delete_done|].
    apply faithful_drain.
  - eapply faithful_trans; [|apply faithful_drain].
    generalize w. induction ss as [|s ss IH]; intros v;
      [apply faithful_refl|].
    eapply faithful_trans; [|apply IH].
    destruct s; simpl;
      auto using faithful_receive_done, faithful_handler_done,
        faithful_delete_done.
Qed.

Lemma strict_not_disposed (s : Sqs) (evs : list Event) :
  Forall (strict s) evs -> ~ In EvDisposed evs.
Proof.
  induction 1 as [|e evs He _ IH]; simpl; [tauto|].
  intros [->|H]; [exact He|exact (IH H)].
Qed.

Lemma config_entry (s s' : Sqs) :
  config s' = config s ->
  slot_startFetch s' = slot_startFetch s /\ slot_mainLoop s' = slot_mainLoop s.
Proof. unfold config. intros H. now injection H. Qed.

Lemma Sound_faithful (o : Opts) (w w' : World) :
  faithful w w' -> Sound o w -> Sound o w'.
Proof.
  intros (C & Q & B & _ & _ & evs & HT & HF) H. unfold Sound.
  destruct (config_entry _ _ C) as [S1 S2].
  rewrite HT, B, Q, S1, S2, (config_disposed _ _ C), (config_log _ _ C),
    (config_url _ _ C).
  destruct H as [(H1 & H2 & H3 & H4 & H5 & H6 & H7)
                |(H1 & H2 & H3 & H4 & H5 & H6 & H7)].
  - left. split_and!; auto. intros Hin. apply in_app_or in Hin as [Hin|Hin].
    + exact (H6 Hin).
    + exact (strict_not_disposed _ _ HF Hin).
  - right. split_and!; auto. apply in_or_app. now left.
Qed.

Lemma Disciplined_extend (o : Opts) (evs : list Event) (w w' : World) :
  Disciplined o w ->
  trace w' = trace w ++ evs ->
  (forall t1 e t2, evs = t1 ++ e :: t2 -> call_ok o (trace w ++ t1) e) ->
  Disciplined o w'.
Proof.
  intros HD HT HE t1 e t2 H. rewrite HT in H.
  apply split_app in H as [(t2' & H & _)|(t1' & -> & H)].
  - exact (HD _ _ _ H).
  - exact (HE _ _ _ H).
Qed.

Lemma Disciplined_faithful (o : Opts) (w w' : World) :
  faithful w w' -> Sound o w -> Disciplined o w -> Disciplined o w'.
Proof.
  intros (_ & _ & _ & _ & _ & evs & HT & HF) HS HD.
  apply (Disciplined_extend o evs w w' HD HT).
  intros t1 e t2 ->.
  apply Forall_app in HF as [HF1 HF2].
  apply Forall_cons in HF2 as [He _].
  assert (Hfresh : ~ In EvDisposed (trace w) -> ~ In EvDisposed (trace w ++ t1)).
  { intros Hn Hin. apply in_app_or in Hin as [Hin|Hin]; [exact (Hn Hin)|].
    exact (strict_not_disposed _ _ HF1 Hin). }
  assert (Hlive : ~ In EvDisposed (trace w ++ t1) ->
                  url (inst w) = Some (sqsUrl o)).
  { intros Hn.
    destruct HS as [(_ & _ & H3 & _)|(_ & _ & _ & _ & _ & _ & H7)];
      [exact H3|].
    destruct Hn. apply in_or_app. now left. }
  destruct e; simpl in *; auto.
  - destruct HS as [(_ & H2 & _ & _ & _ & H6 & _)|(_ & H2 & _)];
      [|congruence].
    split; [congruence|auto].
  - subst p. simpl. split; [reflexivity|exact Hlive].
  - intros Hn. rewrite He. auto.
  - destruct He as (Hu & Hz & Hd).
    destruct HS as [(_ & _ & H3 & _ & _ & H6 & _)|(H1 & _)]; [|congruence].
    split_and!; auto. congruence.
Qed.

Lemma Disciplined_plain (o : Opts) (evs : list Event) (w w' : World) :
  Disciplined o w ->
  trace w' = trace w ++ evs ->
  Forall (fun e => match e with
                   | EvMainLoop _ | EvDisposed => True
                   | _ => False
                   end) evs ->
  Disciplined o w'.
Proof.
  intros HD HT HF. apply (Disciplined_extend o evs w w' HD HT).
  intros t1 e t2 ->. apply Forall_app in HF as [_ HF].
  apply Forall_cons in HF as [He _]. destruct e; simpl; auto; contradiction.
Qed.

Lemma startFetch_Proto (h : Handler) (w : World) :
  slot_startFetch (inst w) = Proto ->
  inst (startFetch h w)
  = with_interval (Some (next_timer w)) (with_method (Some h) (inst w)) /\
  intervals (startFetch h w)
  = <[next_timer w := slot_mainLoop (inst w)]> (intervals w) /\
  next_timer (startFetch h w) = S (next_timer w).
Proof.
  intros H. unfold startFetch. rewrite H. simpl.
  destruct (slot_mainLoop (inst w)) eqn:E; simpl; rewrite ?E;
    [|split_and!; reflexivity].
  unfold _mainLoop. simpl.
  destruct (_ <=? 0); simpl; rewrite ?E; split_and!; reflexivity.
Qed.

Lemma Sound_step (o : Opts) (w : World) (i : Input) :
  Sound o w -> Sound o (step w i).
Proof.
  intros HS. pose proof (step_faithful w i) as HK.
  destruct i; try (apply (Sound_faithful o _ _ HK HS)).
  - simpl. destruct (startFetch_effect method w)
      as [(_ & ->)|(Hp & _ & _ & _ & _ & _ & _ & _ & evs & HT & HF)];
      [exact HS|].
    destruct (startFetch_Proto method w Hp) as (Hi & _).
    destruct HS as [(H1 & H2 & H3 & H4 & H5 & H6 & H7)|(_ & _ & _ & H4 & _)];
      [|congruence].
    left. rewrite Hi, HT. simpl. split_and!; auto.
    intros Hin. apply in_app_or in Hin as [Hin|Hin]; [exact (H6 Hin)|].
    rewrite Forall_forall in HF. apply list_elem_of_In in Hin.
    destruct (HF _ Hin) as [d Hd']. discriminate.
  - simpl. unfold dispose. destruct (_isDisposed (inst w)) eqn:E; simpl;
      [exact HS|].
    right. simpl. split_and!; auto. apply in_or_app. right. now left.
Qed.

Lemma Disciplined_step (o : Opts) (w : World) (i : Input) :
  Sound o w -> Disciplined o w -> Disciplined o (step w i).
Proof.
  intros HS HD. pose proof (step_faithful w i) as HK.
  destruct i; try (apply (Disciplined_faithful o _ _ HK HS HD)).
  - simpl. destruct (startFetch_effect method w)
      as [(_ & ->)|(_ & _ & _ & _ & _ & _ & _ & _ & evs & HT & HF)];
      [exact HD|].
    apply (Disciplined_plain o evs w _ HD HT).
    eapply Forall_impl; [exact HF|]. now intros e [d ->].
  - simpl. unfold dispose. destruct (_isDisposed (inst w)); [exact HD|].
    apply (Disciplined_plain o [EvDisposed] w _ HD); [reflexivity|].
    now repeat constructor.
Qed.

Lemma Sound_boot (o : Opts) (w : World) :
  boot o = inr w -> Sound o w /\ Disciplined o w.
Proof.
  intros H. apply boot_inr in H as (s & Hn & -> & Hd & Hl & Hu & Hlg & _).
  split.
  - left. simpl. rewrite Hd, Hu, Hlg. split_and!; auto.
    + unfold new_Sqs in Hn.
      destruct (10 <? _); [destruct (negb _); [discriminate|]|];
        now injection Hn as <-.
    + unfold new_Sqs in Hn.
      destruct (10 <? _); [destruct (negb _); [discriminate|]|];
        now injection Hn as <-.
  - intros t1 e t2 Ht. simpl in Ht. now destruct t1.
Qed.

Lemma Sound_run (o : Opts) (ins : list Input) (w : World) :
  Sound o w -> Disciplined o w ->
  Sound o (run w ins) /\ Disciplined o (run w ins).
Proof.
  revert w. induction ins as [|i ins IH]; intros w HS HD; [auto|].
  simpl. apply IH; [now apply Sound_step|now apply Disciplined_step].
Qed.

(** Every logger call of a run is a call of the logger given to the
    constructor, and none comes after the disposal. *)
Theorem logs_to_the_logger (o : Opts) (w0 : World) (ins : list Input)
  (t1 t2 : list Event) (lg : Logger) (lvl : Level) (args : list LogArg) :
  boot o = inr w0 ->
  trace (run w0 ins) = t1 ++ EvLog lg lvl args :: t2 ->
  lg = logger o /\ ~ In EvDisposed t1.
Proof.
  intros Hb HT. destruct (Sound_boot o w0 Hb) as [HS HD].
  destruct (Sound_run o ins w0 HS HD) as [_ HD'].
  exact (HD' _ _ _ HT).
Qed.

(** Every receive request waits 10 seconds; every receive, delete and
    send call issued before the disposal names the queue URL given to the
    constructor; no send call is issued after the disposal, and every send
    call has a delay of 0. *)
Theorem calls_name_the_queue (o : Opts) (w0 : World) (ins : list Input)
  (t1 t2 : list Event) (e : Event) :
  boot o = inr w0 ->
  trace (run w0 ins) = t1 ++ e :: t2 ->
  match e with
  | EvReceive _ p =>
    WaitTimeSeconds p = 10 /\
    (~ In EvDisposed t1 -> rp_QueueUrl p = Some (sqsUrl o))
  | EvDelete _ p => ~ In EvDisposed t1 -> dp_QueueUrl p = Some (sqsUrl o)
  | EvSend p =>
    ~ In EvDisposed t1 /\ sp_QueueUrl p = Some (sqsUrl o) /\ DelaySeconds p = 0
  | _ => True
  end.
Proof.
  intros Hb HT. destruct (Sound_boot o w0 Hb) as [HS HD].
  destruct (Sound_run o ins w0 HS HD) as [_ HD'].
  specialize (HD' _ _ _ HT). destruct e; simpl in *; auto.
Qed.

(** ** The heartbeat *)

Lemma Timers_step (o : Opts) (w : World) (i : Input) :
  Sound o w -> Timers w -> Timers (step w i).
Proof.
  intros HS HT. pose proof (step_faithful w i) as HK.
  destruct i;
    try (destruct HK as (_ & _ & _ & HI & _); unfold Timers; rewrite HI;
         exact HT).
  - simpl. destruct (startFetch_effect method w) as [(_ & ->)|(Hp & _)];
      [exact HT|].
    destruct (startFetch_Proto method w Hp) as (_ & Hi & _).
    intros t f. rewrite Hi.
    destruct (decide (next_timer w = t)) as [<-|Hne].
    + rewrite lookup_insert_eq. intros [= <-].
      destruct HS as [(_ & _ & _ & _ & H5 & _)|(_ & _ & _ & H4 & _)];
        [exact H5|congruence].
    + rewrite lookup_insert_ne by exact Hne. apply HT.
  - simpl. unfold dispose. destruct (_isDisposed (inst w)); [exact HT|].
    unfold Timers, clearInterval. simpl. intros t f.
    destruct (_heartbeatInterval (inst w)) as [k|]; [|apply HT].
    intros H. apply lookup_delete_Some in H as [_ H]. exact (HT _ _ H).
Qed.

Lemma Timers_run (o : Opts) (ins : list Input) (w : World) :
  Sound o w -> Timers w -> Timers (run w ins).
Proof.
  revert w. induction ins as [|i ins IH]; intros w HS HT; [exact HT|].
  simpl. apply IH; [now apply Sound_step|now apply (Timers_step o)].
Qed.

Lemma drain_inFlight (w : World) :
  _longPollsInFlight (inst (drain w))
  = _longPollsInFlight (inst w) + Z.of_nat (waiting w).
Proof.
  unfold drain, waiting.
  destruct (fold_fanouts_effect (fanouts w) (set_fanouts [] w)) as (_ & I2 & _).
  cbv zeta in I2. exact I2.
Qed.

(** When the heartbeat fires while no fan-out is waiting, the number of
    long polls in flight is brought up to the number required as soon as the
    queue has run; it is never brought down. *)
Theorem heartbeat_tops_up (o : Opts) (w0 : World) (ins : list Input)
  (t : nat) :
  boot o = inr w0 ->
  fanouts (run w0 ins) = [] ->
  is_Some (intervals (run w0 ins) !! t) ->
  _longPollsInFlight (inst (run (run w0 ins) [TimerFired t; QueueDrained]))
  = Z.max (_longPollsInFlight (inst (run w0 ins)))
          (_longPollsRequired (inst (run w0 ins))).
Proof.
  intros Hb Hf [f Ht]. destruct (Sound_boot o w0 Hb) as [HS _].
  assert (HT : Timers (run w0 ins)).
  { apply (Timers_run o); [exact HS|].
    apply boot_inr in Hb as (s & _ & -> & _). intros k g. simpl.
    now rewrite lookup_empty. }
  rewrite (HT _ _ Ht) in Ht. clear HT HS Hb.
  generalize dependent (run w0 ins). intros w Hf Ht.
  unfold run. simpl. rewrite Ht. simpl.
  rewrite drain_inFlight. unfold waiting, _mainLoop. simpl. rewrite Hf.
  destruct (Z.leb_spec (_longPollsRequired (inst w)
                        - _longPollsInFlight (inst w)) 0);
    simpl; rewrite ?Hf; simpl; lia.
Qed.

Lemma OneTimer_run (o : Opts) (ins : list Input) (w : World) :
  Sound o w ->
  (intervals w = ∅ /\ (starts ins <= 1)%nat) \/
  (OneTimer w /\ starts ins = 0%nat) ->
  OneTimer (run w ins).
Proof.
  revert w. induction ins as [|i ins IH]; intros w HS H.
  - destruct H as [[H _]|[H _]]; [|exact H].
    intros t. simpl. rewrite H, lookup_empty. now intros [? ?].
  - simpl. apply IH; [now apply Sound_step|].
    pose proof (step_faithful w i) as HK.
    destruct i; simpl in H;
      try (destruct HK as (_ & _ & HB & HI & _);
           destruct H as [[H1 H2]|[H1 H2]];
           [left; split; [congruence|exact H2]
           |right; split; [|exact H2]; unfold OneTimer; rewrite HI, HB;
            exact H1]).
    + destruct H as [[H1 H2]|[_ H2]]; [|discriminate].
      simpl. destruct (startFetch_effect method w) as [(_ & ->)|(Hp & _)].
      * left. split; [exact H1|lia].
      * destruct (startFetch_Proto method w Hp) as (Hi & Hv & _).
        right. split; [|lia]. intros t. rewrite Hi, Hv, H1. simpl.
        destruct (decide (next_timer w = t)) as [<-|Hne]; [reflexivity|].
        rewrite lookup_insert_ne, lookup_empty by exact Hne. now intros [? ?].
    + left. simpl. unfold dispose.
      destruct (_isDisposed (inst w)) eqn:Ed; simpl.
      * destruct H as [[H1 H2]|[H1 H2]]; [split; [exact H1|exact H2]|].
        split; [|lia]. apply map_empty. intros t.
        destruct (intervals w !! t) eqn:E; [|reflexivity].
        specialize (H1 t (ex_intro _ _ E)).
        destruct HS as [(Hl & _)|(_ & _ & _ & _ & _ & Hn & _)]; congruence.
      * assert (Hs : (starts ins <= 1)%nat) by (destruct H as [[_ ?]|[_ ?]]; lia).
        split; [|exact Hs]. unfold clearInterval.
        destruct H as [[H1 _]|[H1 _]].
        { rewrite H1. destruct (_heartbeatInterval (inst w)); [|reflexivity].
          apply delete_empty. }
        apply map_empty. intros t.
        destruct (_heartbeatInterval (inst w)) as [k|] eqn:Ek.
        -- destruct (decide (k = t)) as [->|Hne];
             [apply lookup_delete_eq|].
           rewrite lookup_delete_ne by exact Hne.
           destruct (intervals w !! t) eqn:E; [|reflexivity].
           specialize (H1 t (ex_intro _ _ E)). congruence.
        -- destruct (intervals w !! t) eqn:E; [|reflexivity].
           specialize (H1 t (ex_intro _ _ E)). congruence.
Qed.

(** On a run with at most one call of [startFetch], no timer is armed once
    the instance is disposed of: a heartbeat that fires finds nothing to
    run. *)
Theorem dispose_stops_heartbeat (o : Opts) (w0 : World) (ins : list Input) :
  boot o = inr w0 ->
  (starts ins <= 1)%nat ->
  _isDisposed (inst (run w0 ins)) = true ->
  intervals (run w0 ins) = ∅ /\
  forall t, step (run w0 ins) (TimerFired t) = run w0 ins.
Proof.
  intros Hb Hs Hd. destruct (Sound_boot o w0 Hb) as [HS HD].
  destruct (Sound_run o ins w0 HS HD) as [HS' _].
  assert (H1 : OneTimer (run w0 ins)).
  { apply (OneTimer_run o); [exact HS|]. left. split; [|exact Hs].
    apply boot_inr in Hb as (s & _ & -> & _). reflexivity. }
  assert (He : intervals (run w0 ins) = ∅).
  { apply map_empty. intros t.
    destruct (intervals (run w0 ins) !! t) eqn:E; [|reflexivity].
    specialize (H1 t (ex_intro _ _ E)).
    destruct HS' as [(Hl & _)|(_ & _ & _ & _ & _ & Hn & _)]; congruence. }
  split; [exact He|]. intros t. simpl. now rewrite He, lookup_empty.
Qed.

(** [startFetch] on a disposed instance does nothing: no handler is
    stored, no pass is started and no timer is armed. *)
Theorem startFetch_after_dispose (o : Opts) (w0 : World) (ins : list Input)
  (h : Handler) :
  boot o = inr w0 ->
  _isDisposed (inst (run w0 ins)) = true ->
  step (run w0 ins) (CallStartFetch h) = run w0 ins.
Proof.
  intros Hb Hd. destruct (Sound_boot o w0 Hb) as [HS HD].
  destruct (Sound_run o ins w0 HS HD) as [[(Hl & _)|(_ & _ & _ & H4 & _)] _];
    [congruence|].
  simpl. unfold startFetch. now rewrite H4.
Qed.

(** ** From [createJob] to the handler *)

Lemma run_app (w : World) (a b : list Input) :
  run (run w a) b = run w (a ++ b).
Proof. unfold run. now rewrite fold_left_app. Qed.

Lemma life_invoked (iid : nat) (m : RawMessage) (d : Json) (tr : list Event)
  (it : option Item) :
  life (history iid tr) it ->
  In (EvItem iid m) tr ->
  JSON_parse (Body m) = Some d ->
  exists h, In (EvInvoke iid h d) tr.
Proof.
  intros L Hin P.
  assert (Hd : In (Dispatched m) (history iid tr)).
  { apply (history_In iid (EvItem iid m)); [exact Hin|].
    simpl. destruct (decide (iid = iid)); congruence. }
  assert (Hv : exists h, In (Invoked h d) (history iid tr)).
  { inversion L as [E|m' P' E|m' h d' wid P' E|m' h d' r P' E
                    |m' h d' u wid P' E|m' h d' u P' E];
      rewrite <- E in Hd; simpl in Hd;
      repeat (destruct Hd as [Hd|Hd]; try discriminate Hd);
      try contradiction; injection Hd as ->;
      try congruence;
      assert (d' = d) by congruence; subst d'; exists h; simpl; auto. }
  destruct Hv as (h & Hv).
  apply history_In_inv in Hv as (e & He & Ha).
  apply about_Invoked in Ha as ->. eauto.
Qed.

(** A job given to [createJob] on a live instance is sent with the
    serialised payload as its body; when a long poll of a live instance
    later brings back a batch with a message of that body, and no message
    before it in the batch makes the handler throw, the handler is invoked
    with the payload that was given to [createJob], provided the payload
    survives [JSON.stringify] followed by [JSON.parse]. *)
Theorem job_round_trip (o : Opts) (w0 : World) (ins1 ins2 : list Input)
  (data : Json) (wid : nat) (wk : Worker) (pm im : Impl) (h : Handler)
  (ms : list RawMessage) (m : RawMessage) :
  boot o = inr w0 ->
  JSON_parse (JSON_stringify data) = Some data ->
  _isDisposed (inst (run w0 ins1)) = false ->
  let w2 := step (run w0 ins1) (CallCreateJob data) in
  let w3 := run w2 ins2 in
  let w4 := step w3 (ReceiveSettled wid (RecvData (Some ms))) in
  (exists lg args,
     trace w2 = trace (run w0 ins1)
                ++ [EvLog lg Info args;
                    EvSend (mkSend (JSON_stringify data) (Some (sqsUrl o)) 0)]) /\
  (_isDisposed (inst w3) = false ->
   workers w3 !! wid = Some wk ->
   w_st wk = Polling pm im ->
   _method (inst w3) = Some h ->
   In m (reached h (next_item w3) ms) ->
   Body m = JSON_stringify data ->
   exists iid h', In (EvItem iid m) (trace w4) /\
                  In (EvInvoke iid h' data) (trace w4)).
Proof.
  intros Hb Hrt Hd w2 w3 w4. split.
  - destruct (Sound_boot o w0 Hb) as [HS HD].
    destruct (Sound_run o ins1 w0 HS HD)
      as [[(_ & Hl & Hu & _)|(H1 & _)] _]; [|congruence].
    subst w2. simpl. unfold createJob, log_call. rewrite Hd, Hl. simpl.
    rewrite Hu, <- app_assoc. eauto.
  - intros Hd3 Hl Hs Hm Hin Hbody.
    assert (E3 : w3 = run w0 (ins1 ++ CallCreateJob data :: ins2)).
    { subst w3 w2. change (step (run w0 ins1) (CallCreateJob data))
        with (run (run w0 ins1) [CallCreateJob data]).
      rewrite !run_app. reflexivity. }
    assert (E4 : w4 = run w0 ((ins1 ++ CallCreateJob data :: ins2)
                              ++ [ReceiveSettled wid (RecvData (Some ms))])).
    { subst w4 w3 w2. rewrite <- !run_app. reflexivity. }
    assert (HP : Pool w3).
    { rewrite E3. now apply pool_run, (Pool_boot o). }
    destruct (batch_enters w3 wid wk pm im h ms m HP Hd3 Hl Hs Hm Hin)
      as (iid & t1 & t2 & HT).
    fold w4 in HT.
    assert (Hi : In (EvItem iid m) (trace w4)).
    { rewrite HT. apply in_or_app. right. apply in_or_app. right. now left. }
    pose proof (life_of_run o w0
                  ((ins1 ++ CallCreateJob data :: ins2)
                   ++ [ReceiveSettled wid (RecvData (Some ms))]) iid Hb) as L.
    rewrite <- E4 in L.
    rewrite <- Hbody in Hrt.
    destruct (life_invoked iid m data _ _ L Hi Hrt) as (h' & Hh). eauto.
Qed.

(** ** What the handler is called with *)

Lemma about_Dispatched (iid : nat) (e : Event) (m : RawMessage) :
  about iid e = Some (Dispatched m) -> e = EvItem iid m.
Proof.
  destruct e; simpl; try discriminate; destruct (decide _); try discriminate.
  intros [= ->]. now subst.
Qed.

Lemma life_before_invoke (iid : nat) (h : Handler) (d : Json)
  (t1 t2 : list Event) (it : option Item) :
  life (history iid (t1 ++ EvInvoke iid h d :: t2)) it ->
  exists m, In (EvItem iid m) t1 /\ JSON_parse (Body m) = Some d.
Proof.
  rewrite history_app. simpl. destruct (decide (iid = iid)); [|congruence].
  simpl. intros L.
  assert (H : exists m, history iid t1 = [Dispatched m]
                        /\ JSON_parse (Body m) = Some d).
  { destruct (history iid t1) as [|x [|y l]];
      inversion L; subst; simplify_eq; eauto;
      destruct l as [|z [|z' l]]; simplify_eq;
      simpl in *; destruct l; simplify_eq. }
  destruct H as (m & Hh & P). exists m. split; [|exact P].
  assert (Hin : In (Dispatched m) (history iid t1))
    by (rewrite Hh; now left).
  apply history_In_inv in Hin as (e' & He & Ha).
  now apply about_Dispatched in Ha as ->.
Qed.

Lemma Genuine_step (ins : list Input) (i : Input) (w : World) :
  Genuine ins w -> Genuine (ins ++ [i]) (step w i).
Proof.
  intros [G1 G2]. pose proof (step_faithful w i) as HK.
  assert (Hw : forall x, In x ins -> In x (ins ++ [i]))
    by (intros x Hx; apply in_or_app; now left).
  destruct i;
    try (destruct HK as (C & _ & _ & _ & _ & evs & HT & HF); split;
         [intros h Hh; rewrite (config_method _ _ C) in Hh;
          exact (Hw _ (G1 _ Hh))
         |intros j h d Hin; rewrite HT in Hin;
          apply in_app_or in Hin as [Hin|Hin];
          [exact (Hw _ (G2 _ _ _ Hin))|];
          rewrite Forall_forall in HF; apply list_elem_of_In in Hin;
          exact (Hw _ (G1 _ (HF _ Hin)))]).
  - simpl. destruct (startFetch_effect method w)
      as [(_ & ->)|(_ & Hm & _ & _ & _ & _ & _ & _ & evs & HT & HF)];
      [split; eauto|].
    split.
    + intros h Hh. rewrite Hm in Hh. injection Hh as <-.
      apply in_or_app. right. now left.
    + intros iid h d Hin. rewrite HT in Hin.
      apply in_app_or in Hin as [Hin|Hin]; [eauto|].
      rewrite Forall_forall in HF. apply list_elem_of_In in Hin.
      destruct (HF _ Hin) as [k Hk]. discriminate.
  - simpl. unfold dispose. destruct (_isDisposed (inst w)); simpl;
      [split; eauto|].
    split; [discriminate|].
    intros iid h d Hin. apply in_app_or in Hin as [Hin|[Hin|[]]]; [eauto|].
    discriminate.
Qed.

Lemma Genuine_run (o : Opts) (w0 : World) (ins : list Input) :
  boot o = inr w0 -> Genuine ins (run w0 ins).
Proof.
  intros Hb. induction ins as [|i ins IH] using rev_ind.
  - apply boot_inr in Hb as (s & Hn & -> & _). split.
    + simpl. unfold new_Sqs in Hn.
      destruct (10 <? _); [destruct (negb _); [discriminate|]|];
        injection Hn as <-; discriminate.
    + intros iid h d [].
  - rewrite <- run_app. now apply Genuine_step.
Qed.

(** Every invocation of a handler in a run calls a function that was given
    to [startFetch] in that run, on an item that [_invokeMethod] was entered
    on before, with the payload that the body of that item parses to. *)
Theorem invocations_are_genuine (o : Opts) (w0 : World) (ins : list Input)
  (t1 t2 : list Event) (iid : nat) (h : Handler) (d : Json) :
  boot o = inr w0 ->
  trace (run w0 ins) = t1 ++ EvInvoke iid h d :: t2 ->
  In (CallStartFetch h) ins /\
  exists m, In (EvItem iid m) t1 /\ JSON_parse (Body m) = Some d.
Proof.
  intros Hb HT. split.
  - destruct (Genuine_run o w0 ins Hb) as [_ G]. apply (G iid h d).
    rewrite HT. apply in_or_app. right. now left.
  - pose proof (life_of_run o w0 ins iid Hb) as L. rewrite HT in L.
    exact (life_before_invoke _ _ _ _ _ _ L).
Qed.

(** ** Failures of the delete call and of the handler *)

Lemma Sound_drain (o : Opts) (w : World) : Sound o w -> Sound o (drain w).
Proof. apply Sound_faithful, faithful_drain. Qed.

(** A delete call that fails on a live instance is logged at [Error]
    level and otherwise treated as one that succeeded: the run goes on as
    if the line had been logged and the call had been fulfilled. *)
Theorem delete_failure_is_only_logged (o : Opts) (w0 : World)
  (ins : list Input) (iid : nat) (it : Item) (err : Reason) :
  boot o = inr w0 ->
  _isDisposed (inst (run w0 ins)) = false ->
  items (run w0 ins) !! iid = Some it ->
  i_st it = AwaitDelete ->
  step (run w0 ins) (DeleteSettled iid (Some err))
  = step (emit (EvLog (logger o) Error
                  [LStr "service.sqs._completeJob() :: Deleting job failed. Error:";
                   LReason err])
            (step (run w0 ins) QueueDrained))
      (DeleteSettled iid None).
Proof.
  intros Hb Hd Hi Hs. destruct (Sound_boot o w0 Hb) as [HS HD].
  destruct (Sound_run o ins w0 HS HD) as [HS' _].
  generalize dependent (run w0 ins). intros w Hd Hi HS'.
  apply (Sound_drain o) in HS'.
  destruct (internal_drain w) as (C & I & _).
  destruct (drain_effect w) as (_ & _ & _ & Hf).
  simpl. f_equal.
  rewrite (drain_nothing (emit _ (drain w))) by exact Hf.
  unfold delete_done, log_call. simpl. rewrite I, Hi, Hs.
  destruct HS' as [(_ & H2 & _)|(H1 & _)].
  - now rewrite H2.
  - rewrite (config_disposed _ _ C) in H1. congruence.
Qed.

Lemma receiveMessages_below (pid wid : nat) (w : World) :
  (wid < next_worker w)%nat ->
  workers (_receiveMessages pid w) !! wid = workers w !! wid /\
  (wid < next_worker (_receiveMessages pid w))%nat.
Proof.
  intros H. unfold _receiveMessages. simpl.
  rewrite lookup_insert_ne by lia. split; [reflexivity|lia].
Qed.

Lemma iter_below (pid n wid : nat) (w : World) :
  (wid < next_worker w)%nat ->
  workers (Nat.iter n (_receiveMessages pid) w) !! wid = workers w !! wid /\
  (wid < next_worker (Nat.iter n (_receiveMessages pid) w))%nat.
Proof.
  intros H. induction n as [|n [I1 I2]]; [simpl; auto|].
  rewrite Nat.iter_succ.
  destruct (receiveMessages_below pid wid _ I2) as [R1 R2].
  split; [now rewrite R1|exact R2].
Qed.

Lemma fold_fanouts_below (fos : list Fanout) (wid : nat) (w : World) :
  (wid < next_worker w)%nat ->
  workers (fold_left (fun acc fo => run_fanout fo acc) fos w) !! wid
  = workers w !! wid.
Proof.
  revert w. induction fos as [|fo fos IH]; intros w H; [reflexivity|].
  simpl. unfold run_fanout at 2.
  match goal with
  | |- context [Nat.iter ?n (_receiveMessages ?p) ?v] =>
    destruct (iter_below p n wid v H) as [I1 I2]
  end.
  rewrite IH by exact I2. exact I1.
Qed.

Lemma drain_below (wid : nat) (w : World) :
  (wid < next_worker w)%nat -> workers (drain w) !! wid = workers w !! wid.
Proof. intros H. unfold drain. now rewrite fold_fanouts_below. Qed.

Lemma pass_settled_workers (pid : nat) (res : Settled) (w : World) :
  workers (pass_settled pid res w) = workers w /\
  next_worker (pass_settled pid res w) = next_worker w.
Proof.
  unfold pass_settled. destruct (passes w !! pid) as [p|]; [|auto].
  assert (HM : forall f v, workers (call_mainLoop f v) = workers v /\
                           next_worker (call_mainLoop f v) = next_worker v).
  { intros [|] v; simpl; [|auto].
    destruct (mainLoop_view v) as (_ & -> & -> & _). auto. }
  destruct res as [err|].
  - destruct (HM (p_finally p)
                (mainLoop_catch err (set_passes (delete pid (passes w)) w)))
      as [-> ->].
    pose proof (view_mainLoop_catch err (set_passes (delete pid (passes w)) w))
      as V.
    apply view_fields in V as (_ & _ & -> & -> & _). auto.
  - destruct (p_remaining p) as [|[|k]]; simpl; auto;
      destruct (HM (p_finally p) (set_passes (delete pid (passes w)) w))
        as [-> ->]; auto.
Qed.

Lemma worker_fail_removes (wid : nat) (wk : Worker) (err : Reason)
  (w : World) :
  workers (worker_fail wid wk err w) !! wid = None /\
  next_worker (worker_fail wid wk err w) = next_worker w.
Proof.
  unfold worker_fail. pose proof (view_receive_catch err w) as V.
  destruct (receive_catch err w) as [w1 res]. simpl in V.
  apply view_fields in V as (_ & _ & _ & Vn & _).
  unfold worker_finally.
  match goal with
  | |- context [pass_settled ?p ?r ?v] =>
    destruct (pass_settled_workers p r v) as [-> ->]
  end.
  simpl. now rewrite lookup_delete_eq.
Qed.

Lemma receive_catch_logs (e : Err) (lg : Logger) (w : World) :
  _isDisposed (inst w) = false ->
  log (inst w) = Some lg ->
  ownError e = false ->
  exists more,
    trace (fst (receive_catch (Thrown e) w))
    = trace w
      ++ EvLog lg Error
           [LStr "service.sqs._receiveMessages() :: Error on receiveMessage";
            LStr "for queue:"; LOpt (pathname (inst w));
            LStr "Error:"; LStr (message e)] :: more.
Proof.
  intros Hd Hl Ho. unfold receive_catch, log_call. rewrite Hd, Ho, Hl. simpl.
  destruct (noStack e); simpl; [now exists []|].
  rewrite Hl. simpl. rewrite <- app_assoc. simpl. eauto.
Qed.

(** When a handler rejects with an error object while its worker waits for
    the batch, the worker is released at once: it leaves the worker table,
    whatever the other items of the batch are doing; only the failed item
    leaves the item table.  Unless the error has a truthy [ownError], it is
    reported through the logger as an error of the receive call. *)
Theorem failed_job_releases_worker (o : Opts) (w0 : World) (ins : list Input)
  (iid : nat) (it : Item) (wk : Worker) (n : nat) (e : Err) :
  boot o = inr w0 ->
  _isDisposed (inst (run w0 ins)) = false ->
  items (run w0 ins) !! iid = Some it ->
  i_st it = AwaitHandler ->
  workers (run w0 ins) !! i_worker it = Some wk ->
  w_st wk = Mapping n ->
  let w' := step (run w0 ins) (HandlerSettled iid (Some (Thrown e))) in
  workers w' !! i_worker it = None /\
  items w' = delete iid (items (run w0 ins)) /\
  (ownError e = false ->
   exists t1 t2,
     trace w'
     = trace (run w0 ins) ++ t1
       ++ EvHandlerSettled iid (Some (Thrown e))
       :: EvLog (logger o) Error
            [LStr "service.sqs._receiveMessages() :: Error on receiveMessage";
             LStr "for queue:"; LOpt (pathname (inst (run w0 ins)));
             LStr "Error:"; LStr (message e)] :: t2).
Proof.
  intros Hb Hd Hi Hs Hw Hm. destruct (Sound_boot o w0 Hb) as [HS HD].
  destruct (Sound_run o ins w0 HS HD) as [HS' _].
  assert (HP : Pool (run w0 ins)) by (now apply pool_run, (Pool_boot o)).
  generalize dependent (run w0 ins). intros w Hd Hi Hw HS' HP. simpl.
  apply (Sound_drain o) in HS'.
  destruct (internal_drain w) as (C & I & _ & t1 & HT1 & _).
  pose proof (drain_keeps _ _ w HP Hw) as Hw1.
  assert (HP1 : Pool (drain w)) by (now apply drain_effect).
  assert (Hlt : (i_worker it < next_worker (drain w))%nat).
  { destruct HP1 as (_ & H2 & _).
    destruct (Nat.lt_ge_cases (i_worker it) (next_worker (drain w)))
      as [H|H]; [exact H|].
    rewrite (H2 _ H) in Hw1. discriminate. }
  assert (Hl : log (inst (drain w)) = Some (logger o)).
  { destruct HS' as [(_ & H2 & _)|(H1 & _)]; [exact H2|].
    rewrite (config_disposed _ _ C) in H1. congruence. }
  assert (Hd1 : _isDisposed (inst (drain w)) = false)
    by (now rewrite (config_disposed _ _ C)).
  assert (Hp : pathname (inst (drain w)) = pathname (inst w)).
  { unfold config in C. now injection C. }
  unfold handler_done. rewrite I, Hi, Hs.
  unfold item_settled. cbn [workers set_items emit]. rewrite Hw1, Hm.
  match goal with
  | |- context [worker_fail ?a ?b ?c ?v] => set (v0 := v)
  end.
  destruct (worker_fail_removes (i_worker it) wk (Thrown e) v0) as [R1 R2].
  destruct (internal_worker_fail (i_worker it) wk (Thrown e) v0)
    as (_ & I2 & _).
  destruct (internal_drain (worker_fail (i_worker it) wk (Thrown e) v0))
    as (_ & I3 & _ & t3 & HT3 & _).
  split_and!.
  - rewrite drain_below; [exact R1|]. rewrite R2. exact Hlt.
  - rewrite I3, I2. subst v0. simpl. now rewrite I.
  - intros Ho.
    destruct (receive_catch_logs e (logger o) v0 Hd1 Hl Ho) as (more & HT2).
    unfold worker_fail in HT3 |- *.
    destruct (receive_catch (Thrown e) v0) as [v1 res]. simpl in HT2.
    destruct (internal_worker_finally (i_worker it) wk res v1)
      as (_ & _ & _ & t4 & HT4 & _).
    rewrite HT3, HT4, HT2. subst v0. simpl. rewrite HT1, Hp.
    exists t1, (more ++ t4 ++ t3).
    repeat (rewrite <- ?app_assoc; simpl). reflexivity.
Qed.

(** ** Before [startFetch] *)

Lemma producer_run (ins : list Input) (w : World) :
  starts ins = 0%nat ->
  idle w /\ _longPollsInFlight (inst w) = 0 /\ Forall producing (trace w) ->
  idle (run w ins) /\ _longPollsInFlight (inst (run w ins)) = 0 /\
  Forall producing (trace (run w ins)).
Proof.
  revert w. induction ins as [|i ins IH]; intros w Hs H; [exact H|].
  simpl. destruct H as (HI & H0 & HT). pose proof (idle_step w i HI) as Hi.
  destruct i; simpl in Hs; try discriminate;
    try (simpl in Hi; simpl; rewrite Hi; apply IH; auto).
  - apply IH; [exact Hs|].
    destruct (createJob_rest data w) as (R1 & R2 & R3 & R4).
    destruct (createJob_silent data w) as (R5 & _).
    destruct HI as (I1 & I2 & I3 & I4 & I5). simpl. split_and!.
    + unfold idle. now rewrite R1, R2, R3, R4, R5.
    + pose proof (view_createJob data w) as V.
      apply view_fields in V as (-> & _). exact H0.
    + unfold createJob, log_call. destruct (_isDisposed (inst w)); [exact HT|].
      destruct (log (inst w)); simpl; [|exact HT].
      rewrite <- app_assoc. apply Forall_app. split; [exact HT|].
      now repeat constructor.
  - apply IH; [exact Hs|]. simpl. unfold dispose.
    destruct (_isDisposed (inst w)); simpl; [auto|].
    destruct HI as (I1 & I2 & I3 & I4 & I5). split_and!.
    + unfold idle. simpl. split_and!; auto. rewrite I4. unfold clearInterval.
      destruct (_heartbeatInterval (inst w)); [apply delete_empty|reflexivity].
    + exact H0.
    + apply Forall_app. split; [exact HT|]. now repeat constructor.
Qed.

(** As long as [startFetch] has not been called, the instance does not
    poll: no receive request is issued, no timer is armed, nothing is in
    flight, and all it does to the outside is to log and to send the jobs
    that [createJob] is given. *)
Theorem no_poll_before_startFetch (o : Opts) (w0 : World) (ins : list Input) :
  boot o = inr w0 ->
  starts ins = 0%nat ->
  idle (run w0 ins) /\
  _longPollsInFlight (inst (run w0 ins)) = 0 /\
  Forall producing (trace (run w0 ins)).
Proof.
  intros Hb Hs. apply producer_run; [exact Hs|].
  apply boot_inr in Hb as (s & _ & -> & _ & _ & _ & _ & H0).
  split_and!; [now unfold idle|exact H0|constructor].
Qed.

(** ** The order of dispatch *)

Lemma entered_app (a b : list Event) : entered (a ++ b) = entered a ++ entered b.
Proof. apply omap_app. Qed.

Lemma entered_quiet (s : Sqs) (evs : list Event) :
  Forall (quiet s) evs -> entered evs = [].
Proof.
  induction 1 as [|e evs He _ IH]; [reflexivity|].
  unfold entered in *. destruct e; simpl in *; try contradiction; exact IH.
Qed.

Lemma internal_entered (w w' : World) :
  internal w w' ->
  exists evs, trace w' = trace w ++ evs /\ entered evs = [] /\
              next_item w' = next_item w.
Proof.
  intros (_ & _ & N & evs & HT & HF). exists evs.
  split_and!; auto. exact (entered_quiet _ _ HF).
Qed.

Lemma map_items_entered (wid : nat) (h : Handler) (ms : list RawMessage)
  (w : World) :
  _method (inst w) = Some h ->
  is_Some (log (inst w)) ->
  exists evs,
    trace (fst (fst (map_items Proto wid ms w))) = trace w ++ evs /\
    entered evs = numbered (next_item w) (reached h (next_item w) ms).
Proof.
  revert w. induction ms as [|m ms IH]; intros w Hm Hl.
  - exists []. simpl. now rewrite app_nil_r.
  - rewrite map_items_step.
    destruct (invokeMethod_effect wid m w) as (C & _ & HN & Hcase).
    assert (Hm1 : _method (inst (fst (_invokeMethod wid m w))) = Some h)
      by (now rewrite (config_method _ _ C)).
    assert (Hl1 : is_Some (log (inst (fst (_invokeMethod wid m w)))))
      by (now rewrite (config_log _ _ C)).
    destruct (IH (fst (_invokeMethod wid m w)) Hm1 Hl1) as (evs & HT & HE).
    rewrite HN in HE. simpl reached.
    destruct Hcase as [(d & h' & P & M & T & HT1 & _ & ->)
                      |[(d & h' & r & P & M & T & HT1 & _ & ->)
                      |[(lg & P & _ & HT1 & _ & ->)|(P1 & P2 & _)]]].
    + assert (h' = h) by congruence. subst h'. rewrite P, T.
      rewrite HT, HT1, <- app_assoc. eexists. split; [reflexivity|].
      rewrite entered_app, HE. reflexivity.
    + assert (h' = h) by congruence. subst h'. rewrite P, T.
      rewrite HT1. eexists. split; reflexivity.
    + rewrite P. rewrite HT, HT1, <- app_assoc. eexists.
      split; [reflexivity|]. rewrite entered_app, HE. reflexivity.
    + exfalso. destruct (JSON_parse (Body m)) as [d|].
      * rewrite P2 in Hm by eauto. discriminate.
      * destruct Hl as [lg Hl]. rewrite P1 in Hl by reflexivity.
        discriminate.
Qed.

(** When the long poll of a live instance answers with a batch,
    [_invokeMethod] is entered once on each item of the batch that [.map]
    reaches, in the order of the batch, before the turn ends, and on no
    other item: the items after the first one on which the handler throws
    are not entered.  The items are numbered from the item counter on. *)
Theorem batch_dispatched_in_order (o : Opts) (w0 : World) (ins : list Input)
  (wid : nat) (wk : Worker) (pm im : Impl) (h : Handler)
  (ms : list RawMessage) :
  boot o = inr w0 ->
  _isDisposed (inst (run w0 ins)) = false ->
  workers (run w0 ins) !! wid = Some wk ->
  w_st wk = Polling pm im ->
  _method (inst (run w0 ins)) = Some h ->
  exists evs,
    trace (step (run w0 ins) (ReceiveSettled wid (RecvData (Some ms))))
    = trace (run w0 ins) ++ evs /\
    entered evs
    = numbered (next_item (run w0 ins))
        (reached h (next_item (run w0 ins)) ms).
Proof.
  intros Hb Hd Hl Hs Hm.
  assert (HP : Pool (run w0 ins)) by (now apply pool_run, (Pool_boot o)).
  generalize dependent (run w0 ins). intros w Hd Hl Hm HP. simpl.
  destruct (internal_entered _ _ (internal_drain w)) as (e1 & T1 & E1 & N1).
  assert (HP1 : Pool (drain w)) by (now apply drain_effect).
  assert (Hd1 : _isDisposed (inst (drain w)) = false).
  { destruct (internal_drain w) as (C & _).
    now rewrite (config_disposed _ _ C). }
  assert (Hm1 : _method (inst (drain w)) = Some h).
  { destruct (internal_drain w) as (C & _).
    now rewrite (config_method _ _ C). }
  pose proof (drain_keeps wid wk w HP Hl) as Hl1.
  destruct HP1 as (_ & _ & H3 & H4).
  destruct (H4 Hd1 wid wk pm im Hl1 Hs) as [-> ->].
  destruct (H3 Hd1) as (_ & _ & lg & Hlg).
  unfold receive_done. rewrite Hl1, Hs. simpl.
  unfold _processMessages, log_call. rewrite Hd1, Hlg.
  match goal with
  | |- context [map_items Proto wid ms ?v] =>
    destruct (map_items_entered wid h ms v) as (e2 & T2 & E2);
      [exact Hm1|simpl; eauto|];
    destruct (map_items Proto wid ms v) as [[w2 pending] rej] eqn:Em
  end.
  simpl in T2, E2. rewrite N1 in E2.
  assert (H : forall v, internal w2 v ->
            exists evs, trace (drain v) = trace w ++ evs /\
                        entered evs
                        = numbered (next_item w)
                            (reached h (next_item w) ms)).
  { intros v Hv.
    destruct (internal_entered _ _ Hv) as (e3 & T3 & E3 & _).
    destruct (internal_entered _ _ (internal_drain v)) as (e4 & T4 & E4 & _).
    eexists. split.
    - rewrite T4, T3, T2, T1. rewrite <- !app_assoc. reflexivity.
    - rewrite !entered_app, E1, E2, E3, E4. simpl.
      now rewrite app_nil_r. }
  destruct rej as [err|]; [apply H, internal_worker_fail|].
  destruct pending;
    [apply H, internal_worker_finally|apply H, internal_workers].
Qed.

(** ** Empty polls *)

Lemma relaunch_emit (e : Event) (w : World) :
  relaunch e -> extends relaunch w (emit e w).
Proof. intros H. exists [e]. split; [reflexivity|]. now constructor. Qed.

Lemma relaunch_mainLoop (w : World) : extends relaunch w (_mainLoop w).
Proof.
  unfold _mainLoop. destruct (_ <=? 0); apply relaunch_emit; exact I.
Qed.

Lemma relaunch_call_mainLoop (f : Impl) (w : World) :
  extends relaunch w (call_mainLoop f w).
Proof. destruct f; [apply relaunch_mainLoop|apply extends_refl]. Qed.

Lemma relaunch_iter (pid n : nat) (w : World) :
  extends relaunch w (Nat.iter n (_receiveMessages pid) w).
Proof.
  induction n as [|n IH]; [apply extends_refl|].
  rewrite Nat.iter_succ. eapply extends_trans; [exact IH|].
  eexists [_]. split; [reflexivity|]. now repeat constructor.
Qed.

Lemma relaunch_fold_fanouts (fos : list Fanout) (w : World) :
  extends relaunch w (fold_left (fun acc fo => run_fanout fo acc) fos w).
Proof.
  revert w. induction fos as [|fo fos IH]; intros w; [apply extends_refl|].
  simpl. eapply extends_trans; [|apply IH].
  unfold run_fanout.
  match goal with
  | |- extends _ _ (Nat.iter ?n (_receiveMessages ?p) ?v) =>
    destruct (relaunch_iter p n v) as (evs & HT & HF)
  end.
  exists evs. split; [exact HT|exact HF].
Qed.

Lemma relaunch_drain (w : World) : extends relaunch w (drain w).
Proof.
  unfold drain.
  destruct (relaunch_fold_fanouts (fanouts w) (set_fanouts [] w))
    as (evs & HT & HF).
  exists evs. split; [exact HT|exact HF].
Qed.

Lemma relaunch_same (w w' : World) :
  trace w' = trace w -> extends relaunch w w'.
Proof. intros H. exists []. split; [now rewrite app_nil_r|constructor]. Qed.

Lemma relaunch_pass_settled (pid : nat) (w : World) :
  extends relaunch w (pass_settled pid None w).
Proof.
  unfold pass_settled.
  destruct (passes w !! pid) as [p|]; [|apply extends_refl].
  destruct (p_remaining p) as [|[|k]];
    try (eapply extends_trans; [|apply relaunch_call_mainLoop]);
    now apply relaunch_same.
Qed.

Lemma relaunch_worker_finally (wid : nat) (wk : Worker) (w : World) :
  extends relaunch w (worker_finally wid wk None w).
Proof.
  unfold worker_finally.
  eapply extends_trans; [|apply relaunch_pass_settled].
  now apply relaunch_same.
Qed.

(** A long poll of a live instance that comes back without messages
    leaves no line in the log and dispatches nothing: its worker leaves the
    table, the items in progress stay as they are, and all that follows in
    the turn is the next orchestration pass and its receive requests. *)
Theorem empty_poll_is_silent (o : Opts) (w0 : World) (ins : list Input)
  (wid : nat) (wk : Worker) (pm im : Impl) :
  boot o = inr w0 ->
  _isDisposed (inst (run w0 ins)) = false ->
  workers (run w0 ins) !! wid = Some wk ->
  w_st wk = Polling pm im ->
  let w' := step (run w0 ins) (ReceiveSettled wid (RecvData None)) in
  extends relaunch (run w0 ins) w' /\
  workers w' !! wid = None /\
  items w' = items (run w0 ins).
Proof.
  intros Hb Hd Hl Hs.
  assert (HP : Pool (run w0 ins)) by (now apply pool_run, (Pool_boot o)).
  generalize dependent (run w0 ins). intros w Hd Hl HP. simpl.
  assert (HP1 : Pool (drain w)) by (now apply drain_effect).
  destruct (internal_drain w) as (C & I1 & _).
  assert (Hd1 : _isDisposed (inst (drain w)) = false)
    by (now rewrite (config_disposed _ _ C)).
  pose proof (drain_keeps wid wk w HP Hl) as Hl1.
  assert (Hlt : (wid < next_worker (drain w))%nat).
  { destruct HP1 as (_ & H2 & _).
    destruct (Nat.lt_ge_cases wid (next_worker (drain w))) as [H|H];
      [exact H|].
    rewrite (H2 _ H) in Hl1. discriminate. }
  destruct HP1 as (_ & _ & _ & H4).
  destruct (H4 Hd1 wid wk pm im Hl1 Hs) as [-> ->].
  assert (E : receive_done wid (RecvData None) (drain w)
              = worker_finally wid wk None (drain w)).
  { unfold receive_done. rewrite Hl1, Hs. simpl.
    unfold _processMessages. rewrite Hd1.
    unfold worker_fail, receive_catch. now rewrite Hd1. }
  rewrite E. split_and!.
  - eapply extends_trans; [apply relaunch_drain|].
    eapply extends_trans; [apply relaunch_worker_finally|].
    apply relaunch_drain.
  - unfold worker_finally.
    match goal with
    | |- context [pass_settled ?p ?r ?v] =>
      destruct (pass_settled_workers p r v) as [R1 R2]
    end.
    rewrite drain_below; rewrite ?R1, ?R2; simpl;
      [apply lookup_delete_eq|exact Hlt].
  - destruct (internal_worker_finally wid wk None (drain w)) as (_ & I2 & _).
    destruct (internal_drain (worker_finally wid wk None (drain w)))
      as (_ & I3 & _).
    now rewrite I3, I2, I1.
Qed.

(** ** Failed polls *)

Lemma receive_catch_live (e : Err) (lg : Logger) (w : World) :
  _isDisposed (inst w) = false ->
  log (inst w) = Some lg ->
  ownError e = false ->
  snd (receive_catch (Thrown e) w) = None /\
  trace (fst (receive_catch (Thrown e) w))
  = trace w ++ receive_error_lines lg (pathname (inst w)) e.
Proof.
  intros Hd Hl Ho. unfold receive_catch, log_call, receive_error_lines.
  rewrite Hd, Ho, Hl. simpl.
  destruct (noStack e); simpl; [auto|].
  rewrite Hl. simpl. now rewrite <- app_assoc.
Qed.

(** A receive call of a live instance that fails with an error object
    which is not marked [ownError] is logged at [Error] level with the
    message of the error, then at [Info] level with its stack unless the
    error has a truthy [noStack]; nothing is dispatched, the worker leaves
    the table, and what follows in the turn is the next orchestration pass
    and its receive requests. *)
Theorem failed_poll_is_logged (o : Opts) (w0 : World) (ins : list Input)
  (wid : nat) (wk : Worker) (pm im : Impl) (e : Err) :
  boot o = inr w0 ->
  _isDisposed (inst (run w0 ins)) = false ->
  workers (run w0 ins) !! wid = Some wk ->
  w_st wk = Polling pm im ->
  ownError e = false ->
  let w' := step (run w0 ins) (ReceiveSettled wid (RecvFailed (Thrown e))) in
  (exists t1 t2,
     Forall relaunch t1 /\ Forall relaunch t2 /\
     trace w'
     = trace (run w0 ins) ++ t1
       ++ receive_error_lines (logger o) (pathname (inst (run w0 ins))) e
       ++ t2) /\
  workers w' !! wid = None /\
  items w' = items (run w0 ins).
Proof.
  intros Hb Hd Hl Hs Ho. destruct (Sound_boot o w0 Hb) as [HS HD].
  destruct (Sound_run o ins w0 HS HD) as [HS' _].
  assert (HP : Pool (run w0 ins)) by (now apply pool_run, (Pool_boot o)).
  generalize dependent (run w0 ins). intros w Hd Hl HS' HP. simpl.
  apply (Sound_drain o) in HS'.
  assert (HP1 : Pool (drain w)) by (now apply drain_effect).
  destruct (internal_drain w) as (C & I1 & _).
  assert (Hd1 : _isDisposed (inst (drain w)) = false)
    by (now rewrite (config_disposed _ _ C)).
  assert (Hlg : log (inst (drain w)) = Some (logger o)).
  { destruct HS' as [(_ & H2 & _)|(H1 & _)]; [exact H2|congruence]. }
  assert (Hp : pathname (inst (drain w)) = pathname (inst w)).
  { unfold config in C. now injection C. }
  pose proof (drain_keeps wid wk w HP Hl) as Hl1.
  assert (Hlt : (wid < next_worker (drain w))%nat).
  { destruct HP1 as (_ & H2 & _).
    destruct (Nat.lt_ge_cases wid (next_worker (drain w))) as [H|H];
      [exact H|].
    rewrite (H2 _ H) in Hl1. discriminate. }
  unfold receive_done. rewrite Hl1, Hs.
  destruct (worker_fail_removes wid wk (Thrown e) (drain w)) as [R1 R2].
  destruct (internal_worker_fail wid wk (Thrown e) (drain w)) as (_ & I2 & _).
  destruct (internal_drain (worker_fail wid wk (Thrown e) (drain w)))
    as (_ & I3 & _).
  split_and!.
  - destruct (relaunch_drain w) as (t1 & T1 & F1).
    destruct (relaunch_drain (worker_fail wid wk (Thrown e) (drain w)))
      as (t3 & T3 & F3).
    unfold worker_fail in T3 |- *.
    destruct (receive_catch_live e (logger o) (drain w) Hd1 Hlg Ho)
      as [Hr HT].
    destruct (receive_catch (Thrown e) (drain w)) as [v res].
    simpl in Hr, HT. subst res.
    destruct (relaunch_worker_finally wid wk v) as (t2 & T2 & F2).
    exists t1, (t2 ++ t3). split_and!; [exact F1|now apply Forall_app|].
    rewrite T3, T2, HT, T1, Hp. now rewrite <- !app_assoc.
  - rewrite drain_below; [exact R1|]. rewrite R2. exact Hlt.
  - now rewrite I3, I2, I1.
Qed.

(** ** The factory, [init] and [purge] *)

Lemma new_Sqs_inr (o : Opts) (s : Sqs) :
  new_Sqs o = inr s ->
  url s = Some (sqsUrl o) /\
  concurrentOpsLimit s = Some (opt_concurrentOpsLimit o) /\
  log s = Some (logger o) /\
  1 <= _longPollsRequired s /\
  (opt_concurrentOpsLimit o <= 10 \/ (10 | opt_concurrentOpsLimit o)).
Proof.
  unfold new_Sqs.
  destruct (Z.ltb_spec 10 (opt_concurrentOpsLimit o)) as [H|H].
  - destruct (Z.eqb_spec (Z.rem (opt_concurrentOpsLimit o) 10) 0) as [Hz|Hz];
      simpl; [|discriminate].
    intros [= <-]. simpl. apply rem_divide_10 in Hz.
    split_and!; auto. destruct Hz as [k Hk]. rewrite Hk.
    rewrite Z.quot_mul by lia. lia.
  - intros [= <-]. simpl. split_and!; auto. lia.
Qed.

Lemma new_Sqs_inl (o : Opts) (e : Reason) :
  new_Sqs o = inl e ->
  e = Error_ errMessage /\ 10 < opt_concurrentOpsLimit o /\
  ~ (10 | opt_concurrentOpsLimit o).
Proof.
  unfold new_Sqs.
  destruct (Z.ltb_spec 10 (opt_concurrentOpsLimit o)) as [H|H];
    [|discriminate].
  destruct (Z.eqb_spec (Z.rem (opt_concurrentOpsLimit o) 10) 0) as [Hz|Hz];
    simpl; [discriminate|].
  intros [= <-]. split_and!; auto. now rewrite <- rem_divide_10.
Qed.


Lemma limit_throws_spec (n : JsNum) :
  limit_throws n = true <->
  match n with
  | JInt z => 10 < z /\ ~ (10 | z)
  | JFrac below => 10 <= below
  | JNaN => False
  | JInf negative => negative = false
  end.
Proof.
  destruct n as [z|k| |[|]]; simpl.
  - rewrite andb_true_iff, Z.ltb_lt, negb_true_iff, Z.eqb_neq.
    now rewrite rem_divide_10.
  - apply Z.leb_le.
  - split; [discriminate|tauto].
  - split; discriminate.
  - tauto.
Qed.

(** The factory returns an instance exactly when the argument is truthy,
    its [sqsUrl] is a string, its [concurrentOpsLimit] is a number, its
    logger has the three methods, the constructor accepts the limit and
    [url.parse] returns on the URL; otherwise it throws the error of the
    first of these checks that fails, in this order.  The constructor
    accepts an integer that is at most 10 or a multiple of 10, a number
    below 10 that is not an integer, [NaN] and [-Infinity]; it throws on
    every other number. *)
Theorem factory_checks (opts : option RawOpts) :
  match sqsLib opts with
  | inr made =>
    exists r u n lg,
      opts = Some r /\ raw_sqsUrl r = JString u /\
      raw_concurrentOpsLimit r = JNumber n /\ raw_logger r = Some lg /\
      has_error lg = true /\ has_warn lg = true /\ has_info lg = true /\
      url_parse_throws u = None /\
      match n with
      | JInt z =>
        (z <= 10 \/ (10 | z)) /\
        exists s,
          made = Instance s /\
          new_Sqs (mkOpts u z (the_logger lg)) = inr s /\
          url s = Some u /\ concurrentOpsLimit s = Some z /\
          log s = Some (the_logger lg) /\ 1 <= _longPollsRequired s
      | JFrac below => below < 10 /\ made = OddInstance n
      | JNaN => made = OddInstance n
      | JInf negative => negative = true /\ made = OddInstance n
      end
  | inl e =>
    match opts with
    | None => e = TypeError no_options
    | Some r =>
      match raw_sqsUrl r, raw_concurrentOpsLimit r, raw_logger r with
      | JString u, JNumber n, Some lg =>
        if has_error lg && has_warn lg && has_info lg
        then
          (e = Error_ errMessage /\
           match n with
           | JInt z => 10 < z /\ ~ (10 | z)
           | JFrac below => 10 <= below
           | JNaN => False
           | JInf negative => negative = false
           end) \/
          (limit_throws n = false /\ url_parse_throws u = Some e)
        else e = TypeError no_logger
      | JString _, JNumber _, None => e = TypeError no_logger
      | JString _, _, _ => e = TypeError no_limit
      | _, _, _ => e = TypeError no_sqsUrl
      end
    end
  end.
Proof.
  unfold sqsLib. destruct opts as [r|]; [|reflexivity].
  destruct (raw_sqsUrl r) as [u|k|] eqn:Eu; try reflexivity.
  destruct (raw_concurrentOpsLimit r) as [v|n|] eqn:En; try reflexivity.
  destruct (raw_logger r) as [lg|] eqn:El; [|reflexivity].
  destruct (has_error lg) eqn:B1, (has_warn lg) eqn:B2, (has_info lg) eqn:B3;
    simpl; try reflexivity.
  unfold construct.
  destruct (limit_throws n) eqn:Et.
  { left. split; [reflexivity|]. now apply limit_throws_spec. }
  destruct (url_parse_throws u) as [e|] eqn:Ep; [right; auto|].
  assert (Hn : ~ match n with
                 | JInt z => 10 < z /\ ~ (10 | z)
                 | JFrac below => 10 <= below
                 | JNaN => False
                 | JInf negative => negative = false
                 end).
  { rewrite <- limit_throws_spec. congruence. }
  destruct n as [z|k| |neg].
  - destruct (new_Sqs (mkOpts u z (the_logger lg))) as [e|s] eqn:E.
    + destruct (new_Sqs_inl _ _ E) as (-> & H1 & H2). simpl in *.
      destruct Hn. auto.
    + destruct (new_Sqs_inr _ _ E) as (H1 & H2 & H3 & H4 & H5). simpl in *.
      exists r, u, (JInt z), lg. split_and!; auto. exists s. split_and!; auto.
  - exists r, u, (JFrac k), lg. split_and!; auto. lia.
  - exists r, u, JNaN, lg. split_and!; auto.
  - exists r, u, (JInf neg), lg. split_and!; auto.
    destruct neg; [reflexivity|now destruct Hn].
Qed.

Lemma prefix_append (pat s : string) :
  String.prefix pat s = true <-> exists b, s = String.append pat b.
Proof.
  revert s. induction pat as [|c pat IH]; intros s.
  - split; [intros _; now exists s|intros _; now destruct s].
  - destruct s as [|c' s]; simpl;
      [split; [discriminate|intros [b H]; discriminate]|].
    destruct (ascii_dec c c') as [->|Hne].
    + rewrite IH. split; intros [b H]; exists b; [now rewrite H|].
      now injection H.
    + split; [discriminate|]. intros [b H]. injection H as H _. congruence.
Qed.

Lemma includes_nil (pat : string) :
  includes pat EmptyString = String.prefix pat EmptyString || false.
Proof. reflexivity. Qed.

Lemma includes_cons (pat : string) (c : ascii) (s : string) :
  includes pat (String c s) = String.prefix pat (String c s) || includes pat s.
Proof. reflexivity. Qed.

Lemma includes_spec (pat s : string) :
  includes pat s = true <->
  exists a b, s = String.append a (String.append pat b).
Proof.
  induction s as [|c s IH].
  - rewrite includes_nil, orb_false_r, prefix_append. split.
    + intros [b H]. now exists EmptyString, b.
    + intros (a & b & H). destruct a as [|c a]; [now exists b|discriminate].
  - rewrite includes_cons, orb_true_iff, prefix_append, IH. split.
    + intros [[b H]|(a & b & H)].
      * now exists EmptyString, b.
      * exists (String c a), b. simpl. now rewrite H.
    + intros (a & b & H). destruct a as [|c' a].
      * left. now exists b.
      * right. exists a, b. simpl in H. now injection H.
Qed.

(** [purge] calls [purgeQueue] only on the queue URL that was given to the
    constructor, only while the instance is live and only when that URL
    has an occurrence of [test]; on a live instance with such a URL it
    does call it, after one line at [Info] level.  A failure of the backend
    that is an error object is logged at [Warn] level and not passed on:
    the promise of [purge] is fulfilled. *)
Theorem purge_only_test_queues (o : Opts) (w0 : World) (ins : list Input) :
  boot o = inr w0 ->
  let w := run w0 ins in
  (forall u, snd (purge w) = Called u ->
     u = Some (sqsUrl o) /\ _isDisposed (inst w) = false /\
     exists a b, sqsUrl o = String.append a (String.append "test" b)) /\
  (_isDisposed (inst w) = false ->
   (exists a b, sqsUrl o = String.append a (String.append "test" b)) ->
   purge w
   = (emit (EvLog (logger o) Info
              [LStr "service.sqs.purge() :: Purging queue with url:";
               LOpt (Some (sqsUrl o))]) w,
      Called (Some (sqsUrl o)))) /\
  (_isDisposed (inst w) = false ->
   forall e,
     purge_done (Some (Thrown e)) w
     = (emit (EvLog (logger o) Warn
                [LStr "service.sqs.purge() :: Purging queue error:";
                 LStr (message e)]) w,
        None)).
Proof.
  intros Hb w. destruct (Sound_boot o w0 Hb) as [HS HD].
  destruct (Sound_run o ins w0 HS HD) as [HS' _]. fold w in HS'.
  split_and!.
  - intros u. unfold purge, log_call.
    destruct HS' as [(H1 & H2 & H3 & _ & _ & _ & H7)|(_ & _ & H3 & _)];
      rewrite H3; [|discriminate].
    destruct (includes "test" (sqsUrl o)) eqn:Ei; simpl; [|discriminate].
    rewrite H2. simpl. rewrite H7, H3. intros [= <-].
    split_and!; auto. now apply includes_spec.
  - intros Hd Hi. apply includes_spec in Hi. unfold purge, log_call.
    destruct HS' as [(H1 & H2 & H3 & _ & _ & _ & H7)|(H1 & _)]; [|congruence].
    rewrite H3, Hi. simpl. rewrite H2. simpl. now rewrite H7, H3.
  - intros Hd e. unfold purge_done.
    destruct HS' as [(H1 & H2 & _)|(H1 & _)]; [|congruence].
    now rewrite H2.
Qed.

(** The world of [boot] is the one that the call of [init] on the freshly
    constructed instance leaves, up to the line it logs.  On any live
    instance [init] asks for the attributes of the queue that was given to
    the constructor and changes nothing; its promise is fulfilled exactly
    when the backend answers with an [Attributes] object, and is rejected
    with the backend's own error when the request fails.  On a disposed
    instance it throws before it reaches the backend. *)
Theorem init_outcome (o : Opts) (w0 : World) (ins : list Input) :
  boot o = inr w0 ->
  let w := run w0 ins in
  (exists s, new_Sqs o = inr s /\
     inst (fst (init_call (world_of s))) = inst w0 /\
     snd (init_call (world_of s)) = Called (Some (sqsUrl o))) /\
  (_isDisposed (inst w) = false ->
   (exists args, init_call w
                 = (emit (EvLog (logger o) Info args) w,
                    Called (Some (sqsUrl o)))) /\
   (forall r, snd (init_done r w) = None <-> exists n, r = AttrData (Some n)) /\
   (forall err, snd (init_done (AttrFailed err) w) = Some err) /\
   (forall r, inst (fst (init_done r w)) = inst w)) /\
  (_isDisposed (inst w) = true -> init_call w = (w, Threw null_log)).
Proof.
  intros Hb w. destruct (Sound_boot o w0 Hb) as [HS HD].
  destruct (Sound_run o ins w0 HS HD) as [HS' _]. fold w in HS'.
  split_and!.
  - apply boot_inr in Hb as (s & Hn & -> & _ & _ & Hu & Hl & _).
    exists s. split; [exact Hn|]. unfold init_call, log_call. simpl.
    rewrite Hl. simpl. now rewrite Hu.
  - intros Hd.
    destruct HS' as [(H1 & H2 & H3 & _ & _ & _ & H7)|(H1 & _)]; [|congruence].
    split_and!.
    + unfold init_call, log_call. rewrite H2. simpl. rewrite H3.
      exists [LStr "service.sqs.connect() :: Connecting to SQS... SQS URL:";
              LOpt (Some (sqsUrl o))].
      f_equal. unfold set_inst, emit, init. simpl. f_equal.
      rewrite <- H7. now destruct (inst w).
    + intros r. unfold init_done, init_catch, log_call. rewrite H2.
      destruct r as [err|[n|]]; simpl; split; eauto; try discriminate;
        intros [n' H]; discriminate.
    + intros err. unfold init_done, init_catch, log_call. now rewrite H2.
    + intros r. unfold init_done, init_catch, log_call. rewrite H2.
      now destruct r as [err|[n|]].
  - intros Hd.
    destruct HS' as [(H1 & _)|(_ & H2 & _)]; [congruence|].
    unfold init_call, log_call. now rewrite H2.
Qed.

(** ** The concurrency limit *)

Lemma booked_insert (m : gmap nat Worker) (k : nat) (wk : Worker) :
  m !! k = None -> booked (<[k:=wk]> m) = (pending wk + booked m)%nat.
Proof.
  intros H. unfold booked. now rewrite (map_to_list_insert m k wk H).
Qed.

Lemma booked_delete (m : gmap nat Worker) (k : nat) (wk : Worker) :
  m !! k = Some wk -> booked m = (pending wk + booked (delete k m))%nat.
Proof.
  intros H. unfold booked. now rewrite <- (map_to_list_delete m k wk H).
Qed.

Lemma booked_update (m : gmap nat Worker) (k : nat) (wk wk' : Worker) :
  m !! k = Some wk ->
  (booked (<[k:=wk']> m) + pending wk = pending wk' + booked m)%nat.
Proof.
  intros H. rewrite <- (insert_delete_eq m).
  rewrite booked_insert by apply lookup_delete_eq.
  rewrite (booked_delete m k wk H). lia.
Qed.

Lemma booked_bound (B : nat) (m : gmap nat Worker) :
  (forall k wk, m !! k = Some wk -> (pending wk <= B)%nat) ->
  (booked m <= B * size m)%nat.
Proof.
  intros H. unfold booked. rewrite <- length_map_to_list.
  assert (Hl : forall p, p ∈ map_to_list m -> (pending p.2 <= B)%nat).
  { intros [k wk] Hin. apply elem_of_map_to_list in Hin. simpl. eauto. }
  induction (map_to_list m) as [|p l IH]; simpl; [lia|].
  assert (pending p.2 <= B)%nat by (apply Hl; now left).
  assert (sum_list_with (fun p => pending p.2) l <= B * length l)%nat.
  { apply IH. intros q Hq. apply Hl. now right. }
  lia.
Qed.

Lemma Booked_same (B : nat) (w w' : World) :
  workers w' = workers w -> items w' = items w -> Booked B w -> Booked B w'.
Proof. unfold Booked. now intros -> ->. Qed.

Lemma Booked_receiveMessages (B pid : nat) (w : World) :
  Pool w -> Booked B w -> Booked B (_receiveMessages pid w).
Proof.
  intros (_ & H2 & _) [H1 Hb]. unfold Booked, _receiveMessages. simpl.
  rewrite booked_insert by (apply H2; lia). split; [simpl; lia|].
  intros wid wk. destruct (decide (next_worker w = wid)) as [<-|Hne].
  - rewrite lookup_insert_eq. intros [= <-]. unfold pending. simpl. lia.
  - rewrite lookup_insert_ne by exact Hne. apply Hb.
Qed.

Lemma Booked_iter (B pid n : nat) (w : World) :
  Pool w -> Booked B w -> Booked B (Nat.iter n (_receiveMessages pid) w).
Proof.
  intros HP HB. induction n as [|n IH]; [exact HB|].
  rewrite Nat.iter_succ. apply Booked_receiveMessages; [|exact IH].
  now apply (iter_effect pid n w).
Qed.

Lemma Booked_run_fanout (B : nat) (fo : Fanout) (w : World) :
  Pool w -> Booked B w -> Booked B (run_fanout fo w).
Proof. intros HP HB. unfold run_fanout. now apply Booked_iter. Qed.

Lemma Booked_fold_fanouts (B : nat) (fos : list Fanout) (w : World) :
  Pool w -> Booked B w ->
  Booked B (fold_left (fun acc fo => run_fanout fo acc) fos w).
Proof.
  revert w. induction fos as [|fo fos IH]; intros w HP HB; [exact HB|].
  simpl. apply IH; [now apply run_fanout_effect|now apply Booked_run_fanout].
Qed.

Lemma Booked_drain (B : nat) (w : World) :
  Pool w -> Booked B w -> Booked B (drain w).
Proof. intros HP HB. unfold drain. now apply Booked_fold_fanouts. Qed.

Lemma Booked_call_mainLoop (B : nat) (f : Impl) (w : World) :
  Booked B w -> Booked B (call_mainLoop f w).
Proof.
  destruct f; [|auto]. simpl. apply Booked_same.
  - now destruct (mainLoop_view w) as (_ & -> & _).
  - now destruct (internal_mainLoop w) as (_ & -> & _).
Qed.

Lemma Booked_pass_settled (B pid : nat) (res : Settled) (w : World) :
  Booked B w -> Booked B (pass_settled pid res w).
Proof.
  apply Booked_same.
  - now destruct (pass_settled_workers pid res w) as [-> _].
  - now destruct (internal_pass_settled pid res w) as (_ & -> & _).
Qed.

Lemma Booked_worker_finally (B wid : nat) (wk wk' : Worker) (res : Settled)
  (w : World) :
  workers w !! wid = Some wk' ->
  (size (items w) + pending wk' <= booked (workers w))%nat ->
  (forall k x, workers w !! k = Some x -> (pending x <= B)%nat) ->
  Booked B (worker_finally wid wk res w).
Proof.
  intros Hl Hs Hb. unfold worker_finally. apply Booked_pass_settled.
  unfold Booked. simpl. rewrite (booked_delete _ _ _ Hl) in Hs.
  split; [lia|].
  intros k x Hk. apply lookup_delete_Some in Hk as [_ Hk]. eauto.
Qed.

Lemma Booked_worker_fail (B wid : nat) (wk wk' : Worker) (err : Reason)
  (w : World) :
  workers w !! wid = Some wk' ->
  (size (items w) + pending wk' <= booked (workers w))%nat ->
  (forall k x, workers w !! k = Some x -> (pending x <= B)%nat) ->
  Booked B (worker_fail wid wk err w).
Proof.
  intros Hl Hs Hb. unfold worker_fail.
  pose proof (view_receive_catch err w) as V.
  pose proof (internal_receive_catch err w) as (_ & I & _).
  destruct (receive_catch err w) as [w1 res]. simpl in V, I.
  apply view_fields in V as (_ & _ & Vw & _).
  apply (Booked_worker_finally B wid wk wk'); rewrite ?Vw, ?I; auto.
Qed.

Lemma Booked_item_settled (B wid : nat) (w : World) :
  (size (items w) + 1 <= booked (workers w))%nat ->
  (forall k x, workers w !! k = Some x -> (pending x <= B)%nat) ->
  Booked B (item_settled wid None w).
Proof.
  intros Hs Hb. unfold item_settled.
  destruct (workers w !! wid) as [wk|] eqn:Ew; [|split; [lia|exact Hb]].
  destruct (w_st wk) as [pm im|n] eqn:Es; [split; [lia|exact Hb]|].
  assert (Hp : pending wk = n) by (unfold pending; now rewrite Es).
  destruct n as [|[|k]].
  - apply (Booked_worker_finally B wid wk wk); auto. lia.
  - apply (Booked_worker_finally B wid wk wk); auto. lia.
  - unfold Booked. simpl.
    pose proof (booked_update (workers w) wid wk
                  (mkWorker (w_pass wk) (Mapping (S k))) Ew) as Hu.
    unfold pending at 2 in Hu. simpl in Hu. split; [lia|].
    intros j x. destruct (decide (wid = j)) as [<-|Hne].
    + rewrite lookup_insert_eq. intros [= <-]. unfold pending. simpl.
      specialize (Hb _ _ Ew). lia.
    + rewrite lookup_insert_ne by exact Hne. apply Hb.
Qed.

Lemma Booked_handler_done (B iid : nat) (w : World) :
  Booked B w -> Booked B (handler_done iid None w).
Proof.
  intros [H1 Hb]. unfold handler_done.
  destruct (items w !! iid) as [it|] eqn:Ei; [|now split].
  destruct (i_st it); [|now split].
  unfold Booked, _completeJob. simpl.
  rewrite map_size_insert_Some by (rewrite Ei; eauto). now split.
Qed.

Lemma Booked_delete_done (B iid : nat) (w : World) :
  Booked B w -> Booked B (delete_done iid None w).
Proof.
  intros [H1 Hb]. unfold delete_done.
  destruct (items w !! iid) as [it|] eqn:Ei; [|now split].
  destruct (i_st it); [now split|].
  apply Booked_item_settled; simpl; [|exact Hb].
  rewrite map_size_delete_Some by (rewrite Ei; eauto).
  assert (size (items w) <> 0%nat).
  { intros E. apply map_size_empty_iff in E. rewrite E in Ei.
    rewrite lookup_empty in Ei. discriminate. }
  lia.
Qed.

Lemma map_items_count (wid : nat) (ms : list RawMessage) (w : World)
  (lg : Logger) (h : Handler) :
  (forall iid h d, handler_throws iid h d = None) ->
  log (inst w) = Some lg -> _method (inst w) = Some h -> Fresh w ->
  exists w2 p,
    map_items Proto wid ms w = (w2, p, None) /\
    size (items w2) = (size (items w) + p)%nat /\
    (p <= length ms)%nat /\
    workers w2 = workers w.
Proof.
  intros Hnt. revert w. induction ms as [|m ms IH]; intros w Hl Hm HF.
  - exists w, 0%nat. simpl. split_and!; auto.
  - simpl. unfold _invokeMethod, log_call. simpl. rewrite Hl, Hm.
    destruct (JSON_parse (Body m)) as [d|]; rewrite ?Hnt.
    + match goal with
      | |- context [map_items Proto wid ms ?v] =>
        assert (Hv : Fresh v)
          by (unfold Fresh; simpl; intros j Hj;
              rewrite lookup_insert_ne by lia; apply HF; lia);
        destruct (IH v Hl Hm Hv) as (w2 & p & E & Hs & Hp & Hw)
      end.
      rewrite E. exists w2, (S p). simpl in Hs, Hw.
      rewrite map_size_insert_None in Hs by (apply HF; lia).
      split_and!; auto; lia.
    + match goal with
      | |- context [map_items Proto wid ms ?v] =>
        assert (Hv : Fresh v)
          by (unfold Fresh; simpl; intros j Hj; apply HF; lia);
        destruct (IH v Hl Hm Hv) as (w2 & p & E & Hs & Hp & Hw)
      end.
      rewrite E. exists w2, p. simpl in Hs, Hw. split_and!; auto.
Qed.

Lemma Booked_receive_done (B wid : nat) (r : ReceiveResult) (w : World) :
  (forall iid h d, handler_throws iid h d = None) ->
  Pool w -> MethodInv w -> Fresh w ->
  calm B (ReceiveSettled wid r) ->
  Booked B w -> Booked B (receive_done wid r w).
Proof.
  intros Hnt HP HM HF Hc [H1 Hb]. unfold receive_done.
  destruct (workers w !! wid) as [wk|] eqn:Ew; [|now split].
  destruct (w_st wk) as [pm im|n] eqn:Es; [|now split].
  assert (Hp : pending wk = 0%nat) by (unfold pending; now rewrite Es).
  destruct r as [err|raw].
  { apply (Booked_worker_fail B wid wk wk); auto. lia. }
  pose proof (view_call_processMessages pm raw w) as V.
  pose proof (internal_call_processMessages pm raw w) as (C & I & N & _).
  destruct (call_processMessages pm raw w) as [w1 [err|ms]] eqn:Ep;
    simpl in V, C, I, N; apply view_fields in V as (_ & _ & Vw & _).
  { apply (Booked_worker_fail B wid wk wk); rewrite ?Vw, ?I; auto. lia. }
  apply processMessages_inr in Ep as (-> & -> & Hd & lg & Hlg).
  destruct HP as (_ & _ & _ & H4).
  destruct (H4 Hd wid wk Proto im Ew Es) as [_ ->].
  assert (Hm : is_Some (_method (inst w))).
  { destruct HM as [HM|[HM|(HM & _)]]; [congruence|exact HM|].
    rewrite HM, lookup_empty in Ew. discriminate. }
  destruct Hm as [h Hm].
  destruct (map_items_count wid ms w1 lg h) as (w2 & p & E & Hs & Hle & Hw).
  { exact Hnt. }
  { now rewrite (config_log _ _ C). }
  { now rewrite (config_method _ _ C). }
  { intros j Hj. rewrite I. apply HF. now rewrite <- N. }
  rewrite E. simpl in Hc.
  destruct p as [|p].
  - apply (Booked_worker_finally B wid wk wk); rewrite ?Hw, ?Vw, ?Hs, ?I;
      auto. lia.
  - unfold Booked. simpl. rewrite Hw, Vw, Hs, I.
    pose proof (booked_update (workers w) wid wk
                  (mkWorker (w_pass wk) (Mapping (S p))) Ew) as Hu.
    unfold pending at 2 in Hu. simpl in Hu. split; [lia|].
    intros j x. destruct (decide (wid = j)) as [<-|Hne].
    + rewrite lookup_insert_eq. intros [= <-]. unfold pending. simpl. lia.
    + rewrite lookup_insert_ne by exact Hne. apply Hb.
Qed.

Lemma ItemInv_Fresh (w : World) : ItemInv w -> Fresh w.
Proof.
  intros (L & F & _) iid Hle. specialize (L iid). rewrite (F iid Hle) in L.
  now inversion L.
Qed.

Lemma Booked_settle (B : nat) (s : Settlement) (w : World) :
  (forall iid h d, handler_throws iid h d = None) ->
  Pool w -> MethodInv w -> ItemInv w -> calm_settlement B s ->
  Booked B w -> Booked B (settle s w).
Proof.
  intros Hnt HP HM HI Hc HB. destruct s as [wid r|iid [err|]|iid [err|]];
    simpl in *; try contradiction.
  - apply Booked_receive_done; auto. now apply ItemInv_Fresh.
  - now apply Booked_handler_done.
  - now apply Booked_delete_done.
Qed.

Lemma Booked_settle_all (B : nat) (ss : list Settlement) (w : World) :
  (forall iid h d, handler_throws iid h d = None) ->
  Pool w -> MethodInv w -> ItemInv w -> Forall (calm_settlement B) ss ->
  Booked B w -> Booked B (settle_all ss w).
Proof.
  intros Hnt. revert w.
  induction ss as [|s ss IH]; intros w HP HM HI Hc HB; [exact HB|].
  apply Forall_cons in Hc as [Hc Hcs].
  apply IH; auto.
  - now apply settle_effect.
  - apply (MethodInv_kept w); [apply kept_settle|apply idle_settle|exact HM].
  - now apply ItemInv_settle.
  - now apply Booked_settle.
Qed.

Lemma Booked_step (B : nat) (L : Z) (w : World) (i : Input) :
  (forall iid h d, handler_throws iid h d = None) ->
  Inv L w -> Pool w -> calm B i -> Booked B w -> Booked B (step w i).
Proof.
  intros Hnt (HI & HM & _) HP Hc HB.
  assert (HB1 : Booked B (drain w)) by (now apply Booked_drain).
  assert (HP1 : Pool (drain w)) by (now apply drain_effect).
  assert (HM1 : MethodInv (drain w)) by (now apply MethodInv_drain).
  assert (HI1 : ItemInv (drain w)).
  { eapply ItemInv_internal; [apply internal_drain|exact HI]. }
  destruct i; simpl.
  - unfold startFetch. destruct (slot_startFetch (inst w)); [|exact HB].
    match goal with
    | |- Booked _ (mkWorld _ _ _ _ (workers ?v) (items ?v) _ _ _ _ _) =>
      assert (H : Booked B v)
        by (apply Booked_call_mainLoop; exact HB); exact H
    end.
  - destruct (createJob_rest data w) as (R1 & _).
    destruct (createJob_silent data w) as (R2 & _).
    now apply (Booked_same B w).
  - unfold dispose. now destruct (_isDisposed (inst w)).
  - destruct (intervals w !! t); [|exact HB]. now apply Booked_call_mainLoop.
  - exact HB1.
  - apply Booked_drain; [now apply receive_done_effect|].
    apply (Booked_settle B (SReceive wid r)); auto.
  - apply Booked_drain; [now apply handler_done_effect|].
    apply (Booked_settle B (SHandler iid o)); auto.
  - apply Booked_drain; [now apply delete_done_effect|].
    apply (Booked_settle B (SDelete iid o)); auto.
  - apply Booked_drain; [now apply Pool_settle_all|].
    now apply Booked_settle_all.
Qed.

Lemma Booked_run (B : nat) (L : Z) (ins : list Input) (w : World) :
  (forall iid h d, handler_throws iid h d = None) ->
  Inv L w -> Pool w -> Forall (calm B) ins -> Booked B w ->
  Booked B (run w ins).
Proof.
  intros Hnt. revert w.
  induction ins as [|i ins IH]; intros w HI HP Hc HB; [exact HB|].
  apply Forall_cons in Hc as [Hc Hcs]. simpl.
  apply IH; auto using Inv_step, Pool_step. now apply (Booked_step B L).
Qed.

(** The concurrency limit.  On a run of an instance with a positive limit
    on which no pass is started while the fan-out of an earlier one is
    waiting (the queue is empty when [startFetch] is called, when a
    heartbeat fires and when an operation settles, and no two operations
    settle before the queue has run), no handler throws or rejects, no
    delete call fails and the backend answers each receive request with at
    most as many messages as were asked for, the number of jobs in progress
    (the handler is running, or the delete call is outstanding) never
    exceeds [concurrentOpsLimit]. *)
Theorem concurrency_limit (o : Opts) (w0 : World) (ins : list Input) :
  boot o = inr w0 ->
  0 < opt_concurrentOpsLimit o ->
  (forall iid h d, handler_throws iid h d = None) ->
  serial w0 ins ->
  Forall (calm (Z.to_nat (Z.min 10 (opt_concurrentOpsLimit o)))) ins ->
  Z.of_nat (size (items (run w0 ins))) <= opt_concurrentOpsLimit o.
Proof.
  intros Hb Hpos Hnt Hser Hcalm.
  set (L := opt_concurrentOpsLimit o) in *.
  set (B := Z.to_nat (Z.min 10 L)) in *.
  pose proof (Pool_boot o w0 Hb) as HP.
  pose proof (Inv_boot o w0 Hb) as HI.
  assert (HB0 : Booked B w0).
  { pose proof Hb as Hb'.
    apply boot_inr in Hb' as (s & _ & -> & _). split; simpl.
    - rewrite map_size_empty. lia.
    - intros wid wk. now rewrite lookup_empty. }
  assert (HBu : Budget w0).
  { pose proof Hb as Hb'.
    apply boot_inr in Hb' as (s & _ & -> & _ & _ & _ & _ & H0).
    pose proof (boot_required o _ Hb).
    unfold Budget, waiting. simpl in *. lia. }
  destruct (Booked_run B L ins w0 Hnt HI HP Hcalm HB0) as [H1 H2].
  destruct (pool_run ins w0 HP) as ((P1 & _) & P2 & P3).
  specialize (P3 Hser HBu). unfold Budget in P3.
  pose proof (booked_bound B _ H2) as H3.
  assert (Hreq : Z.of_nat B * _longPollsRequired (inst w0) = L).
  { unfold boot in Hb. destruct (new_Sqs o) as [e|s] eqn:E; [discriminate|].
    injection Hb as <-. simpl.
    destruct (new_Sqs_inr o s E) as (_ & _ & _ & _ & [Hs|Hd]).
    - destruct (new_Sqs_small o Hs) as (s' & E' & Hr & _).
      rewrite E in E'. injection E' as <-. rewrite Hr. subst B. fold L in Hs.
      lia.
    - destruct (Z_le_gt_dec L 10) as [Hs|Hg].
      + destruct (new_Sqs_small o Hs) as (s' & E' & Hr & _).
        rewrite E in E'. injection E' as <-. rewrite Hr. subst B. lia.
      + destruct (new_Sqs_tens o) as (s' & E' & Hr & _);
          [fold L; lia|now apply rem_divide_10|].
        rewrite E in E'. injection E' as <-. rewrite Hr. subst B.
        fold L. destruct Hd as [k Hk]. fold L in Hk. rewrite Hk.
        rewrite Z.quot_mul by lia. lia. }
  rewrite P2 in P3. rewrite P1 in P3.
  assert (0 <= Z.of_nat B) by lia.
  nia.
Qed.

End Repo.

(** ** Concrete runs

    Payloads are kept as text: a body parses when it starts with an
    opening brace.  Handlers are numbered, the logger is a unit value. *)

Definition demo_parse (s : string) : option string :=
  match s with
  | String "{"%char _ => Some s
  | _ => None
  end.

Definition demo_stringify (s : string) : string := s.

Definition demo_url : string :=
  "https://sqs.us-east-1.amazonaws.com/409236574440/test-node-sqs-library".

Definition demo_pathname (s : string) : option string :=
  Some "/409236574440/test-node-sqs-library".

Definition demo_opts (L : Z) : Opts (Logger := unit) := mkOpts demo_url L tt.

(** The world after [new Sqs(opts)] and [init()], for a limit that the
    constructor accepts. *)
Definition demo_world (L required : Z)
  : World (Json := string) (Handler := nat) (Logger := unit) :=
  world_of
    (mkSqs true 10000 None (Some tt) None (Some L) required 0
       (Some demo_url) (demo_pathname demo_url) false
       Proto Proto Proto Proto).

Definition boom : Err := mkErr false false "boom" "Error: boom at handler".

(** The handlers throw on a payload that starts with [{throw]. *)
Definition demo_throws (iid h : nat) (d : string) : option Reason :=
  if String.prefix "{throw" d then Some (Thrown boom) else None.

Definition demo_run := run (Handler := nat) (Logger := unit)
                         demo_parse demo_stringify demo_throws.

Definition DemoInput : Type := Input (Json := string) (Handler := nat).

Definition demo_msg : RawMessage := mkMsg "{}" "receipt-1".

Definition demo_bad_msg : RawMessage := mkMsg "oops" "receipt-2".

(** A message on whose payload the handlers throw. *)
Definition demo_throw_msg : RawMessage := mkMsg "{throw}" "receipt-3".

(** A batch of one parseable item is received and its handler fulfils. *)
Definition run_acked : list DemoInput :=
  [CallStartFetch 7%nat; QueueDrained;
   ReceiveSettled 0 (RecvData (Some [demo_msg]));
   HandlerSettled 0 None].

(** A batch of one unparseable item is received. *)
Definition run_unparseable : list DemoInput :=
  [CallStartFetch 7%nat; QueueDrained;
   ReceiveSettled 0 (RecvData (Some [demo_bad_msg]))].

(** [dispose()] is called while a handler is in flight; the handler then
    fulfils. *)
Definition run_dispose_in_flight : list DemoInput :=
  [CallStartFetch 7%nat; QueueDrained;
   ReceiveSettled 0 (RecvData (Some [demo_msg]));
   CallDispose;
   HandlerSettled 0 None].

(** [dispose()] is called while the long poll is outstanding; the poll
    then answers with a message. *)
Definition run_dispose_polling : list DemoInput :=
  [CallStartFetch 7%nat; QueueDrained;
   CallDispose;
   ReceiveSettled 0 (RecvData (Some [demo_msg]))].



(** [startFetch] is called twice in one turn, then the queue runs. *)
Definition run_double_start : list DemoInput :=
  [CallStartFetch 7%nat; CallStartFetch 7%nat; QueueDrained].

(** With limit 20, two workers are launched. *)
Definition run_two_workers : list DemoInput :=
  [CallStartFetch 7%nat; QueueDrained].


Definition receive_10 : ReceiveParams := mkReceive (Some demo_url) (Some 10) 10.

Definition DemoEvent : Type :=
  Event (Json := string) (Handler := nat) (Logger := unit).

(** The trace of [run_dispose_in_flight], before and after the disposal. *)
Definition before_disposal : list DemoEvent :=
  [EvMainLoop 1; EvReceive 0 receive_10;
   EvLog tt Info
     [LStr "service.sqs._receiveMessages() :: Fetched"; LNum 1;
      LStr " jobs to"; LStr " process for queue:";
      LOpt (demo_pathname demo_url)];
   EvItem 0 demo_msg; EvInvoke 0 7%nat "{}"].

Definition after_disposal : list DemoEvent :=
  [EvHandlerSettled 0 None; EvDelete 0 (mkDelete None "receipt-1")].



Lemma demo_boot_10 :
  boot (Handler := nat) demo_pathname (demo_opts 10) = inr (demo_world 10 1).
Proof. reflexivity. Qed.

Lemma demo_boot_20 :
  boot (Handler := nat) demo_pathname (demo_opts 20) = inr (demo_world 20 2).
Proof. reflexivity. Qed.




(** [unparseable_item] on [run_unparseable]: the warning follows the entry
    of item 0, and the trace holds neither an invocation nor a delete call
    for it. *)
Lemma unparseable_item_witness :
  (exists lg pth t3,
     [EvLog tt Warn (parse_warning (demo_pathname demo_url) demo_bad_msg);
      EvMainLoop 1; EvReceive 1 receive_10] =
     EvLog (Json := string) (Handler := nat) lg Warn
       (parse_warning pth demo_bad_msg) :: t3) /\
  (forall h d,
     ~ In (EvInvoke 0 h d) (trace (demo_run (demo_world 10 1) run_unparseable))) /\
  (forall p,
     ~ In (EvDelete 0 p) (trace (demo_run (demo_world 10 1) run_unparseable))).
Proof.
  apply (unparseable_item demo_parse demo_stringify demo_pathname demo_throws
           (demo_opts 10) (demo_world 10 1) run_unparseable
           [EvMainLoop 1; EvReceive 0 receive_10;
            EvLog tt Info
              [LStr "service.sqs._receiveMessages() :: Fetched"; LNum 1;
               LStr " jobs to"; LStr " process for queue:";
               LOpt (demo_pathname demo_url)]]).
  - reflexivity.
  - vm_compute. reflexivity.
  - reflexivity.
Defined.

(** C2 at limit 40. *)
Lemma C2_witness :
  (40 <= 10 \/ (10 < 40 /\ (10 | 40)) ->
   exists s, new_Sqs (Handler := nat) demo_pathname (demo_opts 40) = inr s) /\
  (~ (40 <= 10 \/ (10 < 40 /\ (10 | 40))) ->
   new_Sqs (Handler := nat) demo_pathname (demo_opts 40)
   = inl (Error_ errMessage) /\
   boot (Json := string) (Handler := nat) demo_pathname (demo_opts 40)
   = inl (Error_ errMessage)).
Proof.
  apply (C2_construction (Json := string) (Handler := nat)
           demo_pathname (demo_opts 40)).
  simpl. lia.
Defined.

(** C8, as stated, fails at limit 5: it is neither 10 nor a multiple of 10
    above 10, and the constructor returns an instance. *)
Lemma C8_counterexample :
  ~ (5 = 10 \/ (10 < 5 /\ (10 | 5))) /\
  exists s, new_Sqs (Handler := nat) demo_pathname (demo_opts 5) = inr s.
Proof.
  split; [lia|]. eexists. reflexivity.
Qed.

(** The amended C8 at limit 25. *)
Lemma C8_witness :
  ((exists e, new_Sqs (Handler := nat) demo_pathname (demo_opts 25) = inl e)
   <-> (10 < 25 /\ ~ (10 | 25))) /\
  (25 <= 10 ->
   exists s, new_Sqs (Handler := nat) demo_pathname (demo_opts 25) = inr s).
Proof.
  apply (C8_invalid_limits (Handler := nat) demo_pathname (demo_opts 25)).
  simpl. lia.
Defined.

(** C5 at limit 20. *)
Lemma C5_witness :
  exists w0,
    boot demo_pathname (demo_opts 20) = inr w0 /\
    _longPollsRequired (inst w0) = 2 /\
    forall ins t1 wid p t2,
      trace (demo_run w0 ins) = t1 ++ EvReceive wid p :: t2 ->
      receive_ok 20 t1 p /\ asks_at_most p 10.
Proof.
  apply (C5_budget (Handler := nat) demo_parse demo_stringify demo_pathname demo_throws
           (demo_opts 20)).
  - simpl. lia.
  - right. simpl. split; [lia|]. exists 2. reflexivity.
Defined.

(** C7, as stated, fails with limit 20: when the first of the two workers
    settles, the counter drops to 1 of the 2 required, and nothing else
    happens: the trace is as before, so [_mainLoop] did not run, and no
    fan-out is waiting. *)
Lemma C7_counterexample :
  workers (demo_run (demo_world 20 2) run_two_workers) !! 0%nat
  = Some (mkWorker 0 (Polling Proto Proto)) /\
  workers (demo_run (demo_world 20 2)
             (run_two_workers ++ [ReceiveSettled 0 (RecvData None)])) !! 0%nat
  = None /\
  _longPollsInFlight
    (inst (demo_run (demo_world 20 2)
             (run_two_workers ++ [ReceiveSettled 0 (RecvData None)]))) = 1 /\
  _longPollsRequired
    (inst (demo_run (demo_world 20 2)
             (run_two_workers ++ [ReceiveSettled 0 (RecvData None)]))) = 2 /\
  trace (demo_run (demo_world 20 2)
           (run_two_workers ++ [ReceiveSettled 0 (RecvData None)]))
  = trace (demo_run (demo_world 20 2) run_two_workers) /\
  fanouts (demo_run (demo_world 20 2)
             (run_two_workers ++ [ReceiveSettled 0 (RecvData None)])) = [].
Proof. vm_compute. repeat split. Qed.

(** C3 on [run_dispose_in_flight] and [run_dispose_polling].  On the
    first, the handler that was in flight fulfils after the disposal and
    [deleteMessage] is called, with [null] for the queue URL.  On the
    second, the long poll that was in flight settles after the disposal:
    its items are dropped, but the prototype's [_mainLoop], held by
    [.finally], runs a pass and a receive request is issued with [null]
    for the queue URL and the count. *)
Theorem C3_delete_after_dispose :
  trace (demo_run (demo_world 10 1) run_dispose_in_flight)
  = before_disposal ++ EvDisposed :: after_disposal /\
  trace (demo_run (demo_world 10 1) run_dispose_polling)
  = [EvMainLoop 1; EvReceive 0 receive_10; EvDisposed;
     EvMainLoop 1; EvReceive 1 (mkReceive None None 10)].
Proof. vm_compute. split; reflexivity. Qed.

(** C4 on [run_double_start]: both passes compute a deficit of 1 before
    either mapper has run, two long polls are launched and the counter
    exceeds [_longPollsRequired]. *)
Theorem C4_double_start :
  _longPollsRequired (inst (demo_run (demo_world 10 1) run_double_start)) = 1 /\
  _longPollsInFlight (inst (demo_run (demo_world 10 1) run_double_start)) = 2 /\
  trace (demo_run (demo_world 10 1) run_double_start)
  = [EvMainLoop 1; EvMainLoop 1; EvReceive 0 receive_10; EvReceive 1 receive_10].
Proof. vm_compute. repeat split. Qed.

(** [after_dispose] on [run_dispose_in_flight]: the delete call that follows
    the disposal belongs to item 0, whose handler was invoked before. *)
Lemma after_dispose_witness :
  (forall iid h d, ~ In (EvInvoke iid h d) after_disposal) /\
  (forall iid p,
     In (EvDelete iid p) after_disposal ->
     exists h d, In (EvInvoke iid h d) before_disposal).
Proof.
  apply (after_dispose demo_parse demo_stringify demo_pathname demo_throws
           (demo_opts 10) (demo_world 10 1) run_dispose_in_flight).
  - reflexivity.
  - vm_compute. reflexivity.
Defined.

(** [worker_pool_bound] on [run_two_workers], which is serial. *)
Lemma worker_pool_bound_witness :
  _longPollsInFlight (inst (demo_run (demo_world 20 2) run_two_workers))
  <= _longPollsRequired (inst (demo_run (demo_world 20 2) run_two_workers)).
Proof.
  refine (proj2 (proj2 (worker_pool_bound demo_parse demo_stringify
                          demo_pathname demo_throws (demo_opts 20) (demo_world 20 2)
                          run_two_workers _)) _).
  - reflexivity.
  - vm_compute. repeat split.
Defined.

(** ** Further runs *)

Definition demo_step := step (Handler := nat) (Logger := unit)
                          demo_parse demo_stringify demo_throws.

(** The line that [_processMessages] logs for a batch of one. *)
Definition fetched_1 : DemoEvent :=
  EvLog tt Info
    [LStr "service.sqs._receiveMessages() :: Fetched"; LNum 1;
     LStr " jobs to"; LStr " process for queue:";
     LOpt (demo_pathname demo_url)].

(** A batch of one parseable item is received; its handler is running. *)
Definition run_received : list DemoInput :=
  [CallStartFetch 7%nat; QueueDrained;
   ReceiveSettled 0 (RecvData (Some [demo_msg]))].

(** The instance is disposed of while its long poll is outstanding. *)
Definition run_disposed : list DemoInput :=
  [CallStartFetch 7%nat; QueueDrained; CallDispose].

(** With limit 20, the first of the two long polls comes back empty. *)
Definition run_one_left : list DemoInput :=
  run_two_workers ++ [ReceiveSettled 0 (RecvData None)].

(** A job is created and the instance is disposed of; [startFetch] is
    never called. *)
Definition run_producer : list DemoInput :=
  [CallCreateJob "{}"; CallDispose].

(** [logs_to_the_logger] on [run_unparseable], at the warning. *)
Lemma logs_to_the_logger_witness :
  tt = logger (demo_opts 10) /\
  ~ In EvDisposed
      [EvMainLoop 1; EvReceive 0 receive_10; fetched_1;
       EvItem (Handler := nat) 0 demo_bad_msg].
Proof.
  apply (logs_to_the_logger demo_parse demo_stringify demo_pathname demo_throws
           (demo_opts 10) (demo_world 10 1) run_unparseable
           [EvMainLoop 1; EvReceive 0 receive_10; fetched_1;
            EvItem 0 demo_bad_msg]
           [EvMainLoop 1; EvReceive 1 receive_10]
           tt Warn (parse_warning (demo_pathname demo_url) demo_bad_msg)).
  - reflexivity.
  - vm_compute. reflexivity.
Defined.

(** [calls_name_the_queue] on [run_acked], at the receive request. *)
Lemma calls_name_the_queue_witness :
  WaitTimeSeconds receive_10 = 10 /\
  (~ In (EvDisposed : DemoEvent) [EvMainLoop 1] ->
   rp_QueueUrl receive_10 = Some (sqsUrl (demo_opts 10))).
Proof.
  apply (calls_name_the_queue demo_parse demo_stringify demo_pathname demo_throws
           (demo_opts 10) (demo_world 10 1) run_acked
           [EvMainLoop 1]
           [fetched_1; EvItem 0 demo_msg; EvInvoke 0 7%nat "{}";
            EvHandlerSettled 0 None;
            EvDelete 0 (mkDelete (Some demo_url) "receipt-1")]
           (EvReceive 0 receive_10)).
  - reflexivity.
  - vm_compute. reflexivity.
Defined.

(** [heartbeat_tops_up] on [run_one_left]: one long poll of the two
    required is in flight when the heartbeat fires. *)
Lemma heartbeat_tops_up_witness :
  _longPollsInFlight
    (inst (demo_run (demo_run (demo_world 20 2) run_one_left)
             [TimerFired 0; QueueDrained]))
  = Z.max (_longPollsInFlight (inst (demo_run (demo_world 20 2) run_one_left)))
          (_longPollsRequired (inst (demo_run (demo_world 20 2) run_one_left))).
Proof.
  apply (heartbeat_tops_up demo_parse demo_stringify demo_pathname demo_throws
           (demo_opts 20) (demo_world 20 2) run_one_left 0%nat).
  - reflexivity.
  - vm_compute. reflexivity.
  - exists Proto. vm_compute. reflexivity.
Defined.

(** [dispose_stops_heartbeat] on [run_disposed]. *)
Lemma dispose_stops_heartbeat_witness :
  intervals (demo_run (demo_world 10 1) run_disposed) = ∅ /\
  forall t,
    demo_step (demo_run (demo_world 10 1) run_disposed) (TimerFired t)
    = demo_run (demo_world 10 1) run_disposed.
Proof.
  apply (dispose_stops_heartbeat demo_parse demo_stringify demo_pathname demo_throws
           (demo_opts 10) (demo_world 10 1) run_disposed).
  - reflexivity.
  - simpl. lia.
  - vm_compute. reflexivity.
Defined.

(** [startFetch_after_dispose] on [run_disposed]. *)
Lemma startFetch_after_dispose_witness :
  demo_step (demo_run (demo_world 10 1) run_disposed) (CallStartFetch 8%nat)
  = demo_run (demo_world 10 1) run_disposed.
Proof.
  apply (startFetch_after_dispose demo_parse demo_stringify demo_pathname demo_throws
           (demo_opts 10) (demo_world 10 1) run_disposed 8%nat).
  - reflexivity.
  - vm_compute. reflexivity.
Defined.

(** The job is created while the long poll is outstanding. *)
Definition job_sent :=
  demo_run (demo_step (demo_run (demo_world 10 1) run_two_workers)
              (CallCreateJob "{}")) [].

(** [job_round_trip]: a job is created while the long poll is outstanding,
    and the poll brings it back. *)
Lemma job_round_trip_witness :
  exists iid h,
    In (EvItem iid demo_msg)
      (trace (demo_step job_sent
                (ReceiveSettled 0 (RecvData (Some [demo_msg]))))) /\
    In (EvInvoke iid h "{}")
      (trace (demo_step job_sent
                (ReceiveSettled 0 (RecvData (Some [demo_msg]))))).
Proof.
  refine (proj2 (job_round_trip demo_parse demo_stringify demo_pathname demo_throws
                   (demo_opts 10) (demo_world 10 1) run_two_workers []
                   "{}" 0%nat (mkWorker 0 (Polling Proto Proto)) Proto Proto
                   7%nat [demo_msg] demo_msg _ _ _) _ _ _ _ _ _).
  - reflexivity.
  - reflexivity.
  - vm_compute. reflexivity.
  - vm_compute. reflexivity.
  - vm_compute. reflexivity.
  - reflexivity.
  - vm_compute. reflexivity.
  - vm_compute. now left.
  - reflexivity.
Defined.

(** [invocations_are_genuine] on [run_acked]. *)
Lemma invocations_are_genuine_witness :
  In (CallStartFetch 7%nat) run_acked /\
  exists m,
    In (EvItem 0 m)
      [EvMainLoop 1; EvReceive 0 receive_10; fetched_1;
       EvItem (Handler := nat) 0 demo_msg] /\
    demo_parse (Body m) = Some "{}".
Proof.
  apply (invocations_are_genuine demo_parse demo_stringify demo_pathname demo_throws
           (demo_opts 10) (demo_world 10 1) run_acked
           [EvMainLoop 1; EvReceive 0 receive_10; fetched_1;
            EvItem 0 demo_msg]
           [EvHandlerSettled 0 None;
            EvDelete 0 (mkDelete (Some demo_url) "receipt-1")]
           0%nat 7%nat "{}").
  - reflexivity.
  - vm_compute. reflexivity.
Defined.

(** [delete_failure_is_only_logged] on [run_acked], whose delete call is
    outstanding. *)
Lemma delete_failure_is_only_logged_witness :
  demo_step (demo_run (demo_world 10 1) run_acked)
    (DeleteSettled 0 (Some (Thrown boom)))
  = demo_step
      (emit (EvLog tt Error
               [LStr "service.sqs._completeJob() :: Deleting job failed. Error:";
                LReason (Thrown boom)])
         (demo_step (demo_run (demo_world 10 1) run_acked) QueueDrained))
      (DeleteSettled 0 None).
Proof.
  apply (delete_failure_is_only_logged demo_parse demo_stringify demo_pathname demo_throws
           (demo_opts 10) (demo_world 10 1) run_acked 0%nat
           (mkItem 0 demo_msg AwaitDelete) (Thrown boom)).
  - reflexivity.
  - vm_compute. reflexivity.
  - vm_compute. reflexivity.
  - reflexivity.
Defined.

(** The handler of item 0 rejects on [run_received]. *)
Definition job_failed :=
  demo_step (demo_run (demo_world 10 1) run_received)
    (HandlerSettled 0 (Some (Thrown boom))).

(** [failed_job_releases_worker] on [run_received]: the handler of item 0
    rejects. *)
Lemma failed_job_releases_worker_witness :
  workers job_failed !! 0%nat = None /\
  items job_failed = delete 0%nat (items (demo_run (demo_world 10 1) run_received)) /\
  (ownError boom = false ->
   exists t1 t2,
     trace job_failed
     = trace (demo_run (demo_world 10 1) run_received) ++ t1
       ++ EvHandlerSettled 0 (Some (Thrown boom))
       :: EvLog (logger (demo_opts 10)) Error
            [LStr "service.sqs._receiveMessages() :: Error on receiveMessage";
             LStr "for queue:";
             LOpt (pathname (inst (demo_run (demo_world 10 1) run_received)));
             LStr "Error:"; LStr (message boom)] :: t2).
Proof.
  apply (failed_job_releases_worker demo_parse demo_stringify
           demo_pathname demo_throws (demo_opts 10) (demo_world 10 1) run_received
           0%nat (mkItem 0 demo_msg AwaitHandler)
           (mkWorker 0 (Mapping 1)) 1%nat boom).
  - reflexivity.
  - vm_compute. reflexivity.
  - vm_compute. reflexivity.
  - reflexivity.
  - vm_compute. reflexivity.
  - reflexivity.
Defined.

(** [purge_only_test_queues] on [run_received]: the queue URL of the
    instance has an occurrence of [test]. *)
Lemma purge_only_test_queues_witness :
  purge (demo_run (demo_world 10 1) run_received)
  = (emit (EvLog tt Info
             [LStr "service.sqs.purge() :: Purging queue with url:";
              LOpt (Some demo_url)])
       (demo_run (demo_world 10 1) run_received),
     Called (Some demo_url)).
Proof.
  refine (proj1 (proj2 (purge_only_test_queues demo_parse demo_stringify
                          demo_pathname demo_throws (demo_opts 10) (demo_world 10 1)
                          run_received _)) _ _).
  - reflexivity.
  - vm_compute. reflexivity.
  - exists "https://sqs.us-east-1.amazonaws.com/409236574440/",
      "-node-sqs-library". reflexivity.
Defined.

(** [init_outcome] on [run_received]: a failure of the backend is passed
    on as it is. *)
Lemma init_outcome_witness :
  snd (init_done (AttrFailed (Thrown boom))
         (demo_run (demo_world 10 1) run_received))
  = Some (Thrown boom).
Proof.
  refine (proj1 (proj2 (proj2 (proj1 (proj2
            (init_outcome demo_parse demo_stringify demo_pathname demo_throws
               (demo_opts 10) (demo_world 10 1) run_received _)) _)))
            (Thrown boom)).
  - reflexivity.
  - vm_compute. reflexivity.
Defined.

(** [no_poll_before_startFetch] on [run_producer]. *)
Lemma no_poll_before_startFetch_witness :
  idle (demo_run (demo_world 10 1) run_producer) /\
  _longPollsInFlight (inst (demo_run (demo_world 10 1) run_producer)) = 0 /\
  Forall producing (trace (demo_run (demo_world 10 1) run_producer)).
Proof.
  apply (no_poll_before_startFetch demo_parse demo_stringify demo_pathname demo_throws
           (demo_opts 10) (demo_world 10 1) run_producer).
  - reflexivity.
  - reflexivity.
Defined.

(** A batch of four: the body of the second item does not parse, and
    the handler throws on the third. *)
Definition batch_of_four : list RawMessage :=
  [demo_msg; demo_bad_msg; demo_throw_msg; demo_msg].

(** [batch_dispatched_in_order] on [batch_of_four]: the first three items
    are entered, the fourth is not. *)
Lemma batch_dispatched_in_order_witness :
  reached demo_parse demo_throws 7%nat 0 batch_of_four
  = [demo_msg; demo_bad_msg; demo_throw_msg] /\
  exists evs,
    trace (demo_step (demo_run (demo_world 10 1) run_two_workers)
             (ReceiveSettled 0 (RecvData (Some batch_of_four))))
    = trace (demo_run (demo_world 10 1) run_two_workers) ++ evs /\
    entered evs
    = numbered (next_item (demo_run (demo_world 10 1) run_two_workers))
        (reached demo_parse demo_throws 7%nat
           (next_item (demo_run (demo_world 10 1) run_two_workers))
           batch_of_four).
Proof.
  split; [reflexivity|].
  apply (batch_dispatched_in_order demo_parse demo_stringify demo_pathname
           demo_throws
           (demo_opts 10) (demo_world 10 1) run_two_workers 0%nat
           (mkWorker 0 (Polling Proto Proto)) Proto Proto 7%nat
           batch_of_four).
  - reflexivity.
  - vm_compute. reflexivity.
  - vm_compute. reflexivity.
  - reflexivity.
  - vm_compute. reflexivity.
Defined.

(** [empty_poll_is_silent] on [run_two_workers] with limit 10: the only
    long poll comes back empty. *)
Lemma empty_poll_is_silent_witness :
  extends relaunch (demo_run (demo_world 10 1) run_two_workers)
    (demo_step (demo_run (demo_world 10 1) run_two_workers)
       (ReceiveSettled 0 (RecvData None))) /\
  workers (demo_step (demo_run (demo_world 10 1) run_two_workers)
             (ReceiveSettled 0 (RecvData None))) !! 0%nat = None /\
  items (demo_step (demo_run (demo_world 10 1) run_two_workers)
           (ReceiveSettled 0 (RecvData None)))
  = items (demo_run (demo_world 10 1) run_two_workers).
Proof.
  apply (empty_poll_is_silent demo_parse demo_stringify demo_pathname demo_throws
           (demo_opts 10) (demo_world 10 1) run_two_workers 0%nat
           (mkWorker 0 (Polling Proto Proto)) Proto Proto).
  - reflexivity.
  - vm_compute. reflexivity.
  - vm_compute. reflexivity.
  - reflexivity.
Defined.

(** The only long poll fails on [run_two_workers] with limit 10. *)
Definition poll_failed :=
  demo_step (demo_run (demo_world 10 1) run_two_workers)
    (ReceiveSettled 0 (RecvFailed (Thrown boom))).

(** [failed_poll_is_logged] on [run_two_workers] with limit 10: the long
    poll fails. *)
Lemma failed_poll_is_logged_witness :
  (exists t1 t2,
     Forall relaunch t1 /\ Forall relaunch t2 /\
     trace poll_failed
     = trace (demo_run (demo_world 10 1) run_two_workers) ++ t1
       ++ receive_error_lines (logger (demo_opts 10))
            (pathname (inst (demo_run (demo_world 10 1) run_two_workers)))
            boom
       ++ t2) /\
  workers poll_failed !! 0%nat = None /\
  items poll_failed = items (demo_run (demo_world 10 1) run_two_workers).
Proof.
  apply (failed_poll_is_logged demo_parse demo_stringify
           demo_pathname demo_throws (demo_opts 10) (demo_world 10 1)
           run_two_workers 0%nat (mkWorker 0 (Polling Proto Proto))
           Proto Proto boom).
  - reflexivity.
  - vm_compute. reflexivity.
  - vm_compute. reflexivity.
  - reflexivity.
  - reflexivity.
Defined.

(** With limit 20, the first long poll comes back empty and the heartbeat
    starts a pass of one worker: two passes have one long poll each. *)
Definition run_two_passes : list DemoInput :=
  [CallStartFetch 7%nat; QueueDrained;
   ReceiveSettled 0 (RecvData None);
   TimerFired 0; QueueDrained].

(** When the last long polls of two passes settle before the queue runs,
    the [.finally(this._mainLoop)] of the second pass reads the counter
    before the mapper that the first has queued has run: the passes launch
    1 and 2 long polls, and 3 are in flight where 2 are required.  No pass
    of this run is started while a fan-out is waiting.  When the queue runs
    between the two, 2 are in flight. *)
Theorem settled_together_exceeds :
  fanouts (demo_run (demo_world 20 2) run_two_passes) = [] /\
  _longPollsInFlight (inst (demo_run (demo_world 20 2) run_two_passes)) = 2 /\
  _longPollsRequired
    (inst (demo_step (demo_run (demo_world 20 2) run_two_passes)
             (SettledTogether [SReceive 1 (RecvData None);
                               SReceive 2 (RecvData None)]))) = 2 /\
  _longPollsInFlight
    (inst (demo_step (demo_run (demo_world 20 2) run_two_passes)
             (SettledTogether [SReceive 1 (RecvData None);
                               SReceive 2 (RecvData None)]))) = 3 /\
  trace (demo_step (demo_run (demo_world 20 2) run_two_passes)
           (SettledTogether [SReceive 1 (RecvData None);
                             SReceive 2 (RecvData None)]))
  = trace (demo_run (demo_world 20 2) run_two_passes)
    ++ [EvMainLoop 1; EvMainLoop 2;
        EvReceive 3 receive_10; EvReceive 4 receive_10;
        EvReceive 5 receive_10] /\
  _longPollsInFlight
    (inst (demo_run (demo_run (demo_world 20 2) run_two_passes)
             [ReceiveSettled 1 (RecvData None);
              ReceiveSettled 2 (RecvData None)])) = 2.
Proof. vm_compute. repeat split. Qed.

(** Handlers that never throw. *)
Definition never_throws (iid h : nat) (d : string) : option Reason := None.

(** [concurrency_limit] on [run_acked], with limit 10 and handlers that do
    not throw. *)
Lemma concurrency_limit_witness :
  Z.of_nat
    (size (items (run (Logger := unit) demo_parse demo_stringify never_throws
                    (demo_world 10 1) run_acked)))
  <= opt_concurrentOpsLimit (demo_opts 10).
Proof.
  apply (concurrency_limit demo_parse demo_stringify demo_pathname
           never_throws (demo_opts 10) (demo_world 10 1) run_acked).
  - reflexivity.
  - simpl. lia.
  - reflexivity.
  - vm_compute. repeat split; lia.
  - repeat constructor.
Defined.
